(** * ObjectSlot: a generational slot pool with reference-counted handles

    Shallow embedding of [SlotHandle.h], [ObjectSlotBase.h], [ObjectSlot.h]
    and the [SlotRef] class of [WeakSlotPtr.h].

    Conventions of the embedding
    - [uint32_t] and [size_t] values are [N] with the wrap-around of the
      C++ unsigned arithmetic written out ([wrap32], [wrap64]; [size_t] is
      taken to be 64 bits wide).
    - the five parallel [std::vector]s of the pool are lists, read with
      [!!] and written with [<[ i := x ]>]; an index past the end is
      undefined behaviour in C++, here the read yields a default and the
      write does nothing.  Under [pool_wf] no such access is made.
    - [std::queue<uint32_t>] is a list whose head is the front.
    - [std::function<void()>] is an abstract type [Hook]; calling one is the
      section variable [invoke], a transformer of the whole program state,
      so that a callback may re-enter the pool.
    - the [SlotRef] objects of the client live in a store indexed by their
      address; [this != &other] is a comparison of addresses.
    - [assert] failing is the outcome [Abort]; a loop or a chain of
      callbacks that exhausts its gas is the outcome [Diverge]. *)

From stdpp Require Import base numbers option list sorting gmap.

#[local] Set Warnings "-clear-no-such-hyp".

Open Scope N_scope.

(** ** Machine integers *)

Definition UINT32_MAX : N := 4294967295.

Definition wrap32 (n : N) : N := n mod 4294967296.

Definition wrap64 (n : N) : N := n mod 18446744073709551616.

(** [++x] and [--x] on [uint32_t] and [size_t]. *)
Definition incr32 (n : N) : N := wrap32 (n + 1).
Definition decr32 (n : N) : N := wrap32 (n + UINT32_MAX).
Definition incr64 (n : N) : N := wrap64 (n + 1).
Definition decr64 (n : N) : N := wrap64 (n + 18446744073709551615).

(** ** SlotHandle.h *)

Record SlotHandle := mkHandle { index : N; generation : N }.

Definition INVALID_INDEX : N := UINT32_MAX.

Definition handle_eqb (a b : SlotHandle) : bool :=
  (index a =? index b) && (generation a =? generation b).

Definition handle_IsValid (h : SlotHandle) : bool :=
  negb (index h =? INVALID_INDEX).

Definition Invalid : SlotHandle := mkHandle INVALID_INDEX 0.

(** ** Outcomes of operations that may run callbacks *)

Inductive outcome (A : Type) : Type :=
| Done (a : A)
| Abort
| Diverge.

Arguments Done {A} a.
Arguments Abort {A}.
Arguments Diverge {A}.

Definition obind {A B} (m : outcome A) (k : A -> outcome B) : outcome B :=
  match m with
  | Done a => k a
  | Abort => Abort
  | Diverge => Diverge
  end.

Notation "'do' x <- m ; k" := (obind m (fun x => k))
  (at level 10, x name, m at level 100, k at level 200).

(** A pointer to the pool: [ObjectSlot<T>] is a singleton, so a non-null
    [ObjectSlotBase<T>*] held by a [SlotRef<T>] designates that instance. *)
Inductive PoolPtr := Null | ThePool.

Definition PoolPtr_eqb (a b : PoolPtr) : bool :=
  match a, b with
  | Null, Null | ThePool, ThePool => true
  | _, _ => false
  end.

(** [SlotRef<T>]: the two data members. *)
Record SlotRef := mkRef { m_handle : SlotHandle; m_slot : PoolPtr }.

(** [SlotRef()] and [SlotRef(nullptr)]. *)
Definition SlotRef_empty : SlotRef := mkRef Invalid Null.

(** [SlotRef(handle, slot)]. *)
Definition SlotRef_bind (h : SlotHandle) (p : PoolPtr) : SlotRef := mkRef h p.

Section ObjectSlot.

(** Element type and callback type. *)
Variable T : Type.
Variable Hook : Type.

(** *** ObjectSlotBase.h: data members *)

Record Pool := mkPool {
  m_data : list T;
  m_generations : list N;
  m_alive : list bool;
  m_refCounts : list N;
  m_onDestroyCallbacks : list (option Hook);
  m_freeList : list N;
  m_count : N;
  m_maxCapacity : N
}.

(** The pool right after construction. *)
Definition Pool_new : Pool := mkPool [] [] [] [] [] [] 0 0.

(** [v[i]] as an rvalue. *)
Definition gen_at (p : Pool) (i : N) : N :=
  default 0 (m_generations p !! N.to_nat i).
Definition alive_at (p : Pool) (i : N) : bool :=
  default false (m_alive p !! N.to_nat i).
Definition rc_at (p : Pool) (i : N) : N :=
  default 0 (m_refCounts p !! N.to_nat i).
Definition cb_at (p : Pool) (i : N) : option Hook :=
  default None (m_onDestroyCallbacks p !! N.to_nat i).

(** [m_data.size()]. *)
Definition data_size (p : Pool) : N := N.of_nat (length (m_data p)).

(** Field updates. *)
Definition set_refCounts (p : Pool) (l : list N) : Pool :=
  mkPool (m_data p) (m_generations p) (m_alive p) l
         (m_onDestroyCallbacks p) (m_freeList p) (m_count p) (m_maxCapacity p).
Definition set_callbacks (p : Pool) (l : list (option Hook)) : Pool :=
  mkPool (m_data p) (m_generations p) (m_alive p) (m_refCounts p)
         l (m_freeList p) (m_count p) (m_maxCapacity p).

(** *** ObjectSlotBase.h: public, read-only *)

Definition IsValidHandle (p : Pool) (handle : SlotHandle) : bool :=
  if data_size p <=? index handle then false
  else if negb (alive_at p (index handle)) then false
  else if negb (gen_at p (index handle) =? generation handle) then false
  else true.

(** [T* Get(SlotHandle)]: [None] is [nullptr], [Some x] is the address
    of [m_data[handle.index]], whose content is [x]. *)
Definition Get (p : Pool) (handle : SlotHandle) : option T :=
  if negb (IsValidHandle p handle) then None
  else m_data p !! N.to_nat (index handle).

Definition GetRefCount (p : Pool) (handle : SlotHandle) : N :=
  if negb (IsValidHandle p handle) then 0
  else rc_at p (index handle).

Definition Count (p : Pool) : N := m_count p.

Definition Capacity (p : Pool) : N := data_size p.

Definition SetMaxCapacity (p : Pool) (maxCapacity : N) : Pool :=
  mkPool (m_data p) (m_generations p) (m_alive p) (m_refCounts p)
         (m_onDestroyCallbacks p) (m_freeList p) (m_count p) maxCapacity.

Definition GetMaxCapacity (p : Pool) : N := m_maxCapacity p.

Definition CanCreate (p : Pool) : bool :=
  if m_maxCapacity p =? 0 then true
  else m_count p <? m_maxCapacity p.

(** [Reserve] only calls [reserve] on the vectors: sizes and contents
    are unchanged. *)
Definition Reserve (p : Pool) (capacity : N) : Pool := p.

(** The scan of [ShrinkToFit]:
    [while (newSize > 0 && !m_alive[newSize - 1]) --newSize;] *)
Fixpoint shrink_scan (p : Pool) (newSize : nat) : nat :=
  match newSize with
  | O => O
  | S n => if negb (alive_at p (N.of_nat n)) then shrink_scan p n else S n
  end.

Definition ShrinkToFit (p : Pool) : Pool :=
  let newSize := shrink_scan p (length (m_data p)) in
  if (newSize =? length (m_data p))%nat then p
  else
    mkPool (take newSize (m_data p))
           (take newSize (m_generations p))
           (take newSize (m_alive p))
           (take newSize (m_refCounts p))
           (take newSize (m_onDestroyCallbacks p))
           (filter (fun i => i < N.of_nat newSize) (m_freeList p))
           (m_count p) (m_maxCapacity p).

(** *** ObjectSlotBase.h: protected, without callbacks *)

Definition AllocateSlot (obj : T) (p : Pool) : SlotHandle * Pool :=
  match m_freeList p with
  | i :: rest =>
      (mkHandle i (gen_at p i),
       mkPool (<[N.to_nat i := obj]> (m_data p))
              (m_generations p)
              (<[N.to_nat i := true]> (m_alive p))
              (<[N.to_nat i := 0]> (m_refCounts p))
              (<[N.to_nat i := None]> (m_onDestroyCallbacks p))
              rest
              (incr64 (m_count p)) (m_maxCapacity p))
  | [] =>
      (mkHandle (wrap32 (data_size p)) 0,
       mkPool (m_data p ++ [obj])
              (m_generations p ++ [0])
              (m_alive p ++ [true])
              (m_refCounts p ++ [0])
              (m_onDestroyCallbacks p ++ [None])
              []
              (incr64 (m_count p)) (m_maxCapacity p))
  end.

Definition AddRef (p : Pool) (handle : SlotHandle) : Pool :=
  if IsValidHandle p handle then
    set_refCounts p (<[N.to_nat (index handle) := incr32 (rc_at p (index handle))]>
                       (m_refCounts p))
  else p.

Definition SetOnDestroyCallback (p : Pool) (handle : SlotHandle)
    (callback : option Hook) : Pool :=
  if IsValidHandle p handle then
    set_callbacks p (<[N.to_nat (index handle) := callback]>
                       (m_onDestroyCallbacks p))
  else p.

Definition ClearOnDestroyCallback (p : Pool) (handle : SlotHandle) : Pool :=
  if IsValidHandle p handle then
    set_callbacks p (<[N.to_nat (index handle) := None]>
                       (m_onDestroyCallbacks p))
  else p.

(** *** ObjectSlot.h: [Create]

    [Create] returns a [SlotPtr<T>] built with the constructors
    [SlotPtr()] and [SlotPtr(handle, this)]; these are the constructors
    of the reference-counted pointer class [SlotRef]. *)
Definition Create (obj : T) (p : Pool) : SlotRef * Pool :=
  if negb (CanCreate p) then (SlotRef_empty, p)
  else
    let '(handle, p1) := AllocateSlot obj p in
    (SlotRef_bind handle ThePool, AddRef p1 handle).

(** *** Program state

    The pool, the [SlotRef] objects of the client by address, and the
    record of the callback invocations made so far (slot index and
    callback, oldest first).  The record is instrumentation: no
    operation reads it. *)

Record World := mkWorld {
  pool : Pool;
  refs : gmap nat SlotRef;
  calls : list (N * Hook)
}.

Definition World_new : World := mkWorld Pool_new ∅ [].

Definition with_pool (w : World) (p : Pool) : World :=
  mkWorld p (refs w) (calls w).
Definition with_ref (w : World) (a : nat) (r : SlotRef) : World :=
  mkWorld (pool w) (<[a := r]> (refs w)) (calls w).
Definition without_ref (w : World) (a : nat) : World :=
  mkWorld (pool w) (delete a (refs w)) (calls w).

(** What running a [std::function<void()>] does to the program. *)
Variable invoke : Hook -> World -> outcome World.

(** [m_onDestroyCallbacks[i]()]. *)
Definition call_hook (i : N) (hk : Hook) (w : World) : outcome World :=
  invoke hk (mkWorld (pool w) (refs w) (calls w ++ [(i, hk)])).

(** *** ObjectSlotBase.h: operations that run callbacks *)

Definition RemoveInternal (handle : SlotHandle) (w : World) : outcome World :=
  let i := index handle in
  do w1 <- match cb_at (pool w) i with
           | Some hk =>
               do w' <- call_hook i hk w;
               Done (with_pool w'
                       (set_callbacks (pool w')
                          (<[N.to_nat i := None]> (m_onDestroyCallbacks (pool w')))))
           | None => Done w
           end;
  let p := pool w1 in
  Done (with_pool w1
          (mkPool (m_data p)
                  (<[N.to_nat i := incr32 (gen_at p i)]> (m_generations p))
                  (<[N.to_nat i := false]> (m_alive p))
                  (<[N.to_nat i := 0]> (m_refCounts p))
                  (m_onDestroyCallbacks p)
                  (m_freeList p ++ [i])
                  (decr64 (m_count p)) (m_maxCapacity p))).

Definition ReleaseRef (handle : SlotHandle) (w : World) : outcome World :=
  let p := pool w in
  let i := index handle in
  if IsValidHandle p handle then
    if rc_at p i =? 0 then Abort
    else
      let w1 := with_pool w
                  (set_refCounts p (<[N.to_nat i := decr32 (rc_at p i)]> (m_refCounts p))) in
      if rc_at (pool w1) i =? 0 then RemoveInternal handle w1
      else Done w1
  else Done w.

(** The loop of [Clear]:
    [for (size_t i = 0; i < m_data.size(); ++i)
       if (m_alive[i]) if (m_onDestroyCallbacks[i]) m_onDestroyCallbacks[i]();] *)
Fixpoint Clear_loop (gas : nat) (i : N) (w : World) : outcome World :=
  match gas with
  | O => Diverge
  | S g =>
      if i <? data_size (pool w) then
        do w' <- (if alive_at (pool w) i then
                    match cb_at (pool w) i with
                    | Some hk => call_hook i hk w
                    | None => Done w
                    end
                  else Done w);
        Clear_loop g (N.succ i) w'
      else Done w
  end.

Definition Clear (gas : nat) (w : World) : outcome World :=
  do w' <- Clear_loop gas 0 w;
  Done (with_pool w' (mkPool [] [] [] [] [] [] 0 (m_maxCapacity (pool w')))).

(** *** WeakSlotPtr.h: class [SlotRef] *)

Definition SlotRef_IsValid (p : Pool) (r : SlotRef) : bool :=
  match m_slot r with
  | Null => false
  | ThePool => IsValidHandle p (m_handle r)
  end.

Definition SlotRef_Get (p : Pool) (r : SlotRef) : option T :=
  if negb (SlotRef_IsValid p r) then None
  else Get p (m_handle r).

Definition UseCount (p : Pool) (r : SlotRef) : N :=
  if negb (SlotRef_IsValid p r) then 0
  else GetRefCount p (m_handle r).

Definition GetHandle (r : SlotRef) : SlotHandle := m_handle r.

(** [operator==(const SlotRef&)]. *)
Definition SlotRef_eqb (a b : SlotRef) : bool :=
  handle_eqb (m_handle a) (m_handle b) && PoolPtr_eqb (m_slot a) (m_slot b).

(** The body shared by the copy constructor and the copy assignment:
    [if (m_slot != nullptr && m_slot->IsValidHandle(m_handle))
       m_slot->AddRef(m_handle);] *)
Definition acquire (p : Pool) (r : SlotRef) : Pool :=
  if SlotRef_IsValid p r then AddRef p (m_handle r) else p.

(** [Release()], on the members read from the object. *)
Definition Release (r : SlotRef) (w : World) : outcome World :=
  if SlotRef_IsValid (pool w) r then ReleaseRef (m_handle r) w
  else Done w.

(** The operations below name objects by address.  An operation on an
    address that holds no object does nothing. *)

(** [SlotRef(const SlotRef& other)], the new object at [dst]. *)
Definition copy_construct (dst src : nat) (w : World) : World :=
  match refs w !! src with
  | None => w
  | Some other =>
      let w1 := with_ref w dst (mkRef (m_handle other) (m_slot other)) in
      with_pool w1 (acquire (pool w1) (mkRef (m_handle other) (m_slot other)))
  end.

(** [operator=(const SlotRef& other)]. *)
Definition copy_assign (dst src : nat) (w : World) : outcome World :=
  if (dst =? src)%nat then Done w
  else
    match refs w !! dst with
    | None => Done w
    | Some this =>
        do w1 <- Release this w;
        match refs w1 !! src with
        | None => Done w1
        | Some other =>
            let w2 := with_ref w1 dst (mkRef (m_handle other) (m_slot other)) in
            Done (with_pool w2
                    (acquire (pool w2) (mkRef (m_handle other) (m_slot other))))
        end
    end.

(** [SlotRef(SlotRef&& other)], the new object at [dst]. *)
Definition move_construct (dst src : nat) (w : World) : World :=
  match refs w !! src with
  | None => w
  | Some other =>
      with_ref (with_ref w dst (mkRef (m_handle other) (m_slot other)))
               src SlotRef_empty
  end.

(** [operator=(SlotRef&& other)]. *)
Definition move_assign (dst src : nat) (w : World) : outcome World :=
  if (dst =? src)%nat then Done w
  else
    match refs w !! dst with
    | None => Done w
    | Some this =>
        do w1 <- Release this w;
        match refs w1 !! src with
        | None => Done w1
        | Some other =>
            Done (with_ref (with_ref w1 dst (mkRef (m_handle other) (m_slot other)))
                           src SlotRef_empty)
        end
    end.

(** [Reset()], also [operator=(nullptr)]. *)
Definition Reset (x : nat) (w : World) : outcome World :=
  match refs w !! x with
  | None => Done w
  | Some this =>
      do w1 <- Release this w;
      Done (with_ref w1 x SlotRef_empty)
  end.

(** [~SlotRef()]: the object at [x] ceases to exist. *)
Definition destroy (x : nat) (w : World) : outcome World :=
  match refs w !! x with
  | None => Done w
  | Some this =>
      do w1 <- Release this w;
      Done (without_ref w1 x)
  end.

Definition SetOnDestroy (x : nat) (callback : option Hook) (w : World) : World :=
  match refs w !! x with
  | None => w
  | Some this =>
      if SlotRef_IsValid (pool w) this
      then with_pool w (SetOnDestroyCallback (pool w) (m_handle this) callback)
      else w
  end.

Definition ClearOnDestroy (x : nat) (w : World) : World :=
  match refs w !! x with
  | None => w
  | Some this =>
      if SlotRef_IsValid (pool w) this
      then with_pool w (ClearOnDestroyCallback (pool w) (m_handle this))
      else w
  end.

(** The statement [SlotRef<T>(std::move(x));]: a temporary is
    move-constructed from the object at [x], which becomes empty, and
    the temporary is destroyed at the end of the statement. *)
Definition move_to_temporary (x : nat) (w : World) : outcome World :=
  match refs w !! x with
  | None => Done w
  | Some other =>
      Release (mkRef (m_handle other) (m_slot other))
              (with_ref w x SlotRef_empty)
  end.

(** [SlotRef r = pool.Create(obj)], the new object at [dst]. *)
Definition create_at (dst : nat) (obj : T) (w : World) : World :=
  let '(r, p) := Create obj (pool w) in
  with_ref (with_pool w p) dst r.

(** *** Client programs

    The operations a client, or the body of a callback, can perform on
    the pool and on its [SlotRef] objects. *)

Inductive Op : Type :=
| OCreate (dst : nat) (obj : T)
| OCopyConstruct (dst src : nat)
| OMoveConstruct (dst src : nat)
| OCopyAssign (dst src : nat)
| OMoveAssign (dst src : nat)
| OMoveToTemporary (x : nat)
| OReset (x : nat)
| ODestroy (x : nat)
| OSetOnDestroy (x : nat) (callback : option Hook)
| OClearOnDestroy (x : nat)
| OSetMaxCapacity (maxCapacity : N)
| OReserve (capacity : N)
| OShrinkToFit
| OClear.

Definition step (gas : nat) (op : Op) (w : World) : outcome World :=
  match op with
  | OCreate dst obj => Done (create_at dst obj w)
  | OCopyConstruct dst src => Done (copy_construct dst src w)
  | OMoveConstruct dst src => Done (move_construct dst src w)
  | OCopyAssign dst src => copy_assign dst src w
  | OMoveAssign dst src => move_assign dst src w
  | OMoveToTemporary x => move_to_temporary x w
  | OReset x => Reset x w
  | ODestroy x => destroy x w
  | OSetOnDestroy x callback => Done (SetOnDestroy x callback w)
  | OClearOnDestroy x => Done (ClearOnDestroy x w)
  | OSetMaxCapacity n => Done (with_pool w (SetMaxCapacity (pool w) n))
  | OReserve n => Done (with_pool w (Reserve (pool w) n))
  | OShrinkToFit => Done (with_pool w (ShrinkToFit (pool w)))
  | OClear => Clear gas w
  end.

Fixpoint run (gas : nat) (ops : list Op) (w : World) : outcome World :=
  match ops with
  | [] => Done w
  | op :: rest => do w' <- step gas op w; run gas rest w'
  end.

End ObjectSlot.

Arguments mkPool {T Hook}.
Arguments m_data {T Hook}.
Arguments m_generations {T Hook}.
Arguments m_alive {T Hook}.
Arguments m_refCounts {T Hook}.
Arguments m_onDestroyCallbacks {T Hook}.
Arguments m_freeList {T Hook}.
Arguments m_count {T Hook}.
Arguments m_maxCapacity {T Hook}.
Arguments Pool_new {T Hook}.
Arguments gen_at {T Hook}.
Arguments alive_at {T Hook}.
Arguments rc_at {T Hook}.
Arguments cb_at {T Hook}.
Arguments data_size {T Hook}.
Arguments set_refCounts {T Hook}.
Arguments set_callbacks {T Hook}.
Arguments IsValidHandle {T Hook}.
Arguments Get {T Hook}.
Arguments GetRefCount {T Hook}.
Arguments Count {T Hook}.
Arguments Capacity {T Hook}.
Arguments SetMaxCapacity {T Hook}.
Arguments GetMaxCapacity {T Hook}.
Arguments CanCreate {T Hook}.
Arguments Reserve {T Hook}.
Arguments shrink_scan {T Hook}.
Arguments ShrinkToFit {T Hook}.
Arguments AllocateSlot {T Hook}.
Arguments AddRef {T Hook}.
Arguments SetOnDestroyCallback {T Hook}.
Arguments ClearOnDestroyCallback {T Hook}.
Arguments Create {T Hook}.
Arguments mkWorld {T Hook}.
Arguments pool {T Hook}.
Arguments refs {T Hook}.
Arguments calls {T Hook}.
Arguments World_new {T Hook}.
Arguments with_pool {T Hook}.
Arguments with_ref {T Hook}.
Arguments without_ref {T Hook}.
Arguments call_hook {T Hook}.
Arguments RemoveInternal {T Hook}.
Arguments ReleaseRef {T Hook}.
Arguments Clear_loop {T Hook}.
Arguments Clear {T Hook}.
Arguments SlotRef_IsValid {T Hook}.
Arguments SlotRef_Get {T Hook}.
Arguments UseCount {T Hook}.
Arguments acquire {T Hook}.
Arguments Release {T Hook}.
Arguments copy_construct {T Hook}.
Arguments copy_assign {T Hook}.
Arguments move_construct {T Hook}.
Arguments move_assign {T Hook}.
Arguments move_to_temporary {T Hook}.
Arguments Reset {T Hook}.
Arguments destroy {T Hook}.
Arguments SetOnDestroy {T Hook}.
Arguments ClearOnDestroy {T Hook}.
Arguments create_at {T Hook}.
Arguments OCreate {T Hook}.
Arguments OCopyConstruct {T Hook}.
Arguments OMoveConstruct {T Hook}.
Arguments OCopyAssign {T Hook}.
Arguments OMoveAssign {T Hook}.
Arguments OMoveToTemporary {T Hook}.
Arguments OReset {T Hook}.
Arguments ODestroy {T Hook}.
Arguments OSetOnDestroy {T Hook}.
Arguments OClearOnDestroy {T Hook}.
Arguments OSetMaxCapacity {T Hook}.
Arguments OReserve {T Hook}.
Arguments OShrinkToFit {T Hook}.
Arguments OClear {T Hook}.
Arguments step {T Hook}.
Arguments run {T Hook}.

(** ** Callbacks as client code

    A callback whose body is a sequence of client operations.  Running it
    executes the body with the callbacks it triggers run in the same way,
    one level of nesting per unit of [depth]. *)

#[local] Unset Elimination Schemes.
Inductive HookCode (T : Type) : Type :=
| Body (ops : list (Op T (HookCode T))).

#[local] Set Elimination Schemes.

Arguments Body {T}.

Fixpoint invoke_code {T : Type} (gas depth : nat) (hk : HookCode T)
    (w : World T (HookCode T)) : outcome (World T (HookCode T)) :=
  match depth with
  | O => Diverge
  | S d => match hk with
           | Body ops => run (invoke_code gas d) gas ops w
           end
  end.

(** A callback that only produces output: it leaves the program state as
    it is. *)
Definition invoke_quiet {T Hook : Type} (hk : Hook) (w : World T Hook)
  : outcome (World T Hook) := Done w.

(** ** WeakSlotRef

    [WeakSlotPtr.h] forward-declares [WeakSlotRef] and declares
    [SlotRef::GetWeak], but the sources define neither the class nor the
    member function. *)

(** Modelled from the spec: the class [WeakSlotRef], absent from the
    sources.  A weak reference "holds pool pointer + handle but
    contributes nothing to the ref-count". *)
Record WeakSlotRef := mkWeak { wk_handle : SlotHandle; wk_slot : PoolPtr }.

(** Modelled from the spec: [SlotRef::GetWeak], declared but not defined
    in the sources.  A weak reference is "constructed only by asking a
    StrongRef to derive one" and holds its pool pointer and handle. *)
Definition GetWeak (r : SlotRef) : WeakSlotRef :=
  mkWeak (m_handle r) (m_slot r).

(** Modelled from the spec: [WeakSlotRef::upgrade], absent from the
    sources.  "If the pool pointer is non-null and is_valid(handle) holds,
    increments the ref-count and returns a bound StrongRef; otherwise
    returns nothing." *)
Definition upgrade {T Hook : Type} (wk : WeakSlotRef) (p : Pool T Hook)
  : option SlotRef * Pool T Hook :=
  match wk_slot wk with
  | Null => (None, p)
  | ThePool =>
      if IsValidHandle p (wk_handle wk)
      then (Some (SlotRef_bind (wk_handle wk) ThePool), AddRef p (wk_handle wk))
      else (None, p)
  end.

(** * Properties *)

(** ** Well-formed pools and valid handles *)

Section Pool_facts.

Context {T Hook : Type}.
Implicit Types (p : Pool T Hook) (h : SlotHandle).

(** The five parallel vectors have one length and the free list holds
    positions of the storage. *)
Record pool_wf p : Prop := mk_pool_wf {
  wf_generations : length (m_generations p) = length (m_data p);
  wf_alive : length (m_alive p) = length (m_data p);
  wf_refCounts : length (m_refCounts p) = length (m_data p);
  wf_callbacks : length (m_onDestroyCallbacks p) = length (m_data p);
  wf_freeList : Forall (fun i => i < data_size p) (m_freeList p)
}.

(** Validity as the specification words it. *)
Definition valid_handle p h : Prop :=
  index h < data_size p /\
  alive_at p (index h) = true /\
  gen_at p (index h) = generation h.

Lemma IsValidHandle_true p h : IsValidHandle p h = true <-> valid_handle p h.
Proof.
  unfold IsValidHandle, valid_handle.
  destruct (N.leb_spec (data_size p) (index h)) as [Hle|Hlt].
  - split; [discriminate | lia].
  - destruct (alive_at p (index h)); simpl.
    + destruct (N.eqb_spec (gen_at p (index h)) (generation h)); simpl;
        split; try discriminate; intuition.
    + split; [discriminate | intros (_ & ? & _); discriminate].
Qed.

Lemma IsValidHandle_false p h : IsValidHandle p h = false <-> ~ valid_handle p h.
Proof.
  rewrite <- IsValidHandle_true. destruct (IsValidHandle p h); split; congruence.
Qed.

Lemma valid_handle_in_range p h :
  valid_handle p h -> (N.to_nat (index h) < length (m_data p))%nat.
Proof. unfold valid_handle, data_size. lia. Qed.

Lemma Pool_new_wf : pool_wf (@Pool_new T Hook).
Proof. split; simpl; auto. Qed.

End Pool_facts.

(** ** C1: [Get] *)

Section Get_facts.

Context {T Hook : Type}.
Implicit Types (p : Pool T Hook) (h : SlotHandle).

(** C1. For every pool state and every handle, [Get] returns the address
    of the stored element [m_data[h.index]] exactly when the handle is
    valid (index inside the storage, slot alive, generations equal) and
    [nullptr] otherwise.  [Get] computes its result from the pool and has
    no resulting pool state: it modifies nothing. *)
Theorem Get_iff_valid p h :
  (valid_handle p h <->
     exists x, Get p h = Some x /\ m_data p !! N.to_nat (index h) = Some x) /\
  (~ valid_handle p h <-> Get p h = None).
Proof.
  unfold Get. split.
  - split.
    + intros Hv. pose proof (valid_handle_in_range _ _ Hv) as Hr.
      apply IsValidHandle_true in Hv. rewrite Hv. simpl.
      destruct (lookup_lt_is_Some_2 _ _ Hr) as [x Hx]. eauto.
    + intros (x & Hg & _). apply IsValidHandle_true.
      destruct (IsValidHandle p h); [reflexivity | discriminate].
  - split.
    + intros Hv. apply IsValidHandle_false in Hv. now rewrite Hv.
    + intros Hg Hv. pose proof (valid_handle_in_range _ _ Hv) as Hr.
      apply IsValidHandle_true in Hv. rewrite Hv in Hg. simpl in Hg.
      apply lookup_lt_is_Some_2 in Hr. rewrite Hg in Hr. now destruct Hr.
Qed.

End Get_facts.

(** ** Allocation and reference counting on the pool *)

Section Alloc_facts.

Context {T Hook : Type}.
Implicit Types (p : Pool T Hook) (h : SlotHandle).

Lemma lookup_default_insert {A} (d x : A) (l : list A) (i j : nat) :
  default d (<[i := x]> l !! j) =
  if decide (i = j /\ (i < length l)%nat) then x else default d (l !! j).
Proof.
  destruct (decide (i = j)) as [->|Hne].
  - destruct (decide (j < length l)%nat) as [Hlt|Hge].
    + rewrite list_lookup_insert_eq by assumption.
      destruct (decide _) as [_|Hn]; [reflexivity | now destruct Hn].
    + rewrite list_insert_ge by lia.
      destruct (decide _) as [[_ ?]|_]; [lia | reflexivity].
  - rewrite list_lookup_insert_ne by assumption.
    destruct (decide _) as [[? _]|_]; [congruence | reflexivity].
Qed.

Lemma wrap32_small n : n < 4294967296 -> wrap32 n = n.
Proof. intros. unfold wrap32. now apply N.mod_small. Qed.

Lemma wrap64_small n : n < 18446744073709551616 -> wrap64 n = n.
Proof. intros. unfold wrap64. now apply N.mod_small. Qed.

Lemma incr32_small n : n < UINT32_MAX -> incr32 n = n + 1.
Proof. unfold incr32, UINT32_MAX. intros. apply wrap32_small. lia. Qed.

Lemma decr32_pos n : 0 < n -> n <= UINT32_MAX -> decr32 n = n - 1.
Proof.
  unfold decr32, wrap32, UINT32_MAX. intros Hp Hle.
  replace (n + 4294967295) with ((n - 1) + 1 * 4294967296) by lia.
  rewrite N.Div0.mod_add. apply N.mod_small. lia.
Qed.

(** [AddRef] touches one reference count and nothing else. *)
Lemma AddRef_valid_handle p h h' :
  valid_handle (AddRef p h) h' <-> valid_handle p h'.
Proof.
  unfold AddRef. destruct (IsValidHandle p h); reflexivity.
Qed.

Lemma AddRef_IsValidHandle p h h' :
  IsValidHandle (AddRef p h) h' = IsValidHandle p h'.
Proof.
  unfold AddRef. destruct (IsValidHandle p h); reflexivity.
Qed.

Lemma AddRef_wf p h : pool_wf p -> pool_wf (AddRef p h).
Proof.
  intros [Hg Ha Hr Hc Hf]. unfold AddRef.
  destruct (IsValidHandle p h); split; simpl; auto.
  now rewrite length_insert.
Qed.

Lemma AddRef_rc_at p h i :
  pool_wf p ->
  rc_at (AddRef p h) i =
  if decide (valid_handle p h /\ i = index h) then incr32 (rc_at p i)
  else rc_at p i.
Proof.
  intros Hwf. unfold AddRef.
  destruct (IsValidHandle p h) eqn:Hv.
  - apply IsValidHandle_true in Hv.
    unfold rc_at at 1. simpl. rewrite lookup_default_insert.
    pose proof (valid_handle_in_range _ _ Hv) as Hr.
    rewrite <- (wf_refCounts _ Hwf) in Hr.
    destruct (decide (N.to_nat (index h) = N.to_nat i /\ _)) as [[He _]|Hn].
    + apply N2Nat.inj in He. subst i.
      destruct (decide _) as [_|Hn]; [reflexivity | now destruct Hn].
    + destruct (decide _) as [[_ ->]|_]; [now destruct Hn | reflexivity].
  - apply IsValidHandle_false in Hv.
    destruct (decide _) as [[? _]|_]; [contradiction | reflexivity].
Qed.

Lemma AddRef_frame p h :
  m_data (AddRef p h) = m_data p /\
  m_generations (AddRef p h) = m_generations p /\
  m_alive (AddRef p h) = m_alive p /\
  m_onDestroyCallbacks (AddRef p h) = m_onDestroyCallbacks p /\
  m_freeList (AddRef p h) = m_freeList p /\
  m_count (AddRef p h) = m_count p /\
  m_maxCapacity (AddRef p h) = m_maxCapacity p.
Proof. unfold AddRef. destruct (IsValidHandle p h); simpl; auto 10. Qed.

(** [AllocateSlot] on a well-formed pool whose size fits the 32-bit
    index of a handle. *)
Lemma AllocateSlot_ok obj p h p' :
  pool_wf p -> data_size p < 4294967296 ->
  AllocateSlot obj p = (h, p') ->
  pool_wf p' /\ valid_handle p' h /\
  rc_at p' (index h) = 0 /\ cb_at p' (index h) = None /\
  m_data p' !! N.to_nat (index h) = Some obj /\
  m_count p' = incr64 (m_count p) /\
  m_maxCapacity p' = m_maxCapacity p /\
  (forall h', valid_handle p h' -> valid_handle p' h').
Proof.
  intros [Hg Ha Hr Hc Hf] Hsz. unfold AllocateSlot.
  destruct (m_freeList p) as [|i rest] eqn:Hfl; intros [= <- <-].
  - (* a new slot at the end *)
    assert (Hi : N.to_nat (wrap32 (data_size p)) = length (m_data p)).
    { rewrite wrap32_small by assumption. unfold data_size. lia. }
    split; [|repeat split]; simpl.
    + split; simpl; rewrite ?length_app; simpl; auto.
    + unfold data_size. simpl. rewrite length_app, wrap32_small by assumption.
      unfold data_size. simpl. lia.
    + unfold alive_at. simpl. rewrite Hi, <- Ha.
      now rewrite lookup_app_r, Nat.sub_diag by lia.
    + unfold gen_at. simpl. rewrite Hi, <- Hg.
      now rewrite lookup_app_r, Nat.sub_diag by lia.
    + unfold rc_at. simpl. rewrite Hi, <- Hr.
      now rewrite lookup_app_r, Nat.sub_diag by lia.
    + unfold cb_at. simpl. rewrite Hi, <- Hc.
      now rewrite lookup_app_r, Nat.sub_diag by lia.
    + rewrite Hi. now rewrite lookup_app_r, Nat.sub_diag by lia.
    + destruct H as (Hlt & _). unfold data_size in *. simpl.
      rewrite length_app. simpl. lia.
    + destruct H as (Hlt & Hal & _). unfold alive_at in *. simpl.
      rewrite lookup_app_l; [assumption | unfold data_size in Hlt; lia].
    + destruct H as (Hlt & _ & Hge). unfold gen_at in *. simpl.
      rewrite lookup_app_l; [assumption | unfold data_size in Hlt; lia].
  - (* the front of the free list is reused *)
    apply Forall_cons in Hf as [Hi Hf]. unfold data_size in Hi.
    split; [|repeat split]; simpl.
    + split; simpl; rewrite ?length_insert; auto.
      unfold data_size. simpl. now rewrite length_insert.
    + unfold data_size. simpl. rewrite length_insert. lia.
    + unfold alive_at. simpl. rewrite list_lookup_insert_eq by lia. reflexivity.
    + unfold rc_at. simpl. rewrite list_lookup_insert_eq by lia. reflexivity.
    + unfold cb_at. simpl. rewrite list_lookup_insert_eq by lia. reflexivity.
    + rewrite list_lookup_insert_eq by lia. reflexivity.
    + destruct H as (Hlt & _). unfold data_size in *. simpl.
      now rewrite length_insert.
    + destruct H as (Hlt & Hal & _). unfold alive_at in *. simpl.
      rewrite lookup_default_insert. destruct (decide _); auto.
    + destruct H as (_ & _ & Hge). exact Hge.
Qed.

End Alloc_facts.

(** ** C6: [CanCreate] and the capacity limit *)

Section Create_facts.

Context {T Hook : Type}.
Implicit Types (p : Pool T Hook) (h : SlotHandle) (r : SlotRef).

Lemma CanCreate_true p :
  CanCreate p = true <-> m_maxCapacity p = 0 \/ m_count p < m_maxCapacity p.
Proof.
  unfold CanCreate.
  destruct (N.eqb_spec (m_maxCapacity p) 0) as [->|Hne].
  - split; auto.
  - rewrite N.ltb_lt. split; [auto | intros [?|?]; [contradiction | assumption]].
Qed.

(** A creation that is allowed yields a bound, valid reference of use
    count one to a slot holding the object. *)
Lemma Create_ok obj p r p' :
  pool_wf p -> data_size p < 4294967296 -> CanCreate p = true ->
  Create obj p = (r, p') ->
  pool_wf p' /\ m_slot r = ThePool /\
  SlotRef_IsValid p' r = true /\ UseCount p' r = 1 /\
  Get p' (m_handle r) = Some obj /\
  m_count p' = incr64 (m_count p) /\
  m_maxCapacity p' = m_maxCapacity p /\
  (forall h', valid_handle p h' -> valid_handle p' h').
Proof.
  intros Hwf Hsz Hcan. unfold Create. rewrite Hcan. simpl.
  destruct (AllocateSlot obj p) as [h p1] eqn:Hal. intros [= <- <-].
  destruct (AllocateSlot_ok _ _ _ _ Hwf Hsz Hal)
    as (Hwf1 & Hv & Hrc & _ & Hd & Hcnt & Hmax & Hpres).
  assert (Hvb : IsValidHandle (AddRef p1 h) h = true).
  { rewrite AddRef_IsValidHandle. now apply IsValidHandle_true. }
  destruct (AddRef_frame p1 h) as (Ed & _ & _ & _ & _ & Ec & Em).
  split_and!; simpl.
  - now apply AddRef_wf.
  - reflexivity.
  - exact Hvb.
  - unfold UseCount, GetRefCount, SlotRef_IsValid. simpl. rewrite Hvb. simpl.
    rewrite AddRef_rc_at by assumption.
    destruct (decide _) as [_|Hn]; [| now destruct Hn].
    rewrite Hrc. reflexivity.
  - unfold Get. rewrite Hvb. simpl. now rewrite Ed.
  - now rewrite Ec.
  - now rewrite Em.
  - intros h' Hh'. apply AddRef_valid_handle, Hpres, Hh'.
Qed.

Lemma Create_refused obj p :
  CanCreate p = false -> Create obj p = (SlotRef_empty, p).
Proof. intros H. unfold Create. now rewrite H. Qed.

Lemma Create_size obj p r p' :
  Create obj p = (r, p') -> data_size p' <= data_size p + 1.
Proof.
  unfold Create. destruct (CanCreate p); simpl.
  - destruct (AllocateSlot obj p) as [h p1] eqn:Hal. intros [= <- <-].
    destruct (AddRef_frame p1 h) as (Ed & _).
    unfold data_size. rewrite Ed. unfold AllocateSlot in Hal.
    destruct (m_freeList p); injection Hal as <- <-; simpl;
      rewrite ?length_app, ?length_insert; simpl; lia.
  - intros [= <- <-]. lia.
Qed.

(** C6. [CanCreate] answers true exactly when the pool is unbounded
    ([m_maxCapacity = 0]) or holds fewer elements than the bound.  With
    the bound at 2 and no element yet, two calls of [Create] each return
    a valid reference, the first still valid after the second; a third
    call returns the empty reference and leaves the pool, and so
    [Count() = 2], as it was. *)
Theorem CanCreate_capacity_two :
  (forall p, CanCreate p = true <->
             m_maxCapacity p = 0 \/ m_count p < m_maxCapacity p) /\
  (forall p a b c r1 p1 r2 p2 r3 p3,
     pool_wf p -> data_size p + 1 < 4294967296 ->
     m_maxCapacity p = 2 -> m_count p = 0 ->
     Create a p = (r1, p1) -> Create b p1 = (r2, p2) ->
     Create c p2 = (r3, p3) ->
     SlotRef_IsValid p1 r1 = true /\
     SlotRef_IsValid p2 r2 = true /\ SlotRef_IsValid p2 r1 = true /\
     r3 = SlotRef_empty /\ SlotRef_IsValid p3 r3 = false /\
     p3 = p2 /\ Count p3 = 2).
Proof.
  split; [apply CanCreate_true|].
  intros p a b c r1 p1 r2 p2 r3 p3 Hwf Hsz Hmax Hcnt H1 H2 H3.
  assert (Hc0 : CanCreate p = true) by (apply CanCreate_true; lia).
  destruct (Create_ok _ _ _ _ Hwf ltac:(lia) Hc0 H1)
    as (Hwf1 & Hs1 & Hv1 & _ & _ & Hcnt1 & Hmax1 & _).
  rewrite Hcnt in Hcnt1. change (incr64 0) with 1 in Hcnt1.
  assert (Hc1 : CanCreate p1 = true) by (apply CanCreate_true; lia).
  pose proof (Create_size _ _ _ _ H1) as Hsz1.
  destruct (Create_ok _ _ _ _ Hwf1 ltac:(lia) Hc1 H2)
    as (Hwf2 & Hs2 & Hv2 & _ & _ & Hcnt2 & Hmax2 & Hpres).
  rewrite Hcnt1 in Hcnt2. change (incr64 1) with 2 in Hcnt2.
  assert (Hc2 : CanCreate p2 = false).
  { destruct (CanCreate p2) eqn:E; [|reflexivity].
    apply CanCreate_true in E. lia. }
  rewrite (Create_refused _ _ Hc2) in H3. injection H3 as <- <-.
  split_and!; auto.
  unfold SlotRef_IsValid in *. rewrite Hs1 in *.
  apply IsValidHandle_true, Hpres, IsValidHandle_true, Hv1.
Qed.

End Create_facts.

(** The same on the freshly constructed pool. *)
Lemma CanCreate_capacity_two_witness :
  let p : Pool nat nat := SetMaxCapacity Pool_new 2 in
  let c1 := Create 10%nat p in
  let c2 := Create 20%nat (snd c1) in
  let c3 := Create 30%nat (snd c2) in
  SlotRef_IsValid (snd c1) (fst c1) = true /\
  SlotRef_IsValid (snd c2) (fst c2) = true /\
  SlotRef_IsValid (snd c2) (fst c1) = true /\
  fst c3 = SlotRef_empty /\ SlotRef_IsValid (snd c3) (fst c3) = false /\
  snd c3 = snd c2 /\ Count (snd c3) = 2.
Proof.
  intros p c1 c2 c3.
  apply (proj2 (@CanCreate_capacity_two nat nat) p 10%nat 20%nat 30%nat).
  - split; simpl; auto.
  - vm_compute. reflexivity.
  - reflexivity.
  - reflexivity.
  - reflexivity.
  - reflexivity.
  - reflexivity.
Defined.

(** ** C8: [ShrinkToFit] *)

Section Shrink_facts.

Context {T Hook : Type}.
Implicit Types (p : Pool T Hook) (h : SlotHandle) (r : SlotRef).

Lemma shrink_scan_le p n : (shrink_scan p n <= n)%nat.
Proof.
  induction n as [|n IH]; simpl; [lia|].
  destruct (alive_at p (N.of_nat n)); simpl; lia.
Qed.

(** Every position from the result of the scan up to its start is dead. *)
Lemma shrink_scan_dead p n i :
  (shrink_scan p n <= i < n)%nat -> alive_at p (N.of_nat i) = false.
Proof.
  induction n as [|n IH]; simpl; [lia|].
  destruct (alive_at p (N.of_nat n)) eqn:Ha; simpl; [lia|].
  intros Hi. destruct (decide (i = n)) as [->|Hne]; [assumption|].
  apply IH. lia.
Qed.

(** The scan stops at the first alive slot from the top, or at zero. *)
Lemma shrink_scan_stop p n :
  shrink_scan p n = O \/
  exists m, shrink_scan p n = S m /\ alive_at p (N.of_nat m) = true.
Proof.
  induction n as [|n IH]; simpl; [now left|].
  destruct (alive_at p (N.of_nat n)) eqn:Ha; simpl; [right; eauto | exact IH].
Qed.

Lemma filter_all_lt (l : list N) (n : N) :
  Forall (fun i => i < n) l -> filter (fun i => i < n) l = l.
Proof.
  induction 1 as [|x l Hx _ IH]; [reflexivity|].
  rewrite filter_cons. destruct (decide (x < n)); [now rewrite IH | contradiction].
Qed.

(** On a well-formed pool both branches of [ShrinkToFit] are a
    truncation of the vectors at the result of the scan. *)
Lemma ShrinkToFit_take p :
  pool_wf p ->
  let n := shrink_scan p (length (m_data p)) in
  ShrinkToFit p =
  mkPool (take n (m_data p)) (take n (m_generations p))
         (take n (m_alive p)) (take n (m_refCounts p))
         (take n (m_onDestroyCallbacks p))
         (filter (fun i => i < N.of_nat n) (m_freeList p))
         (m_count p) (m_maxCapacity p).
Proof.
  intros [Hg Ha Hr Hc Hf] n. unfold ShrinkToFit. fold n.
  destruct (Nat.eqb_spec n (length (m_data p))) as [He|Hne]; [|reflexivity].
  rewrite !take_ge by lia.
  rewrite filter_all_lt by (unfold data_size in Hf; now rewrite He).
  now destruct p.
Qed.

Lemma valid_handle_below_scan p h :
  valid_handle p h ->
  (N.to_nat (index h) < shrink_scan p (length (m_data p)))%nat.
Proof.
  intros Hv. pose proof (valid_handle_in_range _ _ Hv) as Hr.
  destruct Hv as (_ & Hal & _).
  destruct (decide (N.to_nat (index h) < shrink_scan p (length (m_data p)))%nat)
    as [|Hge]; [assumption|].
  pose proof (shrink_scan_dead p (length (m_data p)) (N.to_nat (index h))
                ltac:(lia)) as Hd.
  rewrite N2Nat.id in Hd. congruence.
Qed.


End Shrink_facts.

(** Five slots created, the references to the last two dropped: shrinking
    leaves capacity 3 and the handles of slots 0, 1, 2 valid. *)
Definition five_slots_two_dead : Pool nat nat :=
  mkPool [10; 11; 12; 13; 14]%nat [0; 0; 0; 1; 1]
         [true; true; true; false; false] [1; 1; 1; 0; 0]
         [None; None; None; None; None] [3; 4] 3 0.

Example five_slots_two_dead_reached :
  exists w,
    run (T:=nat) (Hook:=nat) invoke_quiet 1
        [OCreate 0 10%nat; OCreate 1 11%nat; OCreate 2 12%nat;
         OCreate 3 13%nat; OCreate 4 14%nat; OReset 3; OReset 4]
        World_new = Done w /\
    pool w = five_slots_two_dead.
Proof. eexists. split; [vm_compute; reflexivity | reflexivity]. Qed.


(** ** C10 and C7: copying and assigning [SlotRef]s *)

Section Assign_facts.

Context {T Hook : Type}.
Variable invoke : Hook -> World T Hook -> outcome (World T Hook).
Implicit Types (w : World T Hook) (p : Pool T Hook) (r s : SlotRef).

Lemma SlotRef_eta r : mkRef (m_handle r) (m_slot r) = r.
Proof. now destruct r. Qed.

Lemma with_pool_same w : with_pool w (pool w) = w.
Proof. now destruct w. Qed.

(** C10. Assigning a [SlotRef] to itself, by copy or by move, returns at
    once with the whole program state as it was: the object keeps its
    handle and pool pointer, the pool and every reference count are the
    same, and no callback has run.  So a reference that was valid with
    use count [n] is still valid with use count [n] afterwards, the last
    reference ([n = 1]) included. *)
Theorem self_assign_unchanged w x :
  copy_assign invoke x x w = Done w /\
  move_assign invoke x x w = Done w /\
  (forall r, refs w !! x = Some r ->
     forall w', copy_assign invoke x x w = Done w' \/
                move_assign invoke x x w = Done w' ->
     refs w' !! x = Some r /\ pool w' = pool w /\ calls w' = calls w /\
     SlotRef_IsValid (pool w') r = SlotRef_IsValid (pool w) r /\
     UseCount (pool w') r = UseCount (pool w) r).
Proof.
  assert (Hc : copy_assign invoke x x w = Done w)
    by (unfold copy_assign; now rewrite Nat.eqb_refl).
  assert (Hm : move_assign invoke x x w = Done w)
    by (unfold move_assign; now rewrite Nat.eqb_refl).
  split_and!; [exact Hc | exact Hm |].
  intros r Hr w' [H|H]; rewrite ?Hc, ?Hm in H; injection H as <-; auto.
Qed.

(** The copy constructor, for any source object. *)
Lemma copy_construct_spec w dst src s :
  refs w !! src = Some s ->
  copy_construct dst src w =
  mkWorld (acquire (pool w) s) (<[dst := s]> (refs w)) (calls w).
Proof.
  intros Hs. unfold copy_construct. rewrite Hs, SlotRef_eta. reflexivity.
Qed.

Lemma acquire_valid p s :
  SlotRef_IsValid p s = true -> acquire p s = AddRef p (m_handle s).
Proof. intros H. unfold acquire. now rewrite H. Qed.

Lemma acquire_invalid p s :
  SlotRef_IsValid p s = false -> acquire p s = p.
Proof. intros H. unfold acquire. now rewrite H. Qed.

Lemma SlotRef_IsValid_true p s :
  SlotRef_IsValid p s = true <->
  m_slot s = ThePool /\ valid_handle p (m_handle s).
Proof.
  unfold SlotRef_IsValid. rewrite <- IsValidHandle_true.
  destruct (m_slot s); split; try discriminate; intuition discriminate.
Qed.

(** C7, as the code has it.  Copy construction from [s] always gives the
    new object the handle and the pool pointer of [s].  When [s] is
    bound and its handle is valid the reference count of its slot is
    incremented (modulo 2^32) and nothing else in the pool changes;
    otherwise the pool is unchanged, and the new object is the empty
    reference only when [s] is.  Copy assignment between two distinct
    objects first releases what the target held and then does the same
    from the state the release left; no callback runs in the copy
    itself. *)
Theorem copy_shares_and_counts w dst src s :
  refs w !! src = Some s ->
  (let w' := copy_construct dst src w in
   refs w' = <[dst := s]> (refs w) /\ calls w' = calls w /\
   (SlotRef_IsValid (pool w) s = true ->
      pool w' = AddRef (pool w) (m_handle s) /\
      (pool_wf (pool w) ->
         rc_at (pool w') (index (m_handle s)) =
           incr32 (rc_at (pool w) (index (m_handle s))) /\
         forall i, i <> index (m_handle s) ->
                   rc_at (pool w') i = rc_at (pool w) i)) /\
   (SlotRef_IsValid (pool w) s = false -> pool w' = pool w)) /\
  (forall this, dst <> src -> refs w !! dst = Some this ->
     copy_assign invoke dst src w =
     do w1 <- Release invoke this w;
     match refs w1 !! src with
     | Some other => Done (copy_construct dst src w1)
     | None => Done w1
     end).
Proof.
  intros Hs. split.
  - rewrite (copy_construct_spec _ _ _ _ Hs). simpl. split_and!; auto.
    + intros Hv. rewrite (acquire_valid _ _ Hv). split; [reflexivity|].
      intros Hwf. apply SlotRef_IsValid_true in Hv as [_ Hv].
      split.
      * rewrite AddRef_rc_at by assumption.
        destruct (decide _) as [_|Hn]; [reflexivity | now destruct Hn].
      * intros i Hi. rewrite AddRef_rc_at by assumption.
        destruct (decide _) as [[_ ?]|_]; [contradiction | reflexivity].
    + intros Hv. now rewrite (acquire_invalid _ _ Hv).
  - intros this Hne Hd. unfold copy_assign.
    destruct (Nat.eqb_spec dst src) as [?|_]; [contradiction|].
    rewrite Hd. destruct (Release invoke this w) as [w1| |]; simpl; auto.
    unfold copy_construct. destruct (refs w1 !! src); reflexivity.
Qed.

End Assign_facts.

(** ** C4 and C9: destroy callbacks in [Clear] and in removal *)

Section Hook_facts.

Context {T Hook : Type}.
Variable invoke : Hook -> World T Hook -> outcome (World T Hook).
Implicit Types (w : World T Hook) (p : Pool T Hook) (h : SlotHandle).

(** Callbacks that return and leave the pool alone: they do not call
    back into the pool, directly or through a [SlotRef]. *)
Definition hooks_quiet : Prop :=
  forall hk w, exists w',
    invoke hk w = Done w' /\ pool w' = pool w /\ calls w' = calls w.

(** The callback of slot [i], if the slot is alive and has one. *)
Definition alive_hook p (i : nat) : option (N * Hook) :=
  if alive_at p (N.of_nat i) then
    match cb_at p (N.of_nat i) with
    | Some hk => Some (N.of_nat i, hk)
    | None => None
    end
  else None.

(** The callbacks of the alive slots from position [k] on, by
    increasing index. *)
Definition alive_hooks_from p (k : nat) : list (N * Hook) :=
  omap (alive_hook p) (seq k (length (m_data p) - k)).

Definition alive_hooks p : list (N * Hook) := alive_hooks_from p 0.

Lemma alive_hooks_from_step p k :
  (k < length (m_data p))%nat ->
  alive_hooks_from p k =
  match alive_hook p k with
  | Some e => e :: alive_hooks_from p (S k)
  | None => alive_hooks_from p (S k)
  end.
Proof.
  intros Hk. unfold alive_hooks_from.
  replace (length (m_data p) - k)%nat with (S (length (m_data p) - S k)) by lia.
  simpl. destruct (alive_hook p k); reflexivity.
Qed.

Lemma alive_hooks_from_end p k :
  (length (m_data p) <= k)%nat -> alive_hooks_from p k = [].
Proof.
  intros Hk. unfold alive_hooks_from.
  now replace (length (m_data p) - k)%nat with O by lia.
Qed.

Lemma Clear_loop_quiet :
  hooks_quiet ->
  forall gas k w, (length (m_data (pool w)) - k < gas)%nat ->
    exists w', Clear_loop invoke gas (N.of_nat k) w = Done w' /\
               pool w' = pool w /\
               calls w' = calls w ++ alive_hooks_from (pool w) k.
Proof.
  intros Hq. induction gas as [|g IH]; intros k w Hgas; [lia|].
  simpl. unfold data_size.
  destruct (N.ltb_spec (N.of_nat k) (N.of_nat (length (m_data (pool w)))))
    as [Hlt|Hge].
  - assert (Hk : (k < length (m_data (pool w)))%nat) by lia.
    rewrite (alive_hooks_from_step _ _ Hk). unfold alive_hook.
    assert (Hnext : forall w1, pool w1 = pool w ->
              (length (m_data (pool w1)) - S k < g)%nat)
      by (intros w1 ->; lia).
    rewrite <- Nat2N.inj_succ.
    destruct (alive_at (pool w) (N.of_nat k)).
    + destruct (cb_at (pool w) (N.of_nat k)) as [hk|].
      * unfold call_hook.
        destruct (Hq hk (mkWorld (pool w) (refs w)
                           (calls w ++ [(N.of_nat k, hk)])))
          as (w1 & -> & Hp1 & Hc1). simpl in Hp1, Hc1. simpl.
        destruct (IH (S k) w1 (Hnext _ Hp1)) as (w' & -> & Hp' & Hc').
        exists w'. split_and!; [reflexivity | congruence |].
        rewrite Hc', Hc1, Hp1, <- app_assoc. reflexivity.
      * simpl. destruct (IH (S k) w (Hnext _ eq_refl)) as (w' & -> & Hp' & Hc').
        eauto.
    + simpl. destruct (IH (S k) w (Hnext _ eq_refl)) as (w' & -> & Hp' & Hc').
      eauto.
  - rewrite alive_hooks_from_end by lia. rewrite app_nil_r. eauto.
Qed.

Lemma elem_of_alive_hooks_from p k i hk :
  (i, hk) ∈ alive_hooks_from p k <->
  (N.of_nat k <= i < data_size p /\ alive_at p i = true /\ cb_at p i = Some hk).
Proof.
  unfold alive_hooks_from. rewrite list_elem_of_omap. split.
  - intros (j & Hj & He). apply elem_of_seq in Hj.
    unfold alive_hook in He.
    destruct (alive_at p (N.of_nat j)) eqn:Ha; [|discriminate].
    destruct (cb_at p (N.of_nat j)) eqn:Hc; [|discriminate].
    injection He as <- <-. unfold data_size. split_and!; auto; lia.
  - intros (Hi & Ha & Hc). exists (N.to_nat i). split.
    + apply elem_of_seq. unfold data_size in Hi. lia.
    + unfold alive_hook. rewrite N2Nat.id, Ha, Hc. reflexivity.
Qed.

Lemma alive_hooks_from_sorted p k :
  StronglySorted N.lt (fst <$> alive_hooks_from p k) /\
  Forall (fun e => N.of_nat k <= fst e) (alive_hooks_from p k).
Proof.
  remember (length (m_data p) - k)%nat as n eqn:Hn.
  revert k Hn. induction n as [|n IH]; intros k Hn.
  - rewrite alive_hooks_from_end by lia. split; constructor.
  - rewrite alive_hooks_from_step by lia.
    destruct (IH (S k) ltac:(lia)) as [Hs Hf].
    assert (Hf' : Forall (fun e => N.of_nat k <= fst e) (alive_hooks_from p (S k))).
    { eapply Forall_impl; [exact Hf|]. simpl. intros e. lia. }
    unfold alive_hook.
    destruct (alive_at p (N.of_nat k)); [|auto].
    destruct (cb_at p (N.of_nat k)); [|auto].
    split.
    + simpl. constructor; [assumption|].
      apply Forall_fmap. eapply Forall_impl; [exact Hf|]. simpl. intros e. lia.
    + constructor; [simpl; lia | assumption].
Qed.


End Hook_facts.

Arguments hooks_quiet {T Hook}.

Section Removal_facts.

Context {T Hook : Type}.
Variable invoke : Hook -> World T Hook -> outcome (World T Hook).
Implicit Types (w : World T Hook) (p : Pool T Hook) (h : SlotHandle).

(** What [RemoveInternal] does once the callback, if any, is dealt
    with. *)
Definition retire_slot (i : N) p : Pool T Hook :=
  mkPool (m_data p)
         (<[N.to_nat i := incr32 (gen_at p i)]> (m_generations p))
         (<[N.to_nat i := false]> (m_alive p))
         (<[N.to_nat i := 0]> (m_refCounts p))
         (m_onDestroyCallbacks p)
         (m_freeList p ++ [i])
         (decr64 (m_count p)) (m_maxCapacity p).

(** What it does when the callback has returned: the callback is
    cleared, then the slot is retired. *)
Definition after_callback (i : N) w : World T Hook :=
  with_pool w
    (retire_slot i
       (set_callbacks (pool w)
          (<[N.to_nat i := None]> (m_onDestroyCallbacks (pool w))))).

Lemma RemoveInternal_with_hook h w hk :
  cb_at (pool w) (index h) = Some hk ->
  RemoveInternal invoke h w =
  do w1 <- invoke hk (mkWorld (pool w) (refs w) (calls w ++ [(index h, hk)]));
  Done (after_callback (index h) w1).
Proof.
  intros Hcb. unfold RemoveInternal, call_hook. rewrite Hcb.
  destruct (invoke hk _); reflexivity.
Qed.

Lemma RemoveInternal_without_hook h w :
  cb_at (pool w) (index h) = None ->
  RemoveInternal invoke h w = Done (with_pool w (retire_slot (index h) (pool w))).
Proof. intros Hcb. unfold RemoveInternal. rewrite Hcb. reflexivity. Qed.

Lemma retire_slot_wf i p : pool_wf p -> i < data_size p -> pool_wf (retire_slot i p).
Proof.
  intros [Hg Ha Hr Hc Hf] Hi. split; simpl; rewrite ?length_insert; auto.
  unfold data_size. simpl. apply Forall_app. split; [assumption|].
  constructor; [assumption | constructor].
Qed.

Lemma retire_slot_invalid i p h : index h = i -> ~ valid_handle (retire_slot i p) h.
Proof.
  intros <-. unfold valid_handle. intros (_ & Hal & _).
  unfold alive_at in Hal. simpl in Hal.
  rewrite lookup_default_insert in Hal.
  destruct (decide _) as [_|Hn]; [discriminate|].
  rewrite lookup_ge_None_2 in Hal; [discriminate|].
  destruct (decide (N.to_nat (index h) < length (m_alive p))%nat); [|lia].
  destruct Hn. now split.
Qed.

Lemma set_callbacks_wf p l :
  pool_wf p -> length l = length (m_onDestroyCallbacks p) ->
  pool_wf (set_callbacks p l).
Proof. intros [Hg Ha Hr Hc Hf] Hl. split; simpl; auto. congruence. Qed.

(** Removal with callbacks that do not re-enter the pool. *)
Lemma RemoveInternal_quiet h w :
  hooks_quiet invoke -> pool_wf (pool w) -> index h < data_size (pool w) ->
  exists w',
    RemoveInternal invoke h w = Done w' /\
    pool_wf (pool w') /\ ~ valid_handle (pool w') h /\
    cb_at (pool w') (index h) = None /\
    calls w' = calls w ++ match cb_at (pool w) (index h) with
                          | Some hk => [(index h, hk)]
                          | None => []
                          end.
Proof.
  intros Hq Hwf Hi.
  destruct (cb_at (pool w) (index h)) as [hk|] eqn:Hcb.
  - rewrite (RemoveInternal_with_hook _ _ _ Hcb).
    destruct (Hq hk (mkWorld (pool w) (refs w) (calls w ++ [(index h, hk)])))
      as (w1 & -> & Hp1 & Hc1). simpl in Hp1, Hc1. simpl.
    eexists. split; [reflexivity|]. unfold after_callback. simpl. rewrite Hp1.
    split_and!.
    + apply retire_slot_wf; [|exact Hi].
      apply set_callbacks_wf; [assumption | simpl; now rewrite length_insert].
    + now apply retire_slot_invalid.
    + unfold cb_at. simpl. rewrite lookup_default_insert.
      destruct (decide _) as [_|Hn]; [reflexivity|].
      unfold cb_at in Hcb. destruct Hwf as [_ _ _ Hc _]. unfold data_size in Hi.
      destruct Hn. split; [reflexivity | lia].
    + exact Hc1.
  - rewrite (RemoveInternal_without_hook _ _ Hcb).
    eexists. split; [reflexivity|]. simpl. split_and!.
    + now apply retire_slot_wf.
    + now apply retire_slot_invalid.
    + exact Hcb.
    + now rewrite app_nil_r.
Qed.

(** C9, as the code has it.  A removal by last-reference release runs
    the stored callback first, on the program state in which it is
    still stored and the slot is still alive with its generation, and
    clears it only when the callback has returned, before the slot is
    retired ([after_callback]).  With callbacks that do not re-enter the
    pool the removal invokes the callback exactly once, and the stored
    callback is cleared when the removal is over.  [Clear] invokes the
    callbacks of the alive slots without clearing any of them; they go
    with the storage when the loop is over. *)
Theorem hook_runs_before_it_is_cleared h w hk :
  cb_at (pool w) (index h) = Some hk ->
  (exists w_in,
     pool w_in = pool w /\ refs w_in = refs w /\
     calls w_in = calls w ++ [(index h, hk)] /\
     cb_at (pool w_in) (index h) = Some hk /\
     alive_at (pool w_in) (index h) = alive_at (pool w) (index h) /\
     gen_at (pool w_in) (index h) = gen_at (pool w) (index h) /\
     RemoveInternal invoke h w =
       do w1 <- invoke hk w_in; Done (after_callback (index h) w1)) /\
  (hooks_quiet invoke -> pool_wf (pool w) -> index h < data_size (pool w) ->
     exists w', RemoveInternal invoke h w = Done w' /\
                calls w' = calls w ++ [(index h, hk)] /\
                cb_at (pool w') (index h) = None /\
                alive_at (pool w') (index h) = false) /\
  (hooks_quiet invoke ->
     forall gas, (length (m_data (pool w)) < gas)%nat ->
     exists w1, Clear_loop invoke gas 0 w = Done w1 /\
                pool w1 = pool w /\
                cb_at (pool w1) (index h) = Some hk /\
                calls w1 = calls w ++ alive_hooks (pool w)).
Proof.
  intros Hcb. split_and!.
  - exists (mkWorld (pool w) (refs w) (calls w ++ [(index h, hk)])).
    simpl. split_and!; auto. now apply RemoveInternal_with_hook.
  - intros Hq Hwf Hi.
    destruct (RemoveInternal_quiet h w Hq Hwf Hi) as (w' & Hr & _ & Hnv & Hc & Hl).
    rewrite Hcb in Hl. exists w'. split_and!; auto.
    rewrite (RemoveInternal_with_hook _ _ _ Hcb) in Hr.
    destruct (Hq hk (mkWorld (pool w) (refs w) (calls w ++ [(index h, hk)])))
      as (w1 & Hw1 & Hp1 & _). rewrite Hw1 in Hr. simpl in Hr.
    injection Hr as <-. unfold alive_at. simpl.
    rewrite lookup_default_insert. destruct (decide _) as [_|Hn]; [reflexivity|].
    destruct Hn. split; [reflexivity|]. rewrite Hp1. simpl.
    destruct Hwf as [_ Ha _ _ _]. unfold data_size in Hi. lia.
  - intros Hq gas Hgas.
    destruct (Clear_loop_quiet invoke Hq gas 0 w ltac:(lia)) as (w1 & Hrun & Hp & Hc).
    exists w1. split_and!; auto. now rewrite Hp.
Qed.

End Removal_facts.

Arguments retire_slot {T Hook}.
Arguments after_callback {T Hook}.

(** ** C3: reference-count accounting *)

Section Accounting.

Context {T Hook : Type}.
Variable invoke : Hook -> World T Hook -> outcome (World T Hook).
Implicit Types (w : World T Hook) (p : Pool T Hook) (h : SlotHandle).
Implicit Types (S : gset nat) (ops : list (Op T Hook)).

(** The objects that hold a reference to one element, followed through
    a sequence of copies and drops: a copy is constructed at a fresh
    address from one of the holders, a drop resets or destroys one of
    the holders.  [None] when the sequence is not of that form. *)
Fixpoint owners_after S ops : option (gset nat) :=
  match ops with
  | [] => Some S
  | OCopyConstruct dst src :: rest =>
      if decide (src ∈ S /\ dst ∉ S) then owners_after ({[dst]} ∪ S) rest
      else None
  | OReset x :: rest | ODestroy x :: rest =>
      if decide (x ∈ S) then owners_after (S ∖ {[x]}) rest else None
  | _ => None
  end.

Fixpoint copies ops : nat :=
  match ops with
  | [] => O
  | OCopyConstruct _ _ :: rest => Datatypes.S (copies rest)
  | _ :: rest => copies rest
  end.

Fixpoint drops ops : nat :=
  match ops with
  | [] => O
  | OReset _ :: rest | ODestroy _ :: rest => Datatypes.S (drops rest)
  | _ :: rest => drops rest
  end.

Lemma set_refCounts_valid_handle p l h :
  valid_handle (set_refCounts p l) h <-> valid_handle p h.
Proof. reflexivity. Qed.

Lemma set_refCounts_wf p l :
  pool_wf p -> length l = length (m_refCounts p) -> pool_wf (set_refCounts p l).
Proof. intros [Hg Ha Hr Hc Hf] Hl. split; simpl; auto. congruence. Qed.

(** Releasing one of [c] counted references. *)
Lemma ReleaseRef_counted h w c :
  hooks_quiet invoke -> pool_wf (pool w) -> valid_handle (pool w) h ->
  rc_at (pool w) (index h) = c -> 0 < c <= UINT32_MAX ->
  exists w',
    ReleaseRef invoke h w = Done w' /\ pool_wf (pool w') /\
    (1 < c -> refs w' = refs w /\ calls w' = calls w /\
              valid_handle (pool w') h /\
              rc_at (pool w') (index h) = c - 1) /\
    (c = 1 -> ~ valid_handle (pool w') h).
Proof.
  intros Hq Hwf Hv Hrc Hc. unfold ReleaseRef.
  pose proof (valid_handle_in_range _ _ Hv) as Hr.
  pose proof Hv as Hb. apply IsValidHandle_true in Hb. rewrite Hb, Hrc.
  destruct (N.eqb_spec c 0) as [?|_]; [lia|].
  set (p1 := set_refCounts (pool w) _).
  assert (Hwf1 : pool_wf p1)
    by (apply set_refCounts_wf; [assumption | now rewrite length_insert]).
  assert (Hrc1 : rc_at p1 (index h) = c - 1).
  { unfold rc_at, p1. simpl. rewrite list_lookup_insert_eq.
    - simpl. apply decr32_pos; lia.
    - rewrite (wf_refCounts _ Hwf). exact Hr. }
  change (pool (with_pool w p1)) with p1. rewrite Hrc1.
  destruct (N.eqb_spec (c - 1) 0) as [Hz|Hnz].
  - destruct (RemoveInternal_quiet invoke h (with_pool w p1) Hq Hwf1)
      as (w' & Hrun & Hwf' & Hnv & _).
    { destruct Hv as (Hi & _). exact Hi. }
    exists w'. split_and!; [assumption | assumption | | auto].
    intros ?. exfalso. lia.
  - exists (with_pool w p1).
    split_and!; [reflexivity | assumption | | intros ?; exfalso; lia].
    intros _. split_and!; auto.
Qed.

(** Releasing through a bound, valid [SlotRef]. *)
Lemma Release_counted h w c :
  hooks_quiet invoke -> pool_wf (pool w) -> valid_handle (pool w) h ->
  rc_at (pool w) (index h) = c -> 0 < c <= UINT32_MAX ->
  exists w',
    Release invoke (mkRef h ThePool) w = Done w' /\ pool_wf (pool w') /\
    (1 < c -> refs w' = refs w /\ calls w' = calls w /\
              valid_handle (pool w') h /\
              rc_at (pool w') (index h) = c - 1) /\
    (c = 1 -> ~ valid_handle (pool w') h).
Proof.
  intros Hq Hwf Hv Hrc Hc. unfold Release, SlotRef_IsValid. simpl.
  pose proof Hv as Hb. apply IsValidHandle_true in Hb. rewrite Hb.
  now apply ReleaseRef_counted.
Qed.

(** The state of the accounting: every holder in [S] is bound to [h];
    while there is a holder the handle is valid and the reference count
    of its slot is the number of holders; with no holder left the
    handle is invalid. *)
Definition counted h S w : Prop :=
  pool_wf (pool w) /\
  (forall y, y ∈ S -> refs w !! y = Some (mkRef h ThePool)) /\
  (S <> ∅ -> valid_handle (pool w) h /\
             rc_at (pool w) (index h) = N.of_nat (size S)) /\
  (S = ∅ -> ~ valid_handle (pool w) h).

Lemma counted_drop h S w x (finish : World T Hook -> World T Hook) :
  hooks_quiet invoke -> counted h S w -> x ∈ S ->
  N.of_nat (size S) <= UINT32_MAX ->
  (forall w1, pool (finish w1) = pool w1) ->
  (forall w1 y, y <> x -> refs (finish w1) !! y = refs w1 !! y) ->
  exists w',
    (do w1 <- Release invoke (mkRef h ThePool) w; Done (finish w1)) = Done w' /\
    counted h (S ∖ {[x]}) w'.
Proof.
  intros Hq (Hwf & Hrefs & Hne & _) Hx Hbound Hfp Hfr.
  assert (HS : S <> ∅) by set_solver.
  destruct (Hne HS) as [Hv Hrc].
  assert (Hsz : size S = Datatypes.S (size (S ∖ {[x]}))).
  { rewrite (union_difference_L {[x]} S) at 1 by set_solver.
    rewrite size_union by set_solver. now rewrite size_singleton. }
  destruct (Release_counted h w _ Hq Hwf Hv Hrc ltac:(lia))
    as (w1 & -> & Hwf1 & Hmany & Hlast).
  simpl. eexists. split; [reflexivity|].
  unfold counted. rewrite Hfp.
  destruct (decide (size (S ∖ {[x]}) = O)) as [Hz|Hnz].
  - apply size_empty_inv in Hz. apply leibniz_equiv in Hz. rewrite Hz.
    split_and!; auto.
    + intros y Hy. set_solver.
    + intros Hc. now destruct Hc.
    + intros _. apply Hlast. rewrite Hsz, Hz, size_empty. reflexivity.
  - destruct (Hmany ltac:(lia)) as (Hr1 & _ & Hv1 & Hrc1).
    split_and!; auto.
    + intros y Hy. rewrite Hfr by set_solver. rewrite Hr1. apply Hrefs. set_solver.
    + intros _. split; [assumption|]. rewrite Hrc1. lia.
    + intros He. rewrite He, size_empty in Hnz. now destruct Hnz.
Qed.

Lemma counted_run gas h ops : forall S w S',
  hooks_quiet invoke -> counted h S w ->
  owners_after S ops = Some S' ->
  N.of_nat (size S + copies ops) <= UINT32_MAX ->
  exists w',
    run invoke gas ops w = Done w' /\ counted h S' w' /\
    (size S' + drops ops = size S + copies ops)%nat.
Proof.
  induction ops as [|op rest IH]; intros S w S' Hq Hcnt Hown Hbound.
  - injection Hown as <-. exists w. simpl. split_and!; auto.
  - destruct op; simpl in Hown; try discriminate.
    + (* copy construction *)
      destruct (decide _) as [[Hsrc Hdst]|]; [|discriminate].
      destruct Hcnt as (Hwf & Hrefs & Hne & _).
      assert (HS : S <> ∅) by set_solver.
      destruct (Hne HS) as [Hv Hrc].
      assert (Hsz : size ({[dst]} ∪ S) = Datatypes.S (size S)).
      { rewrite size_union by set_solver. now rewrite size_singleton. }
      simpl in Hbound.
      destruct (IH ({[dst]} ∪ S) (copy_construct dst src w) S' Hq)
        as (w' & Hrun & Hcnt' & Hsize); [| assumption | lia |].
      * rewrite (copy_construct_spec _ _ _ _ (Hrefs _ Hsrc)).
        rewrite acquire_valid
          by (apply SlotRef_IsValid_true; split; [reflexivity | exact Hv]).
        unfold counted. simpl. split_and!.
        -- now apply AddRef_wf.
        -- intros y Hy. destruct (decide (y = dst)) as [->|Hyd].
           ++ apply lookup_insert_eq.
           ++ rewrite lookup_insert_ne by congruence. apply Hrefs. set_solver.
        -- intros _. split; [now apply AddRef_valid_handle|].
           rewrite AddRef_rc_at by assumption.
           destruct (decide _) as [_|Hn]; [| now destruct Hn].
           rewrite Hrc, Hsz. rewrite incr32_small; lia.
        -- intros He. set_solver.
      * exists w'. simpl. split_and!; auto. simpl. lia.
    + (* reset *)
      destruct (decide _) as [Hx|]; [|discriminate].
      simpl in Hbound.
      destruct (counted_drop h S w x (fun w1 => with_ref w1 x SlotRef_empty)
                  Hq Hcnt Hx ltac:(lia))
        as (w1 & Hrun1 & Hcnt1).
      { reflexivity. }
      { intros w1 y Hy. simpl. now rewrite lookup_insert_ne by congruence. }
      assert (Hsz : size S = Datatypes.S (size (S ∖ {[x]}))).
      { rewrite (union_difference_L {[x]} S) at 1 by set_solver.
        rewrite size_union by set_solver. now rewrite size_singleton. }
      destruct (IH (S ∖ {[x]}) w1 S' Hq Hcnt1 Hown ltac:(lia))
        as (w' & Hrun & Hcnt' & Hsize).
      exists w'. simpl. unfold Reset.
      destruct Hcnt as (_ & Hrefs & _). rewrite (Hrefs _ Hx), Hrun1. simpl.
      split_and!; auto. lia.
    + (* destruction *)
      destruct (decide _) as [Hx|]; [|discriminate].
      simpl in Hbound.
      destruct (counted_drop h S w x (fun w1 => without_ref w1 x)
                  Hq Hcnt Hx ltac:(lia))
        as (w1 & Hrun1 & Hcnt1).
      { reflexivity. }
      { intros w1 y Hy. simpl. now rewrite lookup_delete_ne by congruence. }
      assert (Hsz : size S = Datatypes.S (size (S ∖ {[x]}))).
      { rewrite (union_difference_L {[x]} S) at 1 by set_solver.
        rewrite size_union by set_solver. now rewrite size_singleton. }
      destruct (IH (S ∖ {[x]}) w1 S' Hq Hcnt1 Hown ltac:(lia))
        as (w' & Hrun & Hcnt' & Hsize).
      exists w'. simpl. unfold destroy.
      destruct Hcnt as (_ & Hrefs & _). rewrite (Hrefs _ Hx), Hrun1. simpl.
      split_and!; auto. lia.
Qed.

End Accounting.

Section Accounting_from_Create.

Context {T Hook : Type}.
Variable invoke : Hook -> World T Hook -> outcome (World T Hook).
Implicit Types (w : World T Hook) (p : Pool T Hook) (h : SlotHandle).
Implicit Types (S : gset nat) (ops : list (Op T Hook)).

Lemma SetOnDestroyCallback_wf p h cb :
  pool_wf p -> pool_wf (SetOnDestroyCallback p h cb).
Proof.
  intros Hwf. unfold SetOnDestroyCallback.
  destruct (IsValidHandle p h); [|assumption].
  apply set_callbacks_wf; [assumption | now rewrite length_insert].
Qed.

Lemma SetOnDestroyCallback_frame p h cb :
  (forall h', valid_handle (SetOnDestroyCallback p h cb) h' <-> valid_handle p h') /\
  (forall i, rc_at (SetOnDestroyCallback p h cb) i = rc_at p i).
Proof.
  unfold SetOnDestroyCallback. destruct (IsValidHandle p h); split; reflexivity.
Qed.

(** The state right after [Create], with or without a callback set
    through the new reference: one holder, counted. *)
Lemma counted_after_Create w0 x0 obj cb :
  pool_wf (pool w0) -> data_size (pool w0) < 4294967296 ->
  CanCreate (pool w0) = true ->
  exists h, counted h {[x0]} (SetOnDestroy x0 cb (create_at x0 obj w0)).
Proof.
  intros Hwf Hsz Hcan. unfold create_at.
  destruct (Create obj (pool w0)) as [r p1] eqn:Hcr.
  destruct (Create_ok _ _ _ _ Hwf Hsz Hcan Hcr)
    as (Hwf1 & Hslot & Hv & Huse & _).
  destruct r as [h sl]. simpl in Hslot. subst sl. exists h.
  unfold SetOnDestroy. simpl. rewrite lookup_insert_eq. rewrite Hv.
  destruct (SetOnDestroyCallback_frame p1 h cb) as [Hfv Hfr].
  unfold counted. split_and!.
  - simpl. now apply SetOnDestroyCallback_wf.
  - intros y Hy. apply elem_of_singleton in Hy as ->. apply lookup_insert_eq.
  - intros _. rewrite size_singleton. simpl. split.
    + apply Hfv. apply SlotRef_IsValid_true in Hv. apply Hv.
    + rewrite Hfr.
      unfold UseCount, GetRefCount in Huse. rewrite Hv in Huse. simpl in Huse.
      unfold SlotRef_IsValid in Hv. simpl in Hv. rewrite Hv in Huse. exact Huse.
  - intros He. destruct (non_empty_singleton_L (C:=gset nat) x0 He).
Qed.

(** C3. An element is created through [Create] into the object at
    [x0], with or without a destroy callback, and then copied and
    dropped: [ops] is any sequence in which each copy is constructed at
    a fresh address from an object that holds the reference, and each
    drop resets or destroys an object that holds it.  With [n] the
    number of copies made, the one from [Create] included, and [k] the
    number dropped, the run completes and each remaining holder reads
    [UseCount() = n - k]; when the last one has been dropped the handle
    they shared is invalid.  The count [n] fits the 32-bit counter, and
    the callback does not re-enter the pool. *)
Theorem UseCount_is_copies_minus_drops gas w0 x0 obj cb ops S' :
  hooks_quiet invoke ->
  pool_wf (pool w0) -> data_size (pool w0) < 4294967296 ->
  CanCreate (pool w0) = true ->
  owners_after {[x0]} ops = Some S' ->
  N.of_nat (1 + copies ops) <= UINT32_MAX ->
  let w1 := SetOnDestroy x0 cb (create_at x0 obj w0) in
  exists h w',
    refs w1 !! x0 = Some (mkRef h ThePool) /\
    UseCount (pool w1) (mkRef h ThePool) = 1 /\
    run invoke gas ops w1 = Done w' /\
    (drops ops <= 1 + copies ops)%nat /\
    size S' = (1 + copies ops - drops ops)%nat /\
    (forall y, y ∈ S' ->
       exists r, refs w' !! y = Some r /\ GetHandle r = h /\
                 UseCount (pool w') r = N.of_nat (1 + copies ops - drops ops)) /\
    (drops ops = (1 + copies ops)%nat ->
       S' = ∅ /\ IsValidHandle (pool w') h = false).
Proof.
  intros Hq Hwf Hsz Hcan Hown Hbound w1.
  destruct (counted_after_Create w0 x0 obj cb Hwf Hsz Hcan) as [h Hcnt].
  fold w1 in Hcnt.
  assert (Huse : forall S w, counted h S w -> S <> ∅ ->
            UseCount (pool w) (mkRef h ThePool) = N.of_nat (size S)).
  { intros S w (_ & _ & Hne & _) HS. destruct (Hne HS) as [Hv Hrc].
    apply IsValidHandle_true in Hv.
    unfold UseCount, GetRefCount, SlotRef_IsValid. simpl. now rewrite Hv. }
  destruct (counted_run invoke gas h ops {[x0]} w1 S' Hq Hcnt Hown)
    as (w' & Hrun & Hcnt' & Hsize).
  { rewrite size_singleton. exact Hbound. }
  rewrite size_singleton in Hsize.
  exists h, w'. split_and!.
  - destruct Hcnt as (_ & Hrefs & _). apply Hrefs. set_solver.
  - rewrite (Huse _ _ Hcnt), size_singleton; [reflexivity|].
    apply non_empty_singleton_L.
  - exact Hrun.
  - lia.
  - lia.
  - intros y Hy. exists (mkRef h ThePool). split_and!.
    + destruct Hcnt' as (_ & Hrefs & _). now apply Hrefs.
    + reflexivity.
    + rewrite (Huse _ _ Hcnt') by set_solver. f_equal. lia.
  - intros Hk. assert (HS : S' = ∅).
    { apply leibniz_equiv, size_empty_inv. lia. }
    split; [exact HS|]. apply IsValidHandle_false.
    destruct Hcnt' as (_ & _ & _ & Hinv). now apply Hinv.
Qed.

End Accounting_from_Create.

Arguments owners_after {T Hook}.
Arguments copies {T Hook}.
Arguments drops {T Hook}.

(** ** C2: a stale handle stays invalid while the storage is kept *)

Section Generation_facts.

Context {T Hook : Type}.
Variable invoke : Hook -> World T Hook -> outcome (World T Hook).
Implicit Types (w : World T Hook) (p : Pool T Hook) (h : SlotHandle).
Implicit Types (ops : list (Op T Hook)).

(** Callbacks that, when they return, have left the pool as it was. *)
Definition hooks_keep_pool : Prop :=
  forall hk w w', invoke hk w = Done w' -> pool w' = pool w.

(** The operations that keep the vectors of the pool: all but [Clear]
    and [ShrinkToFit]. *)
Definition keeps_storage (op : Op T Hook) : bool :=
  match op with
  | OClear | OShrinkToFit => false
  | _ => true
  end.

(** From [p] to [p'] the generation stored for slot [i] stays or goes up
    by one. *)
Definition gen_step (i : N) p p' : Prop :=
  forall g, m_generations p !! N.to_nat i = Some g -> g < UINT32_MAX ->
    exists g', m_generations p' !! N.to_nat i = Some g' /\ g <= g' <= g + 1.

Lemma gen_step_same i p p' :
  m_generations p' = m_generations p -> gen_step i p p'.
Proof. intros He g Hg _. exists g. rewrite He. split; [assumption | lia]. Qed.

Lemma AddRef_gen_step i p h : gen_step i p (AddRef p h).
Proof. apply gen_step_same. apply AddRef_frame. Qed.

Lemma acquire_gen_step i p r : gen_step i p (acquire p r).
Proof.
  unfold acquire. destruct (SlotRef_IsValid p r);
    [apply AddRef_gen_step | now apply gen_step_same].
Qed.

Lemma acquire_generations p r :
  m_generations (acquire p r) = m_generations p.
Proof.
  unfold acquire. destruct (SlotRef_IsValid p r); [apply AddRef_frame | reflexivity].
Qed.

Lemma gen_step_trans_same i p p' p'' :
  gen_step i p p' -> m_generations p'' = m_generations p' -> gen_step i p p''.
Proof. intros H He g Hg Hb. rewrite He. now apply H. Qed.

Lemma same_gen_step_trans i p p' p'' :
  m_generations p' = m_generations p -> gen_step i p' p'' -> gen_step i p p''.
Proof. intros He H g Hg Hb. apply H; [now rewrite He | assumption]. Qed.

Lemma Create_gen_step i obj p r p' :
  Create obj p = (r, p') -> gen_step i p p'.
Proof.
  unfold Create. destruct (CanCreate p); simpl.
  - destruct (AllocateSlot obj p) as [h p1] eqn:Hal. intros [= <- <-].
    eapply gen_step_trans_same; [|apply AddRef_frame].
    unfold AllocateSlot in Hal.
    destruct (m_freeList p); injection Hal as <- <-.
    + intros g Hg _. exists g. simpl. split; [|lia].
      now apply lookup_app_l_Some.
    + now apply gen_step_same.
  - intros [= <- <-]. now apply gen_step_same.
Qed.

Lemma RemoveInternal_generations h w w' :
  hooks_keep_pool -> RemoveInternal invoke h w = Done w' ->
  m_generations (pool w') =
  <[N.to_nat (index h) := incr32 (gen_at (pool w) (index h))]>
    (m_generations (pool w)).
Proof.
  intros Hk. destruct (cb_at (pool w) (index h)) as [hk|] eqn:Hcb.
  - rewrite (RemoveInternal_with_hook _ _ _ _ Hcb).
    destruct (invoke hk _) as [w1| |] eqn:Hi; simpl; try discriminate.
    apply Hk in Hi. simpl in Hi. intros [= <-]. simpl.
    unfold gen_at. simpl. now rewrite Hi.
  - rewrite (RemoveInternal_without_hook _ _ _ Hcb). now intros [= <-].
Qed.

Lemma insert_incr_gen_step i j p p' :
  m_generations p' = <[N.to_nat j := incr32 (gen_at p j)]> (m_generations p) ->
  gen_step i p p'.
Proof.
  intros He g Hg Hb. rewrite He.
  destruct (decide (N.to_nat j = N.to_nat i)) as [Hji|Hne].
  - exists (g + 1). split; [|lia]. rewrite Hji.
    rewrite list_lookup_insert_eq by (now apply lookup_lt_Some in Hg).
    apply N2Nat.inj in Hji. subst j. unfold gen_at. rewrite Hg. simpl.
    now rewrite incr32_small.
  - exists g. split; [|lia]. now rewrite list_lookup_insert_ne.
Qed.

Lemma ReleaseRef_gen_step i h w w' :
  hooks_keep_pool -> ReleaseRef invoke h w = Done w' ->
  gen_step i (pool w) (pool w').
Proof.
  intros Hk. unfold ReleaseRef.
  destruct (IsValidHandle (pool w) h); [|intros [= <-]; now apply gen_step_same].
  destruct (rc_at (pool w) (index h) =? 0); [discriminate|].
  set (w1 := with_pool w _).
  destruct (rc_at (pool w1) (index h) =? 0).
  - intros Hr. apply (RemoveInternal_generations _ _ _ Hk) in Hr.
    apply (insert_incr_gen_step i (index h)). exact Hr.
  - intros [= <-]. now apply gen_step_same.
Qed.

Lemma Release_gen_step i r w w' :
  hooks_keep_pool -> Release invoke r w = Done w' ->
  gen_step i (pool w) (pool w').
Proof.
  intros Hk. unfold Release. destruct (SlotRef_IsValid (pool w) r).
  - now apply ReleaseRef_gen_step.
  - intros [= <-]. now apply gen_step_same.
Qed.

Lemma step_gen_step i gas op w w' :
  hooks_keep_pool -> keeps_storage op = true ->
  step invoke gas op w = Done w' -> gen_step i (pool w) (pool w').
Proof.
  intros Hk Hop. destruct op; simpl in Hop; try discriminate; simpl.
  - (* Create *)
    intros [= <-]. unfold create_at.
    destruct (Create obj (pool w)) as [r p1] eqn:Hc. simpl.
    eapply Create_gen_step, Hc.
  - (* copy construction *)
    intros [= <-]. unfold copy_construct.
    destruct (refs w !! src); [|now apply gen_step_same].
    simpl. apply acquire_gen_step.
  - (* move construction *)
    intros [= <-]. unfold move_construct.
    destruct (refs w !! src); now apply gen_step_same.
  - (* copy assignment *)
    unfold copy_assign. destruct (dst =? src)%nat;
      [intros [= <-]; now apply gen_step_same|].
    destruct (refs w !! dst) as [this|]; [|intros [= <-]; now apply gen_step_same].
    destruct (Release invoke this w) as [w1| |] eqn:Hr; simpl; try discriminate.
    pose proof (Release_gen_step i _ _ _ Hk Hr) as H1.
    destruct (refs w1 !! src); [|intros [= <-]; exact H1].
    intros [= <-]. simpl.
    eapply gen_step_trans_same; [exact H1 | apply acquire_generations].
  - (* move assignment *)
    unfold move_assign. destruct (dst =? src)%nat;
      [intros [= <-]; now apply gen_step_same|].
    destruct (refs w !! dst) as [this|]; [|intros [= <-]; now apply gen_step_same].
    destruct (Release invoke this w) as [w1| |] eqn:Hr; simpl; try discriminate.
    pose proof (Release_gen_step i _ _ _ Hk Hr) as H1.
    destruct (refs w1 !! src); intros [= <-]; exact H1.
  - (* move to a temporary *)
    unfold move_to_temporary.
    destruct (refs w !! x) as [other|]; [|intros [= <-]; now apply gen_step_same].
    intros Hr. apply (Release_gen_step i _ _ _ Hk) in Hr. exact Hr.
  - (* Reset *)
    unfold Reset.
    destruct (refs w !! x) as [this|]; [|intros [= <-]; now apply gen_step_same].
    destruct (Release invoke this w) as [w1| |] eqn:Hr; simpl; try discriminate.
    intros [= <-]. exact (Release_gen_step i _ _ _ Hk Hr).
  - (* destruction *)
    unfold destroy.
    destruct (refs w !! x) as [this|]; [|intros [= <-]; now apply gen_step_same].
    destruct (Release invoke this w) as [w1| |] eqn:Hr; simpl; try discriminate.
    intros [= <-]. exact (Release_gen_step i _ _ _ Hk Hr).
  - (* SetOnDestroy *)
    intros [= <-]. unfold SetOnDestroy.
    destruct (refs w !! x) as [this|]; [|now apply gen_step_same].
    destruct (SlotRef_IsValid (pool w) this); [|now apply gen_step_same].
    simpl. apply gen_step_same. unfold SetOnDestroyCallback.
    now destruct (IsValidHandle _ _).
  - (* ClearOnDestroy *)
    intros [= <-]. unfold ClearOnDestroy.
    destruct (refs w !! x) as [this|]; [|now apply gen_step_same].
    destruct (SlotRef_IsValid (pool w) this); [|now apply gen_step_same].
    simpl. apply gen_step_same. unfold ClearOnDestroyCallback.
    now destruct (IsValidHandle _ _).
  - intros [= <-]. now apply gen_step_same.
  - intros [= <-]. now apply gen_step_same.
Qed.

(** Over a run that keeps the storage the generation of a slot goes up
    by at most one per operation. *)
Lemma run_generation i gas ops : forall w w' g,
  hooks_keep_pool -> forallb keeps_storage ops = true ->
  run invoke gas ops w = Done w' ->
  m_generations (pool w) !! N.to_nat i = Some g ->
  g + N.of_nat (length ops) <= UINT32_MAX ->
  exists g', m_generations (pool w') !! N.to_nat i = Some g' /\
             g <= g' <= g + N.of_nat (length ops).
Proof.
  induction ops as [|op rest IH]; intros w w' g Hk Hops Hrun Hg Hb.
  - injection Hrun as <-. exists g. split; [assumption | simpl; lia].
  - simpl in Hops. apply andb_prop in Hops as [Hop Hrest]. simpl in Hrun.
    destruct (step invoke gas op w) as [w1| |] eqn:Hs; simpl in Hrun;
      try discriminate.
    simpl length in Hb.
    destruct (step_gen_step i _ _ _ _ Hk Hop Hs g Hg ltac:(lia))
      as (g1 & Hg1 & Hle1).
    destruct (IH w1 w' g1 Hk Hrest Hrun Hg1 ltac:(lia)) as (g' & Hg' & Hle').
    exists g'. split; [assumption|]. simpl length. lia.
Qed.

End Generation_facts.

Arguments hooks_keep_pool {T Hook}.
Arguments keeps_storage {T Hook}.

Section Stale_handles.

Context {T Hook : Type}.
Variable invoke : Hook -> World T Hook -> outcome (World T Hook).
Implicit Types (w : World T Hook) (p : Pool T Hook) (h : SlotHandle).
Implicit Types (ops : list (Op T Hook)).

Lemma generation_mismatch p h g :
  m_generations p !! N.to_nat (index h) = Some g -> g <> generation h ->
  IsValidHandle p h = false.
Proof.
  intros Hg Hne. apply IsValidHandle_false. intros (_ & _ & He).
  unfold gen_at in He. rewrite Hg in He. simpl in He. congruence.
Qed.

(** The release of the only reference to a slot stores its generation
    plus one. *)
Lemma Release_last_generation h w w' :
  hooks_keep_pool invoke -> pool_wf (pool w) -> valid_handle (pool w) h ->
  rc_at (pool w) (index h) = 1 -> generation h < UINT32_MAX ->
  Release invoke (mkRef h ThePool) w = Done w' ->
  m_generations (pool w') !! N.to_nat (index h) = Some (generation h + 1).
Proof.
  intros Hk Hwf Hv Hrc Hb. unfold Release, SlotRef_IsValid, ReleaseRef. simpl.
  pose proof (valid_handle_in_range _ _ Hv) as Hr.
  pose proof Hv as Hvb. apply IsValidHandle_true in Hvb. rewrite Hvb, Hrc. simpl.
  set (p1 := set_refCounts (pool w) _).
  assert (Hrc1 : rc_at p1 (index h) = 0).
  { unfold rc_at, p1. simpl. rewrite list_lookup_insert_eq; [reflexivity|].
    rewrite (wf_refCounts _ Hwf). exact Hr. }
  rewrite Hrc1. simpl. intros Hrm.
  rewrite (RemoveInternal_generations _ _ _ _ Hk Hrm). simpl.
  rewrite list_lookup_insert_eq by (rewrite (wf_generations _ Hwf); exact Hr).
  destruct Hv as (_ & _ & Hg). change (gen_at p1 (index h)) with (gen_at (pool w) (index h)).
  rewrite Hg. now rewrite incr32_small.
Qed.


End Stale_handles.

(** ** C5: upgrading a weak reference *)

Section Weak_facts.

Context {T Hook : Type}.
Implicit Types (p : Pool T Hook) (h : SlotHandle) (wk : WeakSlotRef).

(** C5. [upgrade] returns a reference exactly when the pool pointer of
    the weak reference is non-null and its handle is valid.  The
    reference returned is bound to that pool and handle and is valid,
    the reference count of the slot has gone up by one (as a 32-bit
    counter; by one exactly below [UINT32_MAX]) and no other count has
    changed.  In every other case nothing is returned and the pool is
    unchanged.  In particular a weak reference whose generation is
    below the one now stored for its index, as after a removal followed
    by reuse of the slot, is not upgraded. *)
Theorem upgrade_iff_valid wk p :
  pool_wf p ->
  ((wk_slot wk = ThePool /\ valid_handle p (wk_handle wk)) <->
     exists r p', upgrade wk p = (Some r, p')) /\
  (wk_slot wk = ThePool -> valid_handle p (wk_handle wk) ->
     exists p',
       upgrade wk p = (Some (mkRef (wk_handle wk) ThePool), p') /\
       SlotRef_IsValid p' (mkRef (wk_handle wk) ThePool) = true /\
       rc_at p' (index (wk_handle wk)) = incr32 (rc_at p (index (wk_handle wk))) /\
       (rc_at p (index (wk_handle wk)) < UINT32_MAX ->
          GetRefCount p' (wk_handle wk) = GetRefCount p (wk_handle wk) + 1) /\
       (forall i, i <> index (wk_handle wk) -> rc_at p' i = rc_at p i)) /\
  (~ (wk_slot wk = ThePool /\ valid_handle p (wk_handle wk)) ->
     upgrade wk p = (None, p)) /\
  (generation (wk_handle wk) < gen_at p (index (wk_handle wk)) ->
     upgrade wk p = (None, p)).
Proof.
  intros Hwf.
  assert (Hnone : ~ (wk_slot wk = ThePool /\ valid_handle p (wk_handle wk)) ->
                  upgrade wk p = (None, p)).
  { intros Hn. unfold upgrade. destruct (wk_slot wk); [reflexivity|].
    destruct (IsValidHandle p (wk_handle wk)) eqn:Hv; [|reflexivity].
    apply IsValidHandle_true in Hv. destruct Hn. now split. }
  split_and!.
  - split.
    + intros [Hs Hv]. unfold upgrade. rewrite Hs.
      apply IsValidHandle_true in Hv. rewrite Hv. eauto.
    + intros (r & p' & Hu).
      unfold upgrade in Hu. destruct (wk_slot wk); [discriminate|].
      split; [reflexivity|]. apply IsValidHandle_true.
      destruct (IsValidHandle p (wk_handle wk)); [reflexivity | discriminate].
  - intros Hs Hv. exists (AddRef p (wk_handle wk)).
    pose proof Hv as Hvb. apply IsValidHandle_true in Hvb.
    assert (Hrc : rc_at (AddRef p (wk_handle wk)) (index (wk_handle wk)) =
                  incr32 (rc_at p (index (wk_handle wk)))).
    { rewrite AddRef_rc_at by assumption.
      destruct (decide _) as [_|Hn]; [reflexivity | now destruct Hn]. }
    split_and!.
    + unfold upgrade. now rewrite Hs, Hvb.
    + unfold SlotRef_IsValid. simpl. now rewrite AddRef_IsValidHandle.
    + exact Hrc.
    + intros Hlt. unfold GetRefCount.
      rewrite AddRef_IsValidHandle, Hvb. simpl. rewrite Hrc.
      now apply incr32_small.
    + intros i Hi. rewrite AddRef_rc_at by assumption.
      destruct (decide _) as [[_ ?]|_]; [contradiction | reflexivity].
  - exact Hnone.
  - intros Hlt. apply Hnone. intros [_ (_ & _ & Hg)]. lia.
Qed.

End Weak_facts.

(** * Concrete runs *)

(** Worlds of [nat] elements whose callbacks are numbered and only
    produce output. *)
Definition quiet_world : Type := World nat nat.

Definition quiet : nat -> quiet_world -> outcome quiet_world := invoke_quiet.

Lemma quiet_hooks_quiet : hooks_quiet quiet.
Proof. intros hk w. exists w. repeat split. Qed.

Lemma quiet_hooks_keep_pool : hooks_keep_pool quiet.
Proof. intros hk w w' [= <-]. reflexivity. Qed.

(** One element, created into the object at address 0. *)
Definition one_element : quiet_world := create_at 0 7%nat World_new.

Lemma Get_iff_valid_witness :
  valid_handle (pool one_element) (mkHandle 0 0) /\
  Get (pool one_element) (mkHandle 0 0) = Some 7%nat /\
  Get (pool one_element) (mkHandle 0 1) = None /\
  Get (pool one_element) (mkHandle 1 0) = None.
Proof.
  assert (Hv : valid_handle (pool one_element) (mkHandle 0 0))
    by (repeat split).
  split_and!.
  - exact Hv.
  - destruct (proj1 (proj1 (Get_iff_valid (pool one_element) (mkHandle 0 0))) Hv)
      as (x & Hg & Hd).
    vm_compute in Hd. injection Hd as <-. exact Hg.
  - apply (proj1 (proj2 (Get_iff_valid (pool one_element) (mkHandle 0 1)))).
    intros (_ & _ & Hg). discriminate Hg.
  - apply (proj1 (proj2 (Get_iff_valid (pool one_element) (mkHandle 1 0)))).
    intros (Hi & _). vm_compute in Hi. discriminate Hi.
Defined.


(** The bound on the generation counter is needed: a slot whose stored
    generation is [UINT32_MAX] comes back at generation 0 after its next
    removal, and a handle minted in the first life of the slot validates
    again. *)
Definition worn_world : quiet_world :=
  mkWorld (mkPool [7%nat] [UINT32_MAX] [true] [1] [None] [] 1 0)
          {[ 0%nat := mkRef (mkHandle 0 UINT32_MAX) ThePool ]} [].

Example generation_wraps_to_zero :
  exists w',
    run quiet 2 [OReset 0; OCreate 1 8%nat] worn_world = Done w' /\
    refs w' !! 1%nat = Some (mkRef (mkHandle 0 0) ThePool) /\
    IsValidHandle (pool w') (mkHandle 0 0) = true.
Proof. eexists. split; [vm_compute; reflexivity|]. split; reflexivity. Qed.


(** C3 on a run: three holders, two dropped, then the last. *)
Lemma UseCount_is_copies_minus_drops_witness :
  let ops : list (Op nat nat) :=
    [OCopyConstruct 1 0; OCopyConstruct 2 1; OReset 0; ODestroy 2] in
  let w1 : quiet_world := SetOnDestroy 0 (Some 5%nat) (create_at 0 7%nat World_new) in
  exists h w',
    refs w1 !! 0%nat = Some (mkRef h ThePool) /\
    UseCount (pool w1) (mkRef h ThePool) = 1 /\
    run quiet 2 ops w1 = Done w' /\
    (drops ops <= 1 + copies ops)%nat /\
    size ({[1%nat]} : gset nat) = (1 + copies ops - drops ops)%nat /\
    (forall y, y ∈ ({[1%nat]} : gset nat) ->
       exists r, refs w' !! y = Some r /\ GetHandle r = h /\
                 UseCount (pool w') r = N.of_nat (1 + copies ops - drops ops)) /\
    (drops ops = (1 + copies ops)%nat ->
       ({[1%nat]} : gset nat) = ∅ /\ IsValidHandle (pool w') h = false).
Proof.
  intros ops w1.
  apply (UseCount_is_copies_minus_drops quiet 2 World_new 0%nat 7%nat
           (Some 5%nat) ops {[1%nat]}).
  - exact quiet_hooks_quiet.
  - apply Pool_new_wf.
  - reflexivity.
  - reflexivity.
  - vm_compute. reflexivity.
  - vm_compute. discriminate.
Defined.

(** The last holder dropped as well: the shared handle is invalid and the
    callback has run once. *)
Example last_drop_invalidates :
  exists w',
    run quiet 2 [OCopyConstruct 1 0; OReset 0; OReset 1]
        (SetOnDestroy 0 (Some 5%nat) one_element) = Done w' /\
    IsValidHandle (pool w') (mkHandle 0 0) = false /\
    calls w' = [(0, 5%nat)].
Proof. eexists. split; [vm_compute; reflexivity|]. split; reflexivity. Qed.

(** Three slots: slot 0 alive with callback 5, slot 1 dead with a
    callback left in place, slot 2 alive with callback 9, slot 3 alive
    without callback. *)
Definition hooked_world : quiet_world :=
  mkWorld
    (mkPool [10; 11; 12; 13]%nat [0; 1; 0; 0] [true; false; true; true]
            [1; 0; 2; 1] [Some 5%nat; Some 6%nat; Some 9%nat; None] [1] 3 0)
    ∅ [].


Lemma upgrade_iff_valid_witness :
  let p := pool one_element in
  (exists p', upgrade (GetWeak (mkRef (mkHandle 0 0) ThePool)) p
              = (Some (mkRef (mkHandle 0 0) ThePool), p') /\
              GetRefCount p' (mkHandle 0 0) = 2) /\
  upgrade (GetWeak SlotRef_empty) p = (None, p) /\
  (forall w1 w2,
     Reset quiet 0 one_element = Done w1 ->
     step quiet 2 (OCreate 1 8%nat) w1 = Done w2 ->
     refs w2 !! 1%nat = Some (mkRef (mkHandle 0 1) ThePool) /\
     upgrade (GetWeak (mkRef (mkHandle 0 0) ThePool)) (pool w2) = (None, pool w2)).
Proof.
  intros p.
  assert (Hwf : pool_wf p) by (split; vm_compute; auto).
  split_and!.
  - destruct (proj1 (proj2 (upgrade_iff_valid
                (GetWeak (mkRef (mkHandle 0 0) ThePool)) p Hwf)) eq_refl)
      as (p' & Hu & _ & _ & Hrc & _); [repeat split|].
    exists p'. split; [exact Hu|].
    exact (Hrc ltac:(vm_compute; reflexivity)).
  - apply (proj1 (proj2 (proj2 (upgrade_iff_valid (GetWeak SlotRef_empty) p Hwf)))).
    intros [Hs _]. discriminate Hs.
  - intros w1 w2 H1 H2. vm_compute in H1. injection H1 as <-.
    vm_compute in H2. injection H2 as <-.
    split; [reflexivity|].
    match goal with
    | |- upgrade ?wk ?p2 = _ =>
        assert (Hwf2 : pool_wf p2) by (split; simpl; auto; constructor);
        apply (proj2 (proj2 (proj2 (upgrade_iff_valid wk p2 Hwf2))))
    end.
    vm_compute. reflexivity.
Defined.

(** The object at address 0 after its pool has been cleared: bound to the
    pool, with a handle that no longer validates. *)
Definition cleared_world : quiet_world :=
  mkWorld (mkPool [] [] [] [] [] [] 0 0)
          {[ 0%nat := mkRef (mkHandle 0 0) ThePool ]} [].

Example cleared_world_reached :
  run quiet 2 [OCreate 0 7%nat; OClear] World_new = Done cleared_world.
Proof. vm_compute. reflexivity. Qed.

(** C7, the claim as stated fails: the source is bound but its handle does
    not validate, and the copy, constructed or assigned, is not the empty
    reference: it has the pool pointer and the handle of the source. *)
Lemma copy_of_stale_reference_is_not_empty :
  let s := mkRef (mkHandle 0 0) ThePool in
  refs cleared_world !! 0%nat = Some s /\
  SlotRef_IsValid (pool cleared_world) s = false /\
  refs (copy_construct 1 0 cleared_world) !! 1%nat = Some s /\
  (exists w', copy_assign quiet 1 0 (with_ref cleared_world 1 SlotRef_empty) = Done w' /\
              refs w' !! 1%nat = Some s) /\
  s <> SlotRef_empty.
Proof.
  intros s. split_and!; try reflexivity.
  - eexists. split; [vm_compute; reflexivity | reflexivity].
  - discriminate.
Qed.

Lemma copy_shares_and_counts_witness :
  let s := mkRef (mkHandle 0 0) ThePool in
  let w' := copy_construct 1 0 one_element in
  refs w' = <[1%nat := s]> (refs one_element) /\
  calls w' = calls one_element /\
  rc_at (pool w') 0 = 2 /\
  copy_assign quiet 1 0 (with_ref one_element 1 SlotRef_empty) =
    Done (copy_construct 1 0 (with_ref one_element 1 SlotRef_empty)).
Proof.
  intros s w'.
  destruct (copy_shares_and_counts quiet one_element 1%nat 0%nat s eq_refl)
    as [(Hrefs & Hcalls & Hvalid & _) _].
  destruct (copy_shares_and_counts quiet (with_ref one_element 1 SlotRef_empty)
              1%nat 0%nat s eq_refl) as [_ Hassign].
  split_and!.
  - exact Hrefs.
  - exact Hcalls.
  - destruct (Hvalid eq_refl) as [_ Hrc].
    destruct (Hrc ltac:(split; simpl; auto; constructor)) as [Hrc0 _].
    exact Hrc0.
  - exact (Hassign SlotRef_empty ltac:(discriminate) eq_refl).
Defined.

Lemma self_assign_unchanged_witness :
  let s := mkRef (mkHandle 0 0) ThePool in
  copy_assign quiet 0 0 one_element = Done one_element /\
  move_assign quiet 0 0 one_element = Done one_element /\
  UseCount (pool one_element) s = 1 /\
  (forall w', move_assign quiet 0 0 one_element = Done w' ->
     refs w' !! 0%nat = Some s /\ SlotRef_IsValid (pool w') s = true /\
     UseCount (pool w') s = 1).
Proof.
  intros s.
  destruct (self_assign_unchanged quiet one_element 0%nat) as (Hc & Hm & Hkeep).
  split_and!; [exact Hc | exact Hm | reflexivity |].
  intros w' Hw'.
  destruct (Hkeep s eq_refl w' (or_intror Hw')) as (Hr & _ & _ & Hv & Hu).
  split_and!; [exact Hr | rewrite Hv; reflexivity | rewrite Hu; reflexivity].
Defined.

(** ** Callbacks that re-enter the pool *)

Definition code_world : Type := World nat (HookCode nat).

(** Callbacks executed as client code, nested at most twice. *)
Definition nested : HookCode nat -> code_world -> outcome code_world :=
  invoke_code 2 2.

(** The callback [[&s] { SlotRef<T>(std::move(s)); }] for the object [s]
    at address 0: it gives up the reference held by [s]. *)
Definition give_up_owner : HookCode nat := Body [OMoveToTemporary 0].

(** One element whose only reference is the object at address 0, with
    that callback. *)
Definition owned_world : code_world :=
  SetOnDestroy 0 (Some give_up_owner) (create_at 0 7%nat World_new).

(** C9, the claim as stated fails: [Clear] finds slot 0 alive and invokes
    its callback, which is still stored; the callback drops the last
    reference, the removal this starts finds the callback in the slot
    and invokes it a second time, and only then clears it.  [Clear] has
    run to its end with the same callback invoked twice for slot 0. *)
Lemma Clear_invokes_reentrant_hook_twice :
  cb_at (pool owned_world) 0 = Some give_up_owner /\
  UseCount (pool owned_world) (mkRef (mkHandle 0 0) ThePool) = 1 /\
  calls owned_world = [] /\
  exists w',
    Clear nested 2 owned_world = Done w' /\
    calls w' = [(0, give_up_owner); (0, give_up_owner)].
Proof.
  split_and!; try reflexivity.
  eexists. split; [vm_compute; reflexivity | reflexivity].
Qed.

Lemma hook_runs_before_it_is_cleared_witness :
  let h := mkHandle 2 0 in
  (exists w_in,
     pool w_in = pool hooked_world /\
     cb_at (pool w_in) 2 = Some 9%nat /\ alive_at (pool w_in) 2 = true /\
     RemoveInternal quiet h hooked_world =
       do w1 <- quiet 9%nat w_in; Done (after_callback 2 w1)) /\
  (exists w', RemoveInternal quiet h hooked_world = Done w' /\
              calls w' = [(2, 9%nat)] /\ cb_at (pool w') 2 = None /\
              alive_at (pool w') 2 = false) /\
  (exists w1, Clear_loop quiet 5 0 hooked_world = Done w1 /\
              cb_at (pool w1) 2 = Some 9%nat /\
              calls w1 = [(0, 5%nat); (2, 9%nat)]).
Proof.
  intros h.
  destruct (hook_runs_before_it_is_cleared quiet h hooked_world 9%nat eq_refl)
    as (Hin & Hquiet & Hclear).
  split_and!.
  - destruct Hin as (w_in & Hp & _ & _ & Hcb & Hal & _ & Hrun).
    exists w_in. split_and!; [exact Hp | exact Hcb | exact Hal | exact Hrun].
  - destruct (Hquiet quiet_hooks_quiet) as (w' & Hrun & Hcalls & Hcb & Hal).
    + split; simpl; auto. repeat constructor.
    + reflexivity.
    + exists w'. split_and!; assumption.
  - destruct (Hclear quiet_hooks_quiet 5%nat ltac:(simpl; lia))
      as (w1 & Hrun & _ & Hcb & Hcalls).
    exists w1. split_and!; assumption.
Defined.

(** * Further properties of the code *)

(** ** SlotHandle.h: comparison and hashing *)

(** [operator!=]. *)
Definition handle_neqb (a b : SlotHandle) : bool := negb (handle_eqb a b).

(** The 64-bit value that [std::hash<SlotHandle>] hands to
    [std::hash<uint64_t>]:
    [(static_cast<uint64_t>(h.index) << 32) | h.generation]. *)
Definition hash_key (h : SlotHandle) : N :=
  N.lor (wrap64 (N.shiftl (index h) 32)) (generation h).

(** The two fields of a handle are [uint32_t]. *)
Definition handle_fits (h : SlotHandle) : Prop :=
  index h <= UINT32_MAX /\ generation h <= UINT32_MAX.

Section Handle_facts.

Implicit Types (a b h : SlotHandle).

Lemma handle_eqb_eq a b : handle_eqb a b = true <-> a = b.
Proof.
  unfold handle_eqb. rewrite andb_true_iff, !N.eqb_eq.
  destruct a, b; simpl. split; [intros [-> ->]; reflexivity | now intros [= -> ->]].
Qed.

Lemma small_shiftr_32 g : g <= UINT32_MAX -> N.shiftr g 32 = 0.
Proof.
  intros Hg. destruct (N.eq_dec g 0) as [->|Hne]; [reflexivity|].
  apply N.shiftr_eq_0. apply N.log2_lt_pow2; [lia|].
  unfold UINT32_MAX in Hg. change (2 ^ 32) with 4294967296. lia.
Qed.

Lemma hash_key_index h : handle_fits h -> N.shiftr (hash_key h) 32 = index h.
Proof.
  intros [Hi Hg]. unfold hash_key.
  rewrite wrap64_small.
  - rewrite N.shiftr_lor, N.shiftr_shiftl_l by lia.
    rewrite N.sub_diag, N.shiftl_0_r, small_shiftr_32 by assumption.
    apply N.lor_0_r.
  - rewrite N.shiftl_mul_pow2. change (2 ^ 32) with 4294967296.
    unfold UINT32_MAX in Hi. lia.
Qed.

Lemma hash_key_generation h :
  handle_fits h -> N.land (hash_key h) UINT32_MAX = generation h.
Proof.
  intros [Hi Hg]. unfold hash_key.
  rewrite wrap64_small.
  - change UINT32_MAX with (N.ones 32).
    rewrite N.land_lor_distr_l, !N.land_ones.
    rewrite N.shiftl_mul_pow2, N.Div0.mod_mul, N.lor_0_l.
    apply N.mod_small. change (2 ^ 32) with 4294967296.
    unfold UINT32_MAX in Hg. lia.
  - rewrite N.shiftl_mul_pow2. change (2 ^ 32) with 4294967296.
    unfold UINT32_MAX in Hi. lia.
Qed.

(** X1. For handles whose fields are 32-bit values, [operator==] holds
    exactly for equal handles and [operator!=] is its negation; the key
    that the hash specialisation computes fits 64 bits and determines
    the handle: its upper half is the index and its lower half the
    generation, so two handles have the same key only when they are
    equal. *)
Theorem hash_key_determines_handle a b :
  handle_fits a -> handle_fits b ->
  (handle_eqb a b = true <-> a = b) /\
  (handle_neqb a b = true <-> a <> b) /\
  N.shiftr (hash_key a) 32 = index a /\
  N.land (hash_key a) UINT32_MAX = generation a /\
  hash_key a < 18446744073709551616 /\
  (hash_key a = hash_key b <-> a = b).
Proof.
  intros Ha Hb. split_and!.
  - apply handle_eqb_eq.
  - unfold handle_neqb. rewrite negb_true_iff, <- handle_eqb_eq.
    destruct (handle_eqb a b); split; congruence.
  - now apply hash_key_index.
  - now apply hash_key_generation.
  - destruct Ha as [Hi Hg]. unfold hash_key.
    rewrite wrap64_small
      by (rewrite N.shiftl_mul_pow2; change (2 ^ 32) with 4294967296;
          unfold UINT32_MAX in Hi; lia).
    destruct (N.eq_dec (N.lor (N.shiftl (index a) 32) (generation a)) 0)
      as [->|Hne]; [lia|].
    apply (N.log2_lt_pow2 _ 64); [lia|].
    rewrite N.log2_lor. apply N.max_lub_lt.
    + destruct (N.eq_dec (index a) 0) as [->|Hi0]; [rewrite N.shiftl_0_l; simpl; lia|].
      rewrite N.log2_shiftl by assumption.
      assert (N.log2 (index a) < 32); [|lia].
      apply N.log2_lt_pow2; [lia|]. change (2 ^ 32) with 4294967296.
      unfold UINT32_MAX in Hi. lia.
    + destruct (N.eq_dec (generation a) 0) as [->|Hg0]; [simpl; lia|].
      assert (N.log2 (generation a) < 32); [|lia].
      apply N.log2_lt_pow2; [lia|]. change (2 ^ 32) with 4294967296.
      unfold UINT32_MAX in Hg. lia.
  - split; [|now intros ->].
    intros He. destruct a as [ia ga], b as [ib gb].
    pose proof (hash_key_index _ Ha) as H1. pose proof (hash_key_index _ Hb) as H2.
    pose proof (hash_key_generation _ Ha) as H3.
    pose proof (hash_key_generation _ Hb) as H4.
    rewrite He in H1, H3. simpl in *. congruence.
Qed.

End Handle_facts.

Lemma hash_key_determines_handle_witness :
  hash_key (mkHandle 3 5) = 12884901893 /\
  N.shiftr (hash_key (mkHandle 3 5)) 32 = 3 /\
  N.land (hash_key (mkHandle 3 5)) UINT32_MAX = 5 /\
  hash_key (mkHandle 3 5) <> hash_key (mkHandle 5 3).
Proof.
  assert (H35 : handle_fits (mkHandle 3 5)) by (split; vm_compute; discriminate).
  assert (H53 : handle_fits (mkHandle 5 3)) by (split; vm_compute; discriminate).
  destruct (hash_key_determines_handle (mkHandle 3 5) (mkHandle 5 3) H35 H53)
    as (_ & _ & Hi & Hg & _ & Hinj).
  split_and!; [reflexivity | exact Hi | exact Hg |].
  intros He. apply Hinj in He. discriminate He.
Defined.


(** ** WeakSlotPtr.h: comparisons of [SlotRef] *)

(** [operator!=(const SlotRef&)]. *)
Definition SlotRef_neqb (a b : SlotRef) : bool := negb (SlotRef_eqb a b).

(** [operator==(std::nullptr_t)], also with [nullptr] on the left. *)
Definition SlotRef_is_null {T Hook : Type} (p : Pool T Hook) (r : SlotRef) : bool :=
  negb (SlotRef_IsValid p r).

(** [operator!=(std::nullptr_t)] and [explicit operator bool]. *)
Definition SlotRef_not_null {T Hook : Type} (p : Pool T Hook) (r : SlotRef) : bool :=
  SlotRef_IsValid p r.

Section Invalid_facts.

Context {T Hook : Type}.
Variable invoke : Hook -> World T Hook -> outcome (World T Hook).
Implicit Types (w : World T Hook) (p : Pool T Hook) (h : SlotHandle) (r : SlotRef).

Lemma SlotRef_eqb_eq (a b : SlotRef) : SlotRef_eqb a b = true <-> a = b.
Proof.
  unfold SlotRef_eqb. rewrite andb_true_iff, handle_eqb_eq.
  destruct a as [ha sa], b as [hb sb]; simpl. split.
  - intros [-> Hs]. destruct sa, sb; simpl in Hs; congruence.
  - intros [= -> ->]. split; [reflexivity | now destruct sb].
Qed.

Lemma Get_valid p h : valid_handle p h -> exists x, Get p h = Some x.
Proof.
  intros Hv. pose proof (valid_handle_in_range _ _ Hv) as Hr.
  apply IsValidHandle_true in Hv. unfold Get. rewrite Hv. simpl.
  destruct (lookup_lt_is_Some_2 _ _ Hr) as [x Hx]. eauto.
Qed.

Lemma SlotRef_Get_valid p r :
  SlotRef_IsValid p r = true -> exists x, SlotRef_Get p r = Some x.
Proof.
  intros Hv. unfold SlotRef_Get. rewrite Hv. simpl.
  apply SlotRef_IsValid_true in Hv as [_ Hv]. now apply Get_valid.
Qed.

(** X2. Comparing a [SlotRef] with [nullptr] agrees with dereferencing
    it: [r != nullptr] (and [operator bool]) holds exactly when
    [r.Get()] returns an element, namely the one the pool's [Get] returns
    for the handle, and [r == nullptr] exactly when [r.Get()] is
    [nullptr].  The default-constructed reference equals [nullptr] in
    every pool.  [operator==] between references holds exactly for equal
    handle and pool pointer, so a bound reference whose handle does not
    validate equals [nullptr] without being [==] to the empty
    reference. *)
Theorem null_comparison_agrees_with_Get p r :
  (SlotRef_not_null p r = true <->
     exists x, SlotRef_Get p r = Some x /\ Get p (m_handle r) = Some x) /\
  (SlotRef_is_null p r = true <-> SlotRef_Get p r = None) /\
  SlotRef_is_null p SlotRef_empty = true /\
  (forall a b, SlotRef_eqb a b = true <-> a = b) /\
  (forall a b, SlotRef_neqb a b = true <-> a <> b) /\
  (m_slot r = ThePool -> IsValidHandle p (m_handle r) = false ->
     SlotRef_is_null p r = true /\ SlotRef_eqb r SlotRef_empty = false).
Proof.
  unfold SlotRef_not_null, SlotRef_is_null. split_and!.
  - split.
    + intros Hv. destruct (SlotRef_Get_valid _ _ Hv) as [x Hx].
      exists x. split; [assumption|].
      unfold SlotRef_Get in Hx. now rewrite Hv in Hx.
    + intros (x & Hx & _). unfold SlotRef_Get in Hx.
      destruct (SlotRef_IsValid p r); [reflexivity | discriminate].
  - rewrite negb_true_iff. split.
    + intros Hv. unfold SlotRef_Get. now rewrite Hv.
    + intros Hg. destruct (SlotRef_IsValid p r) eqn:Hv; [|reflexivity].
      destruct (SlotRef_Get_valid _ _ Hv) as [x Hx]. congruence.
  - reflexivity.
  - apply SlotRef_eqb_eq.
  - intros a b. unfold SlotRef_neqb. rewrite negb_true_iff, <- SlotRef_eqb_eq.
    destruct (SlotRef_eqb a b); split; congruence.
  - intros Hs Hv. unfold SlotRef_IsValid. rewrite Hs, Hv. split; [reflexivity|].
    destruct (SlotRef_eqb r SlotRef_empty) eqn:He; [|reflexivity].
    apply SlotRef_eqb_eq in He. rewrite He in Hs. discriminate.
Qed.

(** X3. Nothing is done through a handle that does not validate: [Get]
    returns [nullptr], [GetRefCount] returns 0, and [AddRef],
    [ReleaseRef], [SetOnDestroyCallback] and [ClearOnDestroyCallback]
    leave the pool as it is, without running a callback.  The same holds
    through a [SlotRef] that is empty or stale: [Get] and [UseCount]
    answer [nullptr] and 0, copying it adds no reference, [SetOnDestroy]
    and [ClearOnDestroy] do nothing, and [Reset] and the destructor only
    empty or remove the object itself. *)
Theorem invalid_reference_is_inert w r x cb :
  (forall h, IsValidHandle (pool w) h = false ->
     Get (pool w) h = None /\ GetRefCount (pool w) h = 0 /\
     AddRef (pool w) h = pool w /\
     SetOnDestroyCallback (pool w) h cb = pool w /\
     ClearOnDestroyCallback (pool w) h = pool w /\
     ReleaseRef invoke h w = Done w) /\
  (SlotRef_IsValid (pool w) r = false ->
     SlotRef_Get (pool w) r = None /\ UseCount (pool w) r = 0 /\
     acquire (pool w) r = pool w /\ Release invoke r w = Done w /\
     (refs w !! x = Some r ->
        SetOnDestroy x cb w = w /\ ClearOnDestroy x w = w /\
        Reset invoke x w = Done (with_ref w x SlotRef_empty) /\
        destroy invoke x w = Done (without_ref w x) /\
        forall dst, pool (copy_construct dst x w) = pool w)).
Proof.
  split.
  - intros h Hv.
    unfold Get, GetRefCount, AddRef, SetOnDestroyCallback,
      ClearOnDestroyCallback, ReleaseRef.
    rewrite Hv. simpl. split_and!; reflexivity.
  - intros Hv.
    unfold SlotRef_Get, UseCount, acquire, Release. rewrite Hv. simpl.
    split_and!; try reflexivity.
    intros Hx.
    unfold SetOnDestroy, ClearOnDestroy, Reset, destroy, copy_construct,
      Release, acquire.
    rewrite Hx, (SlotRef_eta r), Hv. simpl. rewrite Hv.
    split_and!; reflexivity.
Qed.

End Invalid_facts.

Lemma invalid_reference_is_inert_witness :
  let stale := mkRef (mkHandle 0 0) ThePool in
  SlotRef_Get (pool cleared_world) stale = None /\
  UseCount (pool cleared_world) stale = 0 /\
  Release quiet stale cleared_world = Done cleared_world /\
  SetOnDestroy 0 (Some 4%nat) cleared_world = cleared_world /\
  Reset quiet 0 cleared_world = Done (with_ref cleared_world 0 SlotRef_empty).
Proof.
  intros stale.
  destruct (invalid_reference_is_inert quiet cleared_world stale 0%nat (Some 4%nat))
    as [_ Hr].
  destruct (Hr eq_refl) as (Hg & Hu & _ & Hrel & Hobj).
  destruct (Hobj eq_refl) as (Hset & _ & Hreset & _).
  split_and!; assumption.
Defined.

Lemma null_comparison_agrees_with_Get_witness :
  let stale := mkRef (mkHandle 0 0) ThePool in
  SlotRef_is_null (pool cleared_world) stale = true /\
  SlotRef_eqb stale SlotRef_empty = false /\
  SlotRef_not_null (pool one_element) stale = true /\
  SlotRef_Get (pool one_element) stale = Some 7%nat.
Proof.
  intros stale.
  destruct (null_comparison_agrees_with_Get (pool cleared_world) stale)
    as (_ & _ & _ & _ & _ & Hstale).
  destruct (Hstale eq_refl eq_refl) as [Hn He].
  destruct (null_comparison_agrees_with_Get (pool one_element) stale)
    as (Hnn & _).
  split_and!; [exact Hn | exact He | reflexivity |].
  destruct (proj1 Hnn eq_refl) as (y & Hy & Hy').
  vm_compute in Hy'. injection Hy' as <-. exact Hy.
Defined.

(** ** Repeating [Reset], [ShrinkToFit] and [Clear] *)

Section Idempotence.

Context {T Hook : Type}.
Variable invoke : Hook -> World T Hook -> outcome (World T Hook).
Implicit Types (w : World T Hook) (p : Pool T Hook) (h : SlotHandle) (r : SlotRef).

Lemma Release_empty w : Release invoke SlotRef_empty w = Done w.
Proof. reflexivity. Qed.

(** X4. Whatever the callbacks do, when [Reset] returns the object is
    the empty reference, and from there a second [Reset] changes
    nothing at all, the destructor only removes the object, and a copy
    of it is empty and adds no reference: a reference is released at
    most once through one object. *)
Theorem Reset_is_idempotent w x r w1 :
  refs w !! x = Some r ->
  Reset invoke x w = Done w1 ->
  refs w1 !! x = Some SlotRef_empty /\
  Reset invoke x w1 = Done w1 /\
  destroy invoke x w1 = Done (without_ref w1 x) /\
  (forall dst, pool (copy_construct dst x w1) = pool w1 /\
               refs (copy_construct dst x w1) !! dst = Some SlotRef_empty).
Proof.
  intros Hx. unfold Reset at 1. rewrite Hx.
  destruct (Release invoke r w) as [w0| |]; simpl; try discriminate.
  intros [= <-].
  assert (Hl : refs (with_ref w0 x SlotRef_empty) !! x = Some SlotRef_empty)
    by (simpl; apply lookup_insert_eq).
  split_and!.
  - exact Hl.
  - unfold Reset. rewrite Hl, Release_empty. simpl. f_equal.
    unfold with_ref. simpl. now rewrite insert_insert_eq.
  - unfold destroy. now rewrite Hl, Release_empty.
  - intros dst. unfold copy_construct. rewrite Hl. simpl. split; [reflexivity|].
    apply lookup_insert_eq.
Qed.


(** X6. Whatever the callbacks do, when [Clear] returns the pool is
    empty but for its capacity bound: no handle validates, no reference
    is valid, [Count()] and [Capacity()] are 0 and the free list is
    empty.  Releasing a reference left over from before does nothing,
    and a second [Clear] invokes no callback and changes nothing. *)
Theorem Clear_leaves_nothing_valid gas w w' :
  Clear invoke gas w = Done w' ->
  (forall h, IsValidHandle (pool w') h = false) /\
  (forall r, SlotRef_IsValid (pool w') r = false /\
             Release invoke r w' = Done w') /\
  Count (pool w') = 0 /\ Capacity (pool w') = 0 /\
  m_freeList (pool w') = [] /\
  (forall g, Clear invoke (S g) w' = Done w').
Proof.
  unfold Clear. destruct (Clear_loop invoke gas 0 w) as [w1| |]; simpl;
    try discriminate.
  intros [= <-]. simpl.
  assert (Hh : forall h,
            IsValidHandle (mkPool (T:=T) (Hook:=Hook) [] [] [] [] [] [] 0
                             (m_maxCapacity (pool w1))) h = false).
  { intros h. unfold IsValidHandle, data_size. simpl.
    now destruct (_ <=? index h). }
  assert (Hr : forall r,
            SlotRef_IsValid (mkPool (T:=T) (Hook:=Hook) [] [] [] [] [] [] 0
                               (m_maxCapacity (pool w1))) r = false).
  { intros r. unfold SlotRef_IsValid. destruct (m_slot r); [reflexivity | apply Hh]. }
  split_and!; try reflexivity.
  - exact Hh.
  - intros r. split; [apply Hr|]. unfold Release. simpl. now rewrite Hr.
Qed.

End Idempotence.

(** ** ObjectSlotBase.h: [ForEach]

    [ForEach] is modelled for callables that work on the element they
    are handed and on state of their own, of type [A]; they do not call
    into the pool, so [m_data.size()] is the same at every test of the
    loop and the loop makes that many steps. *)

Section ForEach_model.

Variable T : Type.
Variable Hook : Type.
Variable A : Type.

Definition set_data (p : Pool T Hook) (l : list T) : Pool T Hook :=
  mkPool l (m_generations p) (m_alive p) (m_refCounts p)
         (m_onDestroyCallbacks p) (m_freeList p) (m_count p) (m_maxCapacity p).

(** [SlotHandle h{ static_cast<uint32_t>(i), m_generations[i] }]. *)
Definition handle_at (p : Pool T Hook) (i : nat) : SlotHandle :=
  mkHandle (wrap32 (N.of_nat i)) (gen_at p (N.of_nat i)).

(** The body of the loop of the non-const [ForEach]: [func] receives the
    handle and a reference to the element, which it may assign. *)
Definition ForEach_body (func : SlotHandle -> T -> A -> T * A)
    (i : nat) (p : Pool T Hook) (a : A) : Pool T Hook * A :=
  if alive_at p (N.of_nat i) then
    match m_data p !! i with
    | Some x =>
        let '(x', a') := func (handle_at p i) x a in
        (set_data p (<[i := x']> (m_data p)), a')
    | None => (p, a)
    end
  else (p, a).

Fixpoint ForEach_loop (func : SlotHandle -> T -> A -> T * A)
    (steps i : nat) (p : Pool T Hook) (a : A) : Pool T Hook * A :=
  match steps with
  | O => (p, a)
  | S n =>
      let '(p', a') := ForEach_body func i p a in
      ForEach_loop func n (S i) p' a'
  end.

Definition ForEach (func : SlotHandle -> T -> A -> T * A)
    (p : Pool T Hook) (a : A) : Pool T Hook * A :=
  ForEach_loop func (length (m_data p)) 0 p a.

(** The const [ForEach]: [func] receives the handle and a const
    reference to the element. *)
Fixpoint ForEach_const_loop (func : SlotHandle -> T -> A -> A)
    (steps i : nat) (p : Pool T Hook) (a : A) : A :=
  match steps with
  | O => a
  | S n =>
      let a' := if alive_at p (N.of_nat i) then
                  match m_data p !! i with
                  | Some x => func (handle_at p i) x a
                  | None => a
                  end
                else a in
      ForEach_const_loop func n (S i) p a'
  end.

Definition ForEach_const (func : SlotHandle -> T -> A -> A)
    (p : Pool T Hook) (a : A) : A :=
  ForEach_const_loop func (length (m_data p)) 0 p a.

End ForEach_model.

Arguments set_data {T Hook}.
Arguments handle_at {T Hook}.
Arguments ForEach_body {T Hook A}.
Arguments ForEach_loop {T Hook A}.
Arguments ForEach {T Hook A}.
Arguments ForEach_const_loop {T Hook A}.
Arguments ForEach_const {T Hook A}.

Section ForEach_facts.

Context {T Hook A : Type}.
Implicit Types (p : Pool T Hook) (h : SlotHandle).

(** What [ForEach] hands to the callable at position [i], if anything. *)
Definition visit p (i : nat) : option (SlotHandle * T) :=
  if alive_at p (N.of_nat i) then
    match m_data p !! i with
    | Some x => Some (handle_at p i, x)
    | None => None
    end
  else None.

Definition visits_range p (i steps : nat) : list (SlotHandle * T) :=
  omap (visit p) (seq i steps).

(** The visits of a whole pass, in the order they are made. *)
Definition visits p : list (SlotHandle * T) :=
  visits_range p 0 (length (m_data p)).

Lemma visits_range_S p i n :
  visits_range p i (S n) =
  match visit p i with
  | Some e => e :: visits_range p (S i) n
  | None => visits_range p (S i) n
  end.
Proof. unfold visits_range. simpl. now destruct (visit p i). Qed.

Lemma ForEach_const_loop_fold (func : SlotHandle -> T -> A -> A) p steps :
  forall i a,
    ForEach_const_loop func steps i p a =
    foldl (fun acc e => func (fst e) (snd e) acc) a (visits_range p i steps).
Proof.
  induction steps as [|n IH]; intros i a; [reflexivity|].
  rewrite visits_range_S. simpl. rewrite IH. unfold visit.
  destruct (alive_at p (N.of_nat i)); [|reflexivity].
  destruct (m_data p !! i); reflexivity.
Qed.

Lemma elem_of_visits p h x :
  data_size p <= 4294967296 ->
  (h, x) ∈ visits p <->
  valid_handle p h /\ m_data p !! N.to_nat (index h) = Some x.
Proof.
  intros Hsz. unfold visits, visits_range. rewrite list_elem_of_omap. split.
  - intros (i & Hi & Hv). apply elem_of_seq in Hi. unfold visit in Hv.
    destruct (alive_at p (N.of_nat i)) eqn:Hal; [|discriminate].
    destruct (m_data p !! i) as [y|] eqn:Hd; [|discriminate].
    injection Hv as <- <-. unfold handle_at, valid_handle, data_size in *. simpl.
    rewrite wrap32_small by lia. rewrite Nat2N.id. split_and!; auto. lia.
  - intros [(Hi & Hal & Hg) Hd]. exists (N.to_nat (index h)). split.
    + apply elem_of_seq. unfold data_size in Hi. lia.
    + unfold visit, handle_at. rewrite N2Nat.id, Hal, Hd, Hg.
      rewrite wrap32_small by lia. now destruct h.
Qed.

Lemma visits_range_sorted p i n :
  N.of_nat (i + n) <= 4294967296 ->
  StronglySorted N.lt (index ∘ fst <$> visits_range p i n) /\
  Forall (fun e => N.of_nat i <= index (fst e)) (visits_range p i n).
Proof.
  revert i. induction n as [|n IH]; intros i Hb; [split; constructor|].
  rewrite visits_range_S. destruct (IH (S i) ltac:(lia)) as [Hs Hf].
  assert (Hf' : Forall (fun e => N.of_nat i <= index (fst e)) (visits_range p (S i) n)).
  { eapply Forall_impl; [exact Hf|]. simpl. intros e. lia. }
  unfold visit. destruct (alive_at p (N.of_nat i)); [|auto].
  destruct (m_data p !! i); [|auto].
  assert (Hidx : index (handle_at p i) = N.of_nat i)
    by (unfold handle_at; simpl; apply wrap32_small; lia).
  split.
  - rewrite fmap_cons. constructor; [assumption|].
    apply Forall_fmap. eapply Forall_impl; [exact Hf|]. intros e He.
    unfold compose. simpl in *. rewrite wrap32_small by lia. lia.
  - constructor; [simpl; rewrite wrap32_small by lia; lia | assumption].
Qed.

(** X7. The const [ForEach] applies the callable to the visits of the
    pool one after the other.  When the storage is within the range of
    a 32-bit index the visits are exactly the pairs of a valid handle
    and the element stored for it (the element [Get] returns), and they
    come by strictly increasing index: every live element is visited
    once, with a handle that validates, and no dead slot is visited. *)
Theorem ForEach_visits_valid_handles_in_order
    (func : SlotHandle -> T -> A -> A) p a :
  data_size p <= 4294967296 ->
  ForEach_const func p a =
    foldl (fun acc e => func (fst e) (snd e) acc) a (visits p) /\
  (forall h x, (h, x) ∈ visits p <-> valid_handle p h /\ Get p h = Some x) /\
  StronglySorted N.lt (index ∘ fst <$> visits p).
Proof.
  intros Hsz. split_and!.
  - apply ForEach_const_loop_fold.
  - intros h x. rewrite (elem_of_visits p h x Hsz). split.
    + intros [Hv Hd]. split; [assumption|].
      pose proof Hv as Hb. apply IsValidHandle_true in Hb.
      unfold Get. now rewrite Hb.
    + intros [Hv Hg]. split; [assumption|].
      pose proof Hv as Hb. apply IsValidHandle_true in Hb.
      unfold Get in Hg. now rewrite Hb in Hg.
  - apply visits_range_sorted. unfold data_size in Hsz. simpl. lia.
Qed.

End ForEach_facts.

Section ForEach_mutable_facts.

Context {T Hook A : Type}.
Implicit Types (p : Pool T Hook) (h : SlotHandle).

(** One visit of the non-const [ForEach], on the element vector and the
    state of the callable. *)
Definition apply_visit (func : SlotHandle -> T -> A -> T * A)
    (st : list T * A) (e : SlotHandle * T) : list T * A :=
  let '(x', a') := func (fst e) (snd e) (snd st) in
  (<[N.to_nat (index (fst e)) := x']> (fst st), a').

Lemma visit_set_data p l i j :
  i <> j -> length l = length (m_data p) ->
  (forall k, k <> i -> l !! k = m_data p !! k) ->
  visit (set_data p l) j = visit p j.
Proof.
  intros Hne _ Hl. unfold visit, handle_at, alive_at, gen_at. simpl.
  now rewrite Hl by congruence.
Qed.

Lemma visits_range_after p x i n : forall j,
  (i < j)%nat ->
  visits_range (set_data p (<[i := x]> (m_data p))) j n = visits_range p j n.
Proof.
  induction n as [|n IH]; intros j Hj; [reflexivity|].
  rewrite !visits_range_S, IH by lia.
  rewrite (visit_set_data p (<[i := x]> (m_data p)) i j);
    [reflexivity | lia | apply length_insert |].
  intros k Hk. now apply list_lookup_insert_ne.
Qed.

Lemma visits_range_set_data p x i n :
  visits_range (set_data p (<[i := x]> (m_data p))) (S i) n =
  visits_range p (S i) n.
Proof. apply visits_range_after. lia. Qed.

Lemma ForEach_loop_fold (func : SlotHandle -> T -> A -> T * A) steps :
  forall i p a,
    N.of_nat (i + steps) <= 4294967296 ->
    ForEach_loop func steps i p a =
    let st := foldl (apply_visit func) (m_data p, a) (visits_range p i steps) in
    (set_data p (fst st), snd st).
Proof.
  induction steps as [|n IH]; intros i p a Hb.
  - simpl. now destruct p.
  - rewrite visits_range_S. simpl. unfold ForEach_body, visit.
    destruct (alive_at p (N.of_nat i)); [|apply IH; lia].
    destruct (m_data p !! i) as [x|]; [|apply IH; lia].
    simpl.
    assert (Hav : apply_visit func (m_data p, a) (handle_at p i, x) =
                  (<[i := fst (func (handle_at p i) x a)]> (m_data p),
                   snd (func (handle_at p i) x a))).
    { unfold apply_visit. simpl.
      rewrite wrap32_small by lia. rewrite Nat2N.id.
      now destruct (func (handle_at p i) x a). }
    rewrite Hav. destruct (func (handle_at p i) x a) as [x' a']. simpl.
    rewrite IH by lia. simpl. now rewrite visits_range_set_data.
Qed.

Lemma apply_visits_frame (func : SlotHandle -> T -> A -> T * A) es :
  forall d a,
    let st := foldl (apply_visit func) (d, a) es in
    length (fst st) = length d /\
    (forall j, Forall (fun e => N.to_nat (index (fst e)) <> j) es ->
               fst st !! j = d !! j).
Proof.
  induction es as [|e es IH]; intros d a; simpl; [auto|].
  unfold apply_visit at 2 4. simpl.
  destruct (func (fst e) (snd e) a) as [x' a'].
  destruct (IH (<[N.to_nat (index (fst e)) := x']> d) a') as [Hl Hf].
  split.
  - rewrite Hl. apply length_insert.
  - intros j Hj. apply Forall_cons in Hj as [Hne Hj].
    rewrite Hf by assumption. now apply list_lookup_insert_ne.
Qed.

(** X8. The non-const [ForEach], on a storage within the range of a
    32-bit index, is the fold of the callable over the visits of the
    pool as it was at the start: each live element is handed over once,
    by increasing index, and replaced by what the callable leaves in it.
    Nothing but the element vector changes: its length, the elements of
    dead slots, the validity of every handle and every reference count
    are as before. *)
Theorem ForEach_changes_only_live_elements
    (func : SlotHandle -> T -> A -> T * A) p a :
  data_size p <= 4294967296 ->
  let st := foldl (apply_visit func) (m_data p, a) (visits p) in
  let p' := fst (ForEach func p a) in
  ForEach func p a = (set_data p (fst st), snd st) /\
  length (m_data p') = length (m_data p) /\
  (forall i, alive_at p i = false ->
             m_data p' !! N.to_nat i = m_data p !! N.to_nat i) /\
  (forall h, IsValidHandle p' h = IsValidHandle p h) /\
  (forall h, GetRefCount p' h = GetRefCount p h) /\
  Count p' = Count p /\ m_freeList p' = m_freeList p.
Proof.
  intros Hsz st p'.
  assert (He : ForEach func p a = (set_data p (fst st), snd st)).
  { unfold ForEach. rewrite ForEach_loop_fold; [reflexivity|].
    unfold data_size in Hsz. simpl. lia. }
  destruct (apply_visits_frame func (visits p) (m_data p) a) as [Hlen Hframe].
  fold st in Hlen, Hframe.
  assert (Hv : forall h, IsValidHandle p' h = IsValidHandle p h).
  { intros h. unfold p'. rewrite He. unfold IsValidHandle, data_size. simpl.
    now rewrite Hlen. }
  split_and!.
  - exact He.
  - unfold p'. rewrite He. exact Hlen.
  - intros i Hdead. unfold p'. rewrite He. simpl. apply Hframe.
    apply Forall_forall. intros [h x] Hin Hidx. simpl in Hidx.
    apply (elem_of_visits p h x Hsz) in Hin as [(_ & Hal & _) _].
    apply N2Nat.inj in Hidx. subst i. congruence.
  - exact Hv.
  - intros h. unfold GetRefCount. rewrite Hv. unfold p'. now rewrite He.
  - unfold p'. now rewrite He.
  - unfold p'. now rewrite He.
Qed.

End ForEach_mutable_facts.

(** ** Invariants of the pool over client programs *)

Fixpoint alive_count (l : list bool) : nat :=
  match l with
  | [] => O
  | b :: rest => ((if b then 1 else 0) + alive_count rest)%nat
  end.

Section Invariant_defs.

Context {T Hook : Type}.
Implicit Types (p : Pool T Hook) (h : SlotHandle).

(** What the pool keeps true between two operations of a client: the
    vectors agree in length, [m_count] is the number of alive slots, the
    free list holds each dead slot of the storage once and nothing else,
    and an alive slot is referenced at least once. *)
Record pool_inv p : Prop := mk_pool_inv {
  inv_wf : pool_wf p;
  inv_count : m_count p = N.of_nat (alive_count (m_alive p));
  inv_free_nodup : NoDup (m_freeList p);
  inv_free_dead : forall i,
    i ∈ m_freeList p <-> i < data_size p /\ alive_at p i = false;
  inv_rc : forall i, alive_at p i = true -> 1 <= rc_at p i
}.

(** The storage has at most [k] slots and no reference count exceeds
    [k]. *)
Definition bounded (k : nat) p : Prop :=
  (length (m_data p) <= k)%nat /\ forall i, rc_at p i <= N.of_nat k.

(** The capacity bound is respected. *)
Definition cap_ok p : Prop :=
  m_maxCapacity p = 0 \/ m_count p <= m_maxCapacity p.

(** From [p] to [p'] the bound is kept and the element count does not
    grow, unless by one where [CanCreate] allowed it. *)
Definition count_step p p' : Prop :=
  m_maxCapacity p' = m_maxCapacity p /\
  (m_count p' <= m_count p \/
   (CanCreate p = true /\ m_count p' = m_count p + 1)).

Lemma alive_count_le (l : list bool) : (alive_count l <= length l)%nat.
Proof. induction l as [|[] l IH]; simpl; lia. Qed.

Lemma alive_count_app (l k : list bool) :
  alive_count (l ++ k) = (alive_count l + alive_count k)%nat.
Proof. induction l as [|b l IH]; simpl; [reflexivity | rewrite IH; lia]. Qed.

Lemma alive_count_insert (l : list bool) : forall (i : nat) (b b' : bool),
  l !! i = Some b ->
  (alive_count (<[i := b']> l) + (if b then 1 else 0) =
   alive_count l + (if b' then 1 else 0))%nat.
Proof.
  induction l as [|c l IH]; intros i b b' Hl; [discriminate|].
  destruct i as [|i]; simpl in *.
  - injection Hl as ->. lia.
  - specialize (IH i b b' Hl). lia.
Qed.

Lemma alive_count_take (l : list bool) : forall n : nat,
  (forall j : nat, (n <= j < length l)%nat -> l !! j = Some false) ->
  alive_count (take n l) = alive_count l.
Proof.
  induction l as [|c l IH]; intros n Hd; [now destruct n|].
  destruct n as [|n]; simpl.
  - assert (Hc : c = false).
    { specialize (Hd O ltac:(simpl; lia)). now injection Hd. }
    subst c. simpl. symmetry.
    rewrite <- (IH O).
    + now rewrite take_0.
    + intros j Hj. apply (Hd (S j)). simpl. lia.
  - rewrite IH; [reflexivity|].
    intros j Hj. apply (Hd (S j)). simpl. lia.
Qed.

Lemma alive_at_lookup p i :
  alive_at p i = true <-> m_alive p !! N.to_nat i = Some true.
Proof.
  unfold alive_at. destruct (m_alive p !! N.to_nat i) as [[]|]; simpl;
    split; congruence.
Qed.

Lemma alive_in_range p i :
  pool_wf p -> alive_at p i = true -> i < data_size p.
Proof.
  intros Hwf Ha. apply alive_at_lookup, lookup_lt_Some in Ha.
  rewrite (wf_alive _ Hwf) in Ha. unfold data_size. lia.
Qed.

Lemma cap_ok_step p p' : cap_ok p -> count_step p p' -> cap_ok p'.
Proof.
  intros Hc [Hm Hs]. unfold cap_ok in *. rewrite Hm.
  destruct Hc as [H0|Hle]; [now left|].
  destruct Hs as [Hs|[Hcan Hs]]; [right; lia|].
  unfold CanCreate in Hcan.
  destruct (N.eqb_spec (m_maxCapacity p) 0) as [H0|_]; [now left|].
  apply N.ltb_lt in Hcan. right. lia.
Qed.

Lemma count_step_refl p : count_step p p.
Proof. split; [reflexivity | left; lia]. Qed.

Lemma Pool_new_inv : pool_inv (@Pool_new T Hook) /\ bounded 0 (@Pool_new T Hook).
Proof.
  split.
  - split; simpl.
    + apply Pool_new_wf.
    + reflexivity.
    + constructor.
    + intros i. unfold data_size. simpl. split; [intros H; inversion H | lia].
    + intros i. discriminate.
  - split; [simpl; lia | intros i; unfold rc_at; simpl; destruct (N.to_nat i); simpl; lia].
Qed.

End Invariant_defs.

Section Invariant_pool.

Context {T Hook : Type}.
Implicit Types (p : Pool T Hook) (h : SlotHandle).

Lemma default_lookup_snoc {B} (d : B) (l : list B) (j : nat) :
  default d ((l ++ [d]) !! j) = default d (l !! j).
Proof.
  destruct (decide (j < length l)%nat) as [Hlt|Hge].
  - now rewrite lookup_app_l.
  - rewrite (lookup_ge_None_2 l j) by lia.
    destruct (decide (j = length l)) as [->|Hne].
    + now rewrite lookup_app_r, Nat.sub_diag by lia.
    + rewrite lookup_ge_None_2; [reflexivity|]. rewrite length_app. simpl. lia.
Qed.

Lemma default_lookup_snoc_ne {B} (d x : B) (l : list B) (j : nat) :
  j <> length l -> default d ((l ++ [x]) !! j) = default d (l !! j).
Proof.
  intros Hne. destruct (decide (j < length l)%nat) as [Hlt|Hge].
  - now rewrite lookup_app_l.
  - rewrite (lookup_ge_None_2 l j) by lia.
    rewrite lookup_ge_None_2; [reflexivity|]. rewrite length_app. simpl. lia.
Qed.

Lemma incr64_small n : n + 1 < 18446744073709551616 -> incr64 n = n + 1.
Proof. intros. unfold incr64. now apply wrap64_small. Qed.

Lemma decr64_pos n : 0 < n -> n < 18446744073709551616 -> decr64 n = n - 1.
Proof.
  unfold decr64, wrap64. intros Hp Hle.
  replace (n + 18446744073709551615)
    with ((n - 1) + 1 * 18446744073709551616) by lia.
  rewrite N.Div0.mod_add. apply N.mod_small. lia.
Qed.

(** [AllocateSlot] on a pool that satisfies the invariant: everything
    of the invariant but the reference count of the new slot, which is
    0 until [Create] adds the first reference. *)
Lemma AllocateSlot_inv obj p h p1 :
  pool_inv p -> data_size p < 4294967296 ->
  AllocateSlot obj p = (h, p1) ->
  alive_at p (index h) = false /\
  m_count p1 = N.of_nat (alive_count (m_alive p1)) /\
  m_count p1 = m_count p + 1 /\
  NoDup (m_freeList p1) /\
  (forall i, i ∈ m_freeList p1 <-> i < data_size p1 /\ alive_at p1 i = false) /\
  (forall i, i <> index h -> alive_at p1 i = alive_at p i) /\
  (forall i, i <> index h -> rc_at p1 i = rc_at p i) /\
  (length (m_data p1) <= S (length (m_data p)))%nat /\
  (m_freeList p = [] -> data_size p1 = data_size p + 1 /\ index h = data_size p) /\
  (m_freeList p <> [] -> data_size p1 = data_size p /\
                         head (m_freeList p) = Some (index h)).
Proof.
  intros [Hwf Hcnt Hnd Hfd Hrc] Hsz. unfold AllocateSlot.
  pose proof (alive_count_le (m_alive p)) as Hac.
  pose proof (wf_alive _ Hwf) as Hla.
  assert (Hc1 : m_count p + 1 < 18446744073709551616)
    by (rewrite Hcnt; unfold data_size in Hsz; lia).
  destruct (m_freeList p) as [|i0 rest] eqn:Hfl; intros [= <- <-]; simpl.
  - (* a new slot *)
    rewrite wrap32_small by assumption.
    split_and!.
    + unfold alive_at, data_size. rewrite Nat2N.id.
      rewrite lookup_ge_None_2; [reflexivity | lia].
    + rewrite incr64_small by assumption. rewrite alive_count_app, Hcnt.
      simpl. lia.
    + now apply incr64_small.
    + constructor.
    + intros i. split; [intros H; inversion H|].
      intros [Hi Hd]. exfalso. unfold data_size in Hi. simpl in Hi.
      rewrite length_app in Hi. simpl in Hi.
      destruct (decide (N.to_nat i = length (m_alive p))) as [He|Hne].
      * unfold alive_at in Hd. simpl in Hd.
        rewrite He, lookup_app_r, Nat.sub_diag in Hd by lia. discriminate.
      * unfold alive_at in Hd. simpl in Hd.
        rewrite default_lookup_snoc_ne in Hd by assumption.
        assert (Hin : i ∈ (@nil N)).
        { apply Hfd. split; [unfold data_size; lia | exact Hd]. }
        inversion Hin.
    + intros i Hi. unfold alive_at. simpl.
      apply default_lookup_snoc_ne. unfold data_size in Hi. lia.
    + intros i Hi. unfold rc_at. simpl. apply default_lookup_snoc.
    + rewrite length_app. simpl. lia.
    + intros _. unfold data_size. simpl. rewrite length_app. simpl. lia.
    + intros Hne. now destruct Hne.
  - (* the front of the free list *)
    assert (Hi0 : i0 < data_size p /\ alive_at p i0 = false)
      by (apply Hfd; left).
    destruct Hi0 as [Hi0 Hd0]. unfold data_size in Hi0.
    apply NoDup_cons in Hnd as [Hnin Hnd'].
    assert (Hl0 : m_alive p !! N.to_nat i0 = Some false).
    { unfold alive_at in Hd0.
      destruct (lookup_lt_is_Some_2 (m_alive p) (N.to_nat i0) ltac:(lia)) as [b Hb].
      rewrite Hb in Hd0. simpl in Hd0. now subst b. }
    assert (Hothers : forall i, i <> i0 ->
              default false (<[N.to_nat i0 := true]> (m_alive p) !! N.to_nat i)
              = alive_at p i).
    { intros i Hi. rewrite lookup_default_insert.
      destruct (decide _) as [[He _]|_]; [|reflexivity].
      apply N2Nat.inj in He. congruence. }
    split_and!.
    + exact Hd0.
    + rewrite incr64_small by assumption. rewrite Hcnt.
      pose proof (alive_count_insert (m_alive p) _ _ true Hl0) as Hins.
      simpl in Hins. lia.
    + now apply incr64_small.
    + exact Hnd'.
    + intros i. unfold data_size, alive_at. simpl. rewrite length_insert.
      split.
      * intros Hin. assert (Hne : i <> i0) by (intros ->; contradiction).
        rewrite (Hothers i Hne). apply Hfd. now right.
      * intros [Hi Hd]. destruct (decide (i = i0)) as [->|Hne].
        -- rewrite list_lookup_insert_eq in Hd by lia. discriminate.
        -- rewrite (Hothers i Hne) in Hd.
           assert (Hin : i ∈ i0 :: rest) by (apply Hfd; now split).
           apply elem_of_cons in Hin as [?|?];
             [contradiction | assumption].
    + intros i Hi. unfold alive_at at 1. simpl. now apply Hothers.
    + intros i Hi. unfold rc_at. simpl. rewrite lookup_default_insert.
      destruct (decide _) as [[He _]|_]; [|reflexivity].
      apply N2Nat.inj in He. congruence.
    + rewrite length_insert. lia.
    + discriminate.
    + intros _. split; [|reflexivity].
      unfold data_size. simpl. now rewrite length_insert.
Qed.

(** [AddRef] keeps the invariant while the counter is below its
    maximum. *)
Lemma AddRef_inv k p h :
  pool_inv p -> bounded k p -> N.of_nat k < UINT32_MAX ->
  pool_inv (AddRef p h) /\ bounded (S k) (AddRef p h).
Proof.
  intros [Hwf Hcnt Hnd Hfd Hrc] [Hlen Hb] Hk.
  destruct (AddRef_frame p h) as (Ed & Eg & Ea & Ec & Ef & En & Em).
  assert (Hal : forall i, alive_at (AddRef p h) i = alive_at p i)
    by (intros i; unfold alive_at; now rewrite Ea).
  assert (Hrc' : forall i, rc_at p i <= rc_at (AddRef p h) i <= rc_at p i + 1).
  { intros i. rewrite AddRef_rc_at by assumption.
    destruct (decide _); [|lia].
    rewrite incr32_small; [lia|]. specialize (Hb i). lia. }
  split.
  - split.
    + now apply AddRef_wf.
    + now rewrite En, Ea.
    + now rewrite Ef.
    + intros i. rewrite Ef, Hal. unfold data_size. rewrite Ed. apply Hfd.
    + intros i Hi. rewrite Hal in Hi. specialize (Hrc i Hi).
      specialize (Hrc' i). lia.
  - split; [rewrite Ed; lia|].
    intros i. specialize (Hrc' i). specialize (Hb i). lia.
Qed.

Lemma bounded_mono k k' p : (k <= k')%nat -> bounded k p -> bounded k' p.
Proof.
  intros Hk [Hl Hb]. split; [lia|]. intros i. specialize (Hb i). lia.
Qed.

(** [Create] keeps the invariant, respects the capacity bound and
    leaves the reference counts of the other slots alone. *)
Lemma Create_inv k obj p r p' :
  pool_inv p -> bounded k p -> N.of_nat k < UINT32_MAX ->
  Create obj p = (r, p') ->
  pool_inv p' /\ bounded (S k) p' /\ count_step p p'.
Proof.
  intros Hinv Hbd Hk. unfold Create.
  destruct (CanCreate p) eqn:Hcan; simpl.
  2:{ intros [= <- <-]. split_and!; [assumption | | apply count_step_refl].
      eapply bounded_mono; [|exact Hbd]. lia. }
  destruct (AllocateSlot obj p) as [h p1] eqn:Hal. intros [= <- <-].
  destruct Hbd as [Hlen Hb].
  assert (Hsz : data_size p < 4294967296)
    by (unfold data_size, UINT32_MAX in *; lia).
  destruct (AllocateSlot_ok _ _ _ _ (inv_wf _ Hinv) Hsz Hal)
    as (Hwf1 & Hv & Hrc0 & _ & _ & _ & Hmax & _).
  destruct (AllocateSlot_inv _ _ _ _ Hinv Hsz Hal)
    as (_ & Hcnt1 & Hcnt2 & Hnd1 & Hfd1 & Hal1 & Hrc1 & Hlen1 & _).
  destruct (AddRef_frame p1 h) as (Ed & Eg & Ea & Ec & Ef & En & Em).
  assert (Hal' : forall i, alive_at (AddRef p1 h) i = alive_at p1 i)
    by (intros i; unfold alive_at; now rewrite Ea).
  assert (Hrc' : forall i, rc_at (AddRef p1 h) i =
                    if decide (i = index h) then 1 else rc_at p i).
  { intros i. rewrite AddRef_rc_at by assumption.
    destruct (decide (i = index h)) as [->|Hne].
    - destruct (decide _) as [_|Hn]; [now rewrite Hrc0 | destruct Hn; now split].
    - destruct (decide _) as [[_ ?]|_]; [contradiction | now apply Hrc1]. }
  split_and!.
  - split.
    + now apply AddRef_wf.
    + now rewrite En, Ea.
    + now rewrite Ef.
    + intros i. rewrite Ef, Hal'. unfold data_size. rewrite Ed. apply Hfd1.
    + intros i Hi. rewrite Hrc'. destruct (decide _); [lia|].
      rewrite Hal', Hal1 in Hi by assumption. now apply (inv_rc _ Hinv).
  - split; [rewrite Ed; lia|].
    intros i. rewrite Hrc'. destruct (decide _); [lia|].
    specialize (Hb i). lia.
  - split; [now rewrite Em|]. right. split; [assumption|]. now rewrite En.
Qed.

End Invariant_pool.

Section Invariant_world.

Context {T Hook : Type}.
Variable invoke : Hook -> World T Hook -> outcome (World T Hook).
Implicit Types (w : World T Hook) (p : Pool T Hook) (h : SlotHandle).

Lemma count_step_then_same p p1 p2 :
  count_step p p1 -> m_maxCapacity p2 = m_maxCapacity p1 ->
  m_count p2 = m_count p1 -> count_step p p2.
Proof. intros [Hm Hc] Em Ec. split; [congruence | now rewrite Ec]. Qed.

Lemma insert_None_id (l : list (option Hook)) (i : nat) :
  default None (l !! i) = None -> <[i := None]> l = l.
Proof.
  intros Hd. destruct (l !! i) as [o|] eqn:Hl.
  - simpl in Hd. subst o. now apply list_insert_id.
  - apply list_insert_ge. now apply lookup_ge_None.
Qed.

(** The pool that a removal leaves when the callbacks do not re-enter
    the pool. *)
Lemma RemoveInternal_quiet_pool h w :
  hooks_quiet invoke ->
  exists w',
    RemoveInternal invoke h w = Done w' /\
    pool w' =
      retire_slot (index h)
        (set_callbacks (pool w)
           (<[N.to_nat (index h) := None]> (m_onDestroyCallbacks (pool w)))).
Proof.
  intros Hq. destruct (cb_at (pool w) (index h)) as [hk|] eqn:Hcb.
  - rewrite (RemoveInternal_with_hook _ _ _ _ Hcb).
    destruct (Hq hk (mkWorld (pool w) (refs w) (calls w ++ [(index h, hk)])))
      as (w1 & -> & Hp1 & _). simpl in Hp1. simpl.
    eexists. split; [reflexivity|]. simpl. now rewrite Hp1.
  - rewrite (RemoveInternal_without_hook _ _ _ Hcb).
    eexists. split; [reflexivity|]. simpl.
    rewrite insert_None_id by exact Hcb. now destruct (pool w).
Qed.

(** Retiring an alive slot keeps the invariant. *)
Lemma retire_inv k p h (rcs : list N) (cbs : list (option Hook)) :
  pool_inv p -> bounded k p -> N.of_nat k <= UINT32_MAX ->
  valid_handle p h ->
  length rcs = length (m_refCounts p) ->
  length cbs = length (m_onDestroyCallbacks p) ->
  (forall j, j <> N.to_nat (index h) -> rcs !! j = m_refCounts p !! j) ->
  let p' := retire_slot (index h) (set_callbacks (set_refCounts p rcs) cbs) in
  pool_inv p' /\ bounded k p' /\ count_step p p'.
Proof.
  intros [Hwf Hcnt Hnd Hfd Hrc] [Hlen Hb] Hk Hv Hlr Hlc Hrcs p'.
  unfold UINT32_MAX in Hk.
  pose proof (valid_handle_in_range _ _ Hv) as Hr.
  destruct Hv as (Hi & Hal & _).
  pose proof (alive_count_le (m_alive p)) as Hac.
  pose proof (wf_alive _ Hwf) as Hla.
  assert (Hl1 : m_alive p !! N.to_nat (index h) = Some true)
    by (now apply alive_at_lookup).
  pose proof (alive_count_insert (m_alive p) _ _ false Hl1) as Hins.
  simpl in Hins.
  assert (Halive' : forall j, alive_at p' j =
                      if decide (j = index h) then false else alive_at p j).
  { intros j. unfold alive_at, p'. simpl. rewrite lookup_default_insert.
    destruct (decide (j = index h)) as [->|Hne].
    - destruct (decide _) as [_|Hn]; [reflexivity|].
      destruct Hn. split; [reflexivity | lia].
    - destruct (decide _) as [[He _]|_]; [|reflexivity].
      apply N2Nat.inj in He. congruence. }
  assert (Hrc' : forall j, j <> index h -> rc_at p' j = rc_at p j).
  { intros j Hne. unfold rc_at, p'. simpl.
    rewrite list_lookup_insert_ne by (intros He; apply N2Nat.inj in He; congruence).
    rewrite Hrcs; [reflexivity|]. intros He. apply N2Nat.inj in He. congruence. }
  assert (Hrc0 : rc_at p' (index h) = 0).
  { unfold rc_at, p'. simpl. rewrite list_lookup_insert_eq; [reflexivity|].
    rewrite Hlr, (wf_refCounts _ Hwf). exact Hr. }
  assert (Hnotin : index h ∉ m_freeList p).
  { intros Hin. apply Hfd in Hin as [_ Hd]. congruence. }
  split_and!.
  - split.
    + apply retire_slot_wf; [|exact Hi].
      apply set_callbacks_wf; [|exact Hlc].
      apply set_refCounts_wf; [exact Hwf | exact Hlr].
    + unfold p'. simpl. rewrite Hcnt, decr64_pos by lia. lia.
    + unfold p'. simpl. apply NoDup_app. split_and!; [assumption | | apply NoDup_singleton].
      intros x Hx Hx'. apply list_elem_of_singleton in Hx'. subst x. contradiction.
    + intros j. rewrite Halive'.
      change (m_freeList p') with (m_freeList p ++ [index h]).
      change (data_size p') with (data_size p).
      rewrite elem_of_app, list_elem_of_singleton, Hfd.
      destruct (decide (j = index h)) as [->|Hne]; [intuition|].
      intuition congruence.
    + intros j Hj. rewrite Halive' in Hj.
      destruct (decide (j = index h)); [discriminate|].
      rewrite Hrc' by assumption. now apply Hrc.
  - split; [exact Hlen|]. intros j.
    destruct (decide (j = index h)) as [->|Hne]; [rewrite Hrc0; lia|].
    rewrite Hrc' by assumption. apply Hb.
  - split; [reflexivity|]. left. unfold p'. simpl.
    rewrite Hcnt, decr64_pos by lia. lia.
Qed.

Lemma ReleaseRef_inv k h w :
  hooks_quiet invoke -> pool_inv (pool w) -> bounded k (pool w) ->
  N.of_nat k <= UINT32_MAX ->
  exists w',
    ReleaseRef invoke h w = Done w' /\
    pool_inv (pool w') /\ bounded k (pool w') /\
    count_step (pool w) (pool w').
Proof.
  intros Hq Hinv Hbd Hk. unfold ReleaseRef.
  destruct (IsValidHandle (pool w) h) eqn:Hvb.
  2:{ exists w. split_and!; auto. apply count_step_refl. }
  pose proof Hvb as Hv. apply IsValidHandle_true in Hv.
  pose proof (valid_handle_in_range _ _ Hv) as Hr.
  assert (Hal : alive_at (pool w) (index h) = true) by apply Hv.
  pose proof (inv_rc _ Hinv _ Hal) as Hrc1.
  pose proof (proj2 Hbd (index h)) as Hrcb.
  destruct (N.eqb_spec (rc_at (pool w) (index h)) 0) as [?|_]; [lia|].
  set (rcs := <[N.to_nat (index h) := decr32 (rc_at (pool w) (index h))]>
                (m_refCounts (pool w))).
  pose proof (inv_wf _ Hinv) as Hwf.
  assert (Hrcnew : rc_at (set_refCounts (pool w) rcs) (index h)
                   = rc_at (pool w) (index h) - 1).
  { unfold rc_at at 1, rcs. simpl. rewrite list_lookup_insert_eq.
    - simpl. apply decr32_pos; lia.
    - rewrite (wf_refCounts _ Hwf). exact Hr. }
  assert (Hrcs : forall j, j <> N.to_nat (index h) ->
                   rcs !! j = m_refCounts (pool w) !! j).
  { intros j Hj. unfold rcs. now apply list_lookup_insert_ne. }
  change (pool (with_pool w (set_refCounts (pool w) rcs)))
    with (set_refCounts (pool w) rcs).
  rewrite Hrcnew.
  destruct (N.eqb_spec (rc_at (pool w) (index h) - 1) 0) as [Hz|Hnz].
  - destruct (RemoveInternal_quiet_pool h
                (with_pool w (set_refCounts (pool w) rcs)) Hq)
      as (w' & Hrun & Hp').
    exists w'. split; [exact Hrun|]. rewrite Hp'. simpl.
    apply (retire_inv k (pool w) h rcs); auto.
    + unfold rcs. apply length_insert.
    + apply length_insert.
  - exists (with_pool w (set_refCounts (pool w) rcs)).
    split; [reflexivity|]. simpl.
    assert (Hrcj : forall j, j <> index h ->
              rc_at (set_refCounts (pool w) rcs) j = rc_at (pool w) j).
    { intros j Hj. unfold rc_at. simpl. rewrite Hrcs; [reflexivity|].
      intros He. apply N2Nat.inj in He. congruence. }
    split_and!.
    + destruct Hinv as [_ Hcnt Hnd Hfd Hrc]. split; auto.
      * apply set_refCounts_wf; [exact Hwf | apply length_insert].
      * intros j Hj. change (alive_at (set_refCounts (pool w) rcs) j)
          with (alive_at (pool w) j) in Hj.
        destruct (decide (j = index h)) as [->|Hne]; [rewrite Hrcnew; lia|].
        rewrite Hrcj by assumption. now apply Hrc.
    + split; [apply Hbd|]. intros j.
      destruct (decide (j = index h)) as [->|Hne]; [rewrite Hrcnew; lia|].
      rewrite Hrcj by assumption. apply Hbd.
    + split; [reflexivity | left; simpl; lia].
Qed.

Lemma Release_inv k r w :
  hooks_quiet invoke -> pool_inv (pool w) -> bounded k (pool w) ->
  N.of_nat k <= UINT32_MAX ->
  exists w',
    Release invoke r w = Done w' /\
    pool_inv (pool w') /\ bounded k (pool w') /\
    count_step (pool w) (pool w').
Proof.
  intros Hq Hinv Hbd Hk. unfold Release.
  destruct (SlotRef_IsValid (pool w) r).
  - now apply ReleaseRef_inv.
  - exists w. split_and!; auto. apply count_step_refl.
Qed.

Lemma acquire_inv k p r :
  pool_inv p -> bounded k p -> N.of_nat k < UINT32_MAX ->
  pool_inv (acquire p r) /\ bounded (S k) (acquire p r) /\
  m_maxCapacity (acquire p r) = m_maxCapacity p /\
  m_count (acquire p r) = m_count p.
Proof.
  intros Hinv Hbd Hk. unfold acquire.
  destruct (SlotRef_IsValid p r).
  - destruct (AddRef_inv k p (m_handle r) Hinv Hbd Hk) as [Hi Hb].
    destruct (AddRef_frame p (m_handle r)) as (_ & _ & _ & _ & _ & En & Em).
    auto.
  - split_and!; auto. eapply bounded_mono; [|exact Hbd]. lia.
Qed.

Lemma set_callbacks_inv k p (l : list (option Hook)) :
  pool_inv p -> bounded k p -> length l = length (m_onDestroyCallbacks p) ->
  pool_inv (set_callbacks p l) /\ bounded k (set_callbacks p l).
Proof.
  intros [Hwf Hcnt Hnd Hfd Hrc] Hbd Hl. split; [|exact Hbd].
  split; auto. now apply set_callbacks_wf.
Qed.

Lemma ShrinkToFit_inv k p :
  pool_inv p -> bounded k p ->
  pool_inv (ShrinkToFit p) /\ bounded k (ShrinkToFit p) /\
  count_step p (ShrinkToFit p).
Proof.
  intros [Hwf Hcnt Hnd Hfd Hrc] [Hlen Hb].
  pose proof (ShrinkToFit_take p Hwf) as Hp. simpl in Hp.
  set (n := shrink_scan p (length (m_data p))) in *.
  pose proof (shrink_scan_le p (length (m_data p))) as Hle. fold n in Hle.
  destruct Hwf as [Hg Ha Hr Hc Hf].
  assert (Hdead : forall j : nat, (n <= j < length (m_alive p))%nat ->
                    m_alive p !! j = Some false).
  { intros j Hj.
    pose proof (shrink_scan_dead p (length (m_data p)) j ltac:(fold n; lia)) as Hd.
    unfold alive_at in Hd. rewrite Nat2N.id in Hd.
    destruct (lookup_lt_is_Some_2 (m_alive p) j ltac:(lia)) as [b Hbj].
    rewrite Hbj in Hd. simpl in Hd. now subst b. }
  assert (Hal' : forall j, alive_at (ShrinkToFit p) j =
                   if decide (j < N.of_nat n) then alive_at p j else false).
  { intros j. rewrite Hp. unfold alive_at. simpl.
    destruct (decide (j < N.of_nat n)).
    - now rewrite lookup_take_lt by lia.
    - now rewrite lookup_take_ge by lia. }
  assert (Hrc' : forall j, rc_at (ShrinkToFit p) j =
                   if decide (j < N.of_nat n) then rc_at p j else 0).
  { intros j. rewrite Hp. unfold rc_at. simpl.
    destruct (decide (j < N.of_nat n)).
    - now rewrite lookup_take_lt by lia.
    - now rewrite lookup_take_ge by lia. }
  assert (Hsize : data_size (ShrinkToFit p) = N.of_nat n).
  { rewrite Hp. unfold data_size. simpl. rewrite length_take. lia. }
  split_and!.
  - split.
    + rewrite Hp. split; simpl; rewrite ?length_take; try lia.
      unfold data_size. simpl. rewrite length_take.
      apply Forall_forall. intros x Hx. apply list_elem_of_filter in Hx. lia.
    + rewrite Hp. simpl. rewrite alive_count_take by exact Hdead. exact Hcnt.
    + rewrite Hp. simpl. now apply NoDup_filter.
    + intros j. rewrite Hsize, Hal'. rewrite Hp at 1. simpl.
      rewrite list_elem_of_filter, Hfd. unfold data_size.
      destruct (decide (j < N.of_nat n)); [intuition lia | intuition lia].
    + intros j. rewrite Hal', Hrc'.
      destruct (decide (j < N.of_nat n)); [apply Hrc | discriminate].
  - split.
    + rewrite Hp. simpl. rewrite length_take. lia.
    + intros j. rewrite Hrc'. destruct (decide _); [apply Hb | lia].
  - rewrite Hp. split; [reflexivity | left; simpl; lia].
Qed.

End Invariant_world.

Section Invariant_run.

Context {T Hook : Type}.
Variable invoke : Hook -> World T Hook -> outcome (World T Hook).
Implicit Types (w : World T Hook) (p : Pool T Hook) (h : SlotHandle).
Implicit Types (ops : list (Op T Hook)).

Lemma empty_pool_inv (m : N) k :
  pool_inv (mkPool (T:=T) (Hook:=Hook) [] [] [] [] [] [] 0 m) /\
  bounded k (mkPool (T:=T) (Hook:=Hook) [] [] [] [] [] [] 0 m).
Proof.
  split.
  - split; simpl.
    + split; simpl; auto.
    + reflexivity.
    + constructor.
    + intros i. unfold data_size. simpl. split; [intros H; inversion H | lia].
    + intros i. discriminate.
  - split; [simpl; lia|].
    intros i. unfold rc_at. simpl. destruct (N.to_nat i); simpl; lia.
Qed.

Lemma SetMaxCapacity_inv k p n :
  pool_inv p -> bounded k p ->
  pool_inv (SetMaxCapacity p n) /\ bounded k (SetMaxCapacity p n).
Proof.
  intros [[Hg Ha Hr Hc Hf] Hcnt Hnd Hfd Hrc] Hbd. split; [|exact Hbd].
  split; auto. split; auto.
Qed.

Lemma SetOnDestroyCallback_inv k p h cb :
  pool_inv p -> bounded k p ->
  pool_inv (SetOnDestroyCallback p h cb) /\
  bounded k (SetOnDestroyCallback p h cb) /\
  count_step p (SetOnDestroyCallback p h cb).
Proof.
  intros Hinv Hbd. unfold SetOnDestroyCallback.
  destruct (IsValidHandle p h).
  - destruct (set_callbacks_inv k p
                (<[N.to_nat (index h) := cb]> (m_onDestroyCallbacks p)) Hinv Hbd)
      as [Hi Hb]; [apply length_insert|].
    split_and!; auto. split; [reflexivity | left; simpl; lia].
  - split_and!; auto. apply count_step_refl.
Qed.

(** One operation of a client, from a state that satisfies the
    invariant, with callbacks that do not re-enter the pool. *)
Lemma step_inv k gas op w :
  hooks_quiet invoke -> pool_inv (pool w) -> bounded k (pool w) ->
  N.of_nat k < UINT32_MAX -> (k < gas)%nat ->
  exists w',
    step invoke gas op w = Done w' /\
    pool_inv (pool w') /\ bounded (S k) (pool w') /\
    ((forall n, op <> OSetMaxCapacity n) -> count_step (pool w) (pool w')).
Proof.
  intros Hq Hinv Hbd Hk Hgas.
  assert (Hbd' : bounded (S k) (pool w))
    by (eapply bounded_mono; [|exact Hbd]; lia).
  assert (Hk' : N.of_nat k <= UINT32_MAX) by lia.
  assert (Hsame : forall w', pool w' = pool w ->
            pool_inv (pool w') /\ bounded (S k) (pool w') /\
            ((forall n, op <> OSetMaxCapacity n) -> count_step (pool w) (pool w'))).
  { intros w' ->. split_and!; auto. intros _. apply count_step_refl. }
  assert (Hrel : forall r w0, pool w0 = pool w ->
            forall finish : World T Hook -> World T Hook,
            (forall w1, pool (finish w1) = pool w1) ->
            exists w',
              (do w1 <- Release invoke r w0; Done (finish w1)) = Done w' /\
              pool_inv (pool w') /\ bounded (S k) (pool w') /\
              ((forall n, op <> OSetMaxCapacity n) ->
               count_step (pool w) (pool w'))).
  { intros r w0 Hw0 finish Hfin.
    destruct (Release_inv invoke k r w0 Hq) as (w1 & -> & Hi & Hb & Hc);
      rewrite ?Hw0; auto.
    simpl. eexists. split; [reflexivity|]. rewrite Hfin. split_and!; auto.
    - eapply bounded_mono; [|exact Hb]. lia.
    - intros _. now rewrite Hw0 in Hc. }
  destruct op; simpl.
  - (* Create *)
    eexists. split; [reflexivity|]. unfold create_at.
    destruct (Create obj (pool w)) as [r p1] eqn:Hc. simpl.
    destruct (Create_inv k _ _ _ _ Hinv Hbd Hk Hc) as (Hi & Hb & Hs). auto.
  - (* copy construction *)
    eexists. split; [reflexivity|]. unfold copy_construct.
    destruct (refs w !! src) as [other|]; [|now apply Hsame]. simpl.
    destruct (acquire_inv k (pool w) (mkRef (m_handle other) (m_slot other))
                Hinv Hbd Hk) as (Hi & Hb & Em & Ec).
    split_and!; auto. intros _. split; [exact Em | left; lia].
  - (* move construction *)
    eexists. split; [reflexivity|]. apply Hsame. unfold move_construct.
    now destruct (refs w !! src).
  - (* copy assignment *)
    unfold copy_assign. destruct (dst =? src)%nat; [exists w; now split; [|apply Hsame]|].
    destruct (refs w !! dst) as [this|]; [|exists w; now split; [|apply Hsame]].
    destruct (Release_inv invoke k this w Hq Hinv Hbd Hk') as (w1 & -> & Hi & Hb & Hc).
    simpl. destruct (refs w1 !! src) as [other|].
    + eexists. split; [reflexivity|]. simpl.
      destruct (acquire_inv k (pool w1) (mkRef (m_handle other) (m_slot other))
                  Hi Hb Hk) as (Hi' & Hb' & Em & Ec).
      split_and!; auto. intros _. eapply count_step_then_same; eauto.
    + exists w1. split; [reflexivity|]. split_and!; auto.
      eapply bounded_mono; [|exact Hb]. lia.
  - (* move assignment *)
    unfold move_assign. destruct (dst =? src)%nat; [exists w; now split; [|apply Hsame]|].
    destruct (refs w !! dst) as [this|]; [|exists w; now split; [|apply Hsame]].
    destruct (Release_inv invoke k this w Hq Hinv Hbd Hk') as (w1 & -> & Hi & Hb & Hc).
    simpl. assert (Hb1 : bounded (S k) (pool w1))
      by (eapply bounded_mono; [|exact Hb]; lia).
    destruct (refs w1 !! src) as [other|]; eexists; (split; [reflexivity|]);
      simpl; auto.
  - (* move to a temporary *)
    unfold move_to_temporary.
    destruct (refs w !! x) as [other|]; [|exists w; now split; [|apply Hsame]].
    destruct (Hrel (mkRef (m_handle other) (m_slot other))
                (with_ref w x SlotRef_empty) eq_refl (fun w1 => w1))
      as (w' & Hrun & Hrest); [reflexivity|].
    exists w'. split; [|exact Hrest].
    destruct (Release invoke _ _); simpl in Hrun; congruence.
  - (* Reset *)
    unfold Reset.
    destruct (refs w !! x) as [this|]; [|exists w; now split; [|apply Hsame]].
    now apply (Hrel this w eq_refl (fun w1 => with_ref w1 x SlotRef_empty)).
  - (* destruction *)
    unfold destroy.
    destruct (refs w !! x) as [this|]; [|exists w; now split; [|apply Hsame]].
    now apply (Hrel this w eq_refl (fun w1 => without_ref w1 x)).
  - (* SetOnDestroy *)
    eexists. split; [reflexivity|]. unfold SetOnDestroy.
    destruct (refs w !! x) as [this|]; [|now apply Hsame].
    destruct (SlotRef_IsValid (pool w) this); [|now apply Hsame]. simpl.
    destruct (SetOnDestroyCallback_inv k (pool w) (m_handle this) callback Hinv Hbd)
      as (Hi & Hb & Hc).
    split_and!; auto. eapply bounded_mono; [|exact Hb]. lia.
  - (* ClearOnDestroy *)
    eexists. split; [reflexivity|]. unfold ClearOnDestroy.
    destruct (refs w !! x) as [this|]; [|now apply Hsame].
    destruct (SlotRef_IsValid (pool w) this); [|now apply Hsame]. simpl.
    destruct (SetOnDestroyCallback_inv k (pool w) (m_handle this) None Hinv Hbd)
      as (Hi & Hb & Hc).
    change (ClearOnDestroyCallback (pool w) (m_handle this))
      with (SetOnDestroyCallback (pool w) (m_handle this) None).
    split_and!; auto. eapply bounded_mono; [|exact Hb]. lia.
  - (* SetMaxCapacity *)
    eexists. split; [reflexivity|]. simpl.
    destruct (SetMaxCapacity_inv (S k) (pool w) maxCapacity Hinv Hbd') as [Hi Hb].
    split_and!; auto. intros Hn. now destruct (Hn maxCapacity).
  - (* Reserve *)
    eexists. split; [reflexivity|]. now apply Hsame.
  - (* ShrinkToFit *)
    eexists. split; [reflexivity|]. simpl.
    destruct (ShrinkToFit_inv k (pool w) Hinv Hbd) as (Hi & Hb & Hc).
    split_and!; auto. eapply bounded_mono; [|exact Hb]. lia.
  - (* Clear *)
    destruct (Clear_loop_quiet invoke Hq gas 0 w) as (w1 & Hrun & Hp1 & _).
    { destruct Hbd as [Hlen _]. lia. }
    unfold Clear. change (N.of_nat 0) with 0 in Hrun. rewrite Hrun. simpl.
    eexists. split; [reflexivity|]. simpl.
    destruct (empty_pool_inv (m_maxCapacity (pool w1)) (S k)) as [Hi Hb].
    split_and!; auto. intros _. split; [simpl; now rewrite Hp1 | left; simpl; lia].
Qed.

(** A whole program. *)
Lemma run_inv gas ops : forall k w,
  hooks_quiet invoke -> pool_inv (pool w) -> bounded k (pool w) ->
  N.of_nat (k + length ops) <= UINT32_MAX -> (k + length ops <= gas)%nat ->
  exists w',
    run invoke gas ops w = Done w' /\
    pool_inv (pool w') /\ bounded (k + length ops) (pool w') /\
    (forallb (fun op => match op with OSetMaxCapacity _ => false | _ => true end)
       ops = true ->
     cap_ok (pool w) -> cap_ok (pool w')).
Proof.
  induction ops as [|op rest IH]; intros k w Hq Hinv Hbd Hk Hgas.
  - exists w. simpl. rewrite Nat.add_0_r. split_and!; auto.
  - simpl length in *.
    destruct (step_inv k gas op w Hq Hinv Hbd ltac:(lia) ltac:(lia))
      as (w1 & Hs & Hi1 & Hb1 & Hc1).
    destruct (IH (S k) w1 Hq Hi1 Hb1 ltac:(lia) ltac:(lia))
      as (w' & Hr & Hi' & Hb' & Hc').
    exists w'. simpl. rewrite Hs. simpl.
    replace (k + S (length rest))%nat with (S k + length rest)%nat by lia.
    split_and!; auto.
    intros Hops Hcap. apply andb_prop in Hops as [Hop Hrest].
    apply Hc'; [exact Hrest|].
    eapply cap_ok_step; [exact Hcap|]. apply Hc1.
    intros n ->. discriminate.
Qed.

End Invariant_run.

Section Invariant_theorems.

Context {T Hook : Type}.
Variable invoke : Hook -> World T Hook -> outcome (World T Hook).
Implicit Types (w : World T Hook) (p : Pool T Hook) (h : SlotHandle).
Implicit Types (ops : list (Op T Hook)).


(** X10. At the end of such a program the pool satisfies its invariant
    again: the parallel vectors have one length, [Count()] is the number
    of alive slots and at most [Capacity()], the free list holds exactly
    the dead slots of the storage, each once, and every valid handle
    has a reference count of at least one. *)
Theorem client_program_keeps_invariant gas ops k w w' :
  hooks_quiet invoke -> pool_inv (pool w) -> bounded k (pool w) ->
  N.of_nat (k + length ops) <= UINT32_MAX -> (k + length ops <= gas)%nat ->
  run invoke gas ops w = Done w' ->
  pool_inv (pool w') /\
  Count (pool w') = N.of_nat (alive_count (m_alive (pool w'))) /\
  Count (pool w') <= Capacity (pool w') /\
  NoDup (m_freeList (pool w')) /\
  (forall i, i ∈ m_freeList (pool w') <->
             i < Capacity (pool w') /\ alive_at (pool w') i = false) /\
  (forall h, valid_handle (pool w') h -> 1 <= GetRefCount (pool w') h).
Proof.
  intros Hq Hinv Hbd Hk Hgas Hrun.
  destruct (run_inv invoke gas ops k w Hq Hinv Hbd Hk Hgas)
    as (w0 & Hr & Hi & _).
  rewrite Hrun in Hr. injection Hr as <-.
  split; [exact Hi|]. destruct Hi as [Hwf Hcnt Hnd Hfd Hrc].
  split_and!; auto.
  - unfold Count, Capacity, data_size. rewrite Hcnt.
    pose proof (alive_count_le (m_alive (pool w'))) as Hle.
    rewrite (wf_alive _ Hwf) in Hle. lia.
  - intros h Hv. pose proof Hv as Hb. apply IsValidHandle_true in Hb.
    unfold GetRefCount. rewrite Hb. simpl. apply Hrc, Hv.
Qed.

(** X11. A program that does not call [SetMaxCapacity] never takes the
    number of elements above the capacity bound: when the pool is
    unbounded or holds at most [m_maxCapacity] elements at the start,
    the same is true at the end. *)
Theorem client_program_respects_capacity gas ops k w w' :
  hooks_quiet invoke -> pool_inv (pool w) -> bounded k (pool w) ->
  N.of_nat (k + length ops) <= UINT32_MAX -> (k + length ops <= gas)%nat ->
  forallb (fun op => match op with OSetMaxCapacity _ => false | _ => true end)
    ops = true ->
  m_maxCapacity (pool w) = 0 \/ Count (pool w) <= m_maxCapacity (pool w) ->
  run invoke gas ops w = Done w' ->
  m_maxCapacity (pool w') = 0 \/ Count (pool w') <= m_maxCapacity (pool w').
Proof.
  intros Hq Hinv Hbd Hk Hgas Hops Hcap Hrun.
  destruct (run_inv invoke gas ops k w Hq Hinv Hbd Hk Hgas)
    as (w0 & Hr & _ & _ & Hc).
  rewrite Hrun in Hr. injection Hr as <-. now apply Hc.
Qed.

Lemma AllocateSlot_others obj p h p1 :
  AllocateSlot obj p = (h, p1) ->
  forall j : nat, (j < length (m_data p))%nat -> j <> N.to_nat (index h) ->
    m_data p1 !! j = m_data p !! j.
Proof.
  unfold AllocateSlot. destruct (m_freeList p); intros [= <- <-] j Hj Hne; simpl in *.
  - now apply lookup_app_l.
  - now apply list_lookup_insert_ne.
Qed.


End Invariant_theorems.

(** ** Copies, moves and drops of one element, and its callback *)

Section Lifetime.

Context {T Hook : Type}.
Variable invoke : Hook -> World T Hook -> outcome (World T Hook).
Implicit Types (w : World T Hook) (p : Pool T Hook) (h : SlotHandle).
Implicit Types (S : gset nat) (ops : list (Op T Hook)).

(** The objects that hold a reference to one element, through copy
    constructions, move constructions (the new object takes the place of
    the source among the holders), drops by [Reset], destruction or a
    move into a temporary, and [SetOnDestroy] and [ClearOnDestroy]
    through a holder.  [None] when the sequence is not of that form. *)
Fixpoint holders_after S ops : option (gset nat) :=
  match ops with
  | [] => Some S
  | OCopyConstruct dst src :: rest =>
      if decide (src ∈ S /\ dst ∉ S) then holders_after ({[dst]} ∪ S) rest
      else None
  | OMoveConstruct dst src :: rest =>
      if decide (src ∈ S /\ dst ∉ S)
      then holders_after ({[dst]} ∪ (S ∖ {[src]})) rest
      else None
  | OReset x :: rest | ODestroy x :: rest | OMoveToTemporary x :: rest =>
      if decide (x ∈ S) then holders_after (S ∖ {[x]}) rest else None
  | OSetOnDestroy x _ :: rest | OClearOnDestroy x :: rest =>
      if decide (x ∈ S) then holders_after S rest else None
  | _ => None
  end.

(** The callback stored for the element after the sequence: the one set
    last through any holder, none after [ClearOnDestroy]. *)
Fixpoint callback_after (cb : option Hook) ops : option Hook :=
  match ops with
  | [] => cb
  | OSetOnDestroy _ cb' :: rest => callback_after cb' rest
  | OClearOnDestroy _ :: rest => callback_after None rest
  | _ :: rest => callback_after cb rest
  end.

Fixpoint releases ops : nat :=
  match ops with
  | [] => O
  | OReset _ :: rest | ODestroy _ :: rest | OMoveToTemporary _ :: rest =>
      Datatypes.S (releases rest)
  | _ :: rest => releases rest
  end.

(** What the record of invocations gains when the element goes. *)
Definition fired h (cb : option Hook) : list (N * Hook) :=
  match cb with
  | Some hk => [(index h, hk)]
  | None => []
  end.

(** The accounting of [counted], with the callback of the slot and the
    record of invocations: while there is a holder the callback is
    stored and has not run; with no holder left it has run once. *)
Definition tracked h (cb : option Hook) (c0 : list (N * Hook)) S w : Prop :=
  counted h S w /\
  (S <> ∅ -> cb_at (pool w) (index h) = cb /\ calls w = c0) /\
  (S = ∅ -> calls w = c0 ++ fired h cb).

Lemma Release_tracked h w c :
  hooks_quiet invoke -> pool_wf (pool w) -> valid_handle (pool w) h ->
  rc_at (pool w) (index h) = c -> 0 < c <= UINT32_MAX ->
  exists w',
    Release invoke (mkRef h ThePool) w = Done w' /\ pool_wf (pool w') /\
    (1 < c -> refs w' = refs w /\ calls w' = calls w /\
              valid_handle (pool w') h /\
              rc_at (pool w') (index h) = c - 1 /\
              cb_at (pool w') (index h) = cb_at (pool w) (index h)) /\
    (c = 1 -> ~ valid_handle (pool w') h /\
              calls w' = calls w ++ fired h (cb_at (pool w) (index h))).
Proof.
  intros Hq Hwf Hv Hrc Hc. unfold Release, SlotRef_IsValid, ReleaseRef. simpl.
  pose proof (valid_handle_in_range _ _ Hv) as Hr.
  pose proof Hv as Hb. apply IsValidHandle_true in Hb. rewrite Hb, Hrc.
  destruct (N.eqb_spec c 0) as [?|_]; [lia|].
  set (p1 := set_refCounts (pool w) _).
  assert (Hwf1 : pool_wf p1)
    by (apply set_refCounts_wf; [assumption | now rewrite length_insert]).
  assert (Hrc1 : rc_at p1 (index h) = c - 1).
  { unfold rc_at, p1. simpl. rewrite list_lookup_insert_eq.
    - simpl. apply decr32_pos; lia.
    - rewrite (wf_refCounts _ Hwf). exact Hr. }
  change (pool (with_pool w p1)) with p1. rewrite Hrc1.
  destruct (N.eqb_spec (c - 1) 0) as [Hz|Hnz].
  - destruct (RemoveInternal_quiet invoke h (with_pool w p1) Hq Hwf1)
      as (w' & Hrun & Hwf' & Hnv & _ & Hcalls).
    { destruct Hv as (Hi & _). exact Hi. }
    exists w'. split_and!; [assumption | assumption | intros ?; exfalso; lia |].
    intros _. split; [assumption|]. rewrite Hcalls. simpl.
    change (cb_at p1 (index h)) with (cb_at (pool w) (index h)).
    unfold fired. now destruct (cb_at (pool w) (index h)).
  - exists (with_pool w p1).
    split_and!; [reflexivity | assumption | | intros ?; exfalso; lia].
    intros _. split_and!; auto.
Qed.

Lemma size_remove S x : x ∈ S -> size S = Datatypes.S (size (S ∖ {[x]})).
Proof.
  intros Hx. rewrite (union_difference_L {[x]} S) at 1 by set_solver.
  rewrite size_union by set_solver. now rewrite size_singleton.
Qed.

Lemma tracked_drop h cb c0 S w x (pre finish : World T Hook -> World T Hook) :
  hooks_quiet invoke -> tracked h cb c0 S w -> x ∈ S ->
  N.of_nat (size S) <= UINT32_MAX ->
  pool (pre w) = pool w -> calls (pre w) = calls w ->
  (forall y, y <> x -> refs (pre w) !! y = refs w !! y) ->
  (forall w1, pool (finish w1) = pool w1 /\ calls (finish w1) = calls w1) ->
  (forall w1 y, y <> x -> refs (finish w1) !! y = refs w1 !! y) ->
  exists w',
    (do w1 <- Release invoke (mkRef h ThePool) (pre w); Done (finish w1)) = Done w' /\
    tracked h cb c0 (S ∖ {[x]}) w'.
Proof.
  intros Hq ((Hwf & Hrefs & Hne & _) & Hcb & _) Hx Hbound Hpp Hpc Hpr Hfin Hfr.
  assert (HS : S <> ∅) by set_solver.
  destruct (Hne HS) as [Hv Hrc]. destruct (Hcb HS) as [Hcbv Hcalls].
  pose proof (size_remove S x Hx) as Hsz.
  destruct (Release_tracked h (pre w) (N.of_nat (size S)) Hq)
    as (w1 & -> & Hwf1 & Hmany & Hlast); rewrite ?Hpp; auto; [lia|].
  rewrite Hpp in Hmany, Hlast.
  simpl. eexists. split; [reflexivity|].
  destruct (Hfin w1) as [Hfp Hfc].
  unfold tracked, counted. rewrite Hfp, Hfc.
  destruct (decide (size (S ∖ {[x]}) = O)) as [Hz|Hnz].
  - apply size_empty_inv in Hz. apply leibniz_equiv in Hz. rewrite Hz.
    destruct (Hlast ltac:(rewrite Hsz, Hz, size_empty; reflexivity)) as [Hnv Hcl].
    split_and!.
    + assumption.
    + intros y Hy. set_solver.
    + intros Hc. now destruct Hc.
    + intros _. assumption.
    + intros Hc. now destruct Hc.
    + intros _. now rewrite Hcl, Hpc, Hcalls, Hcbv.
  - destruct (Hmany ltac:(lia)) as (Hr1 & Hc1 & Hv1 & Hrc1 & Hcb1).
    assert (HS' : S ∖ {[x]} <> ∅).
    { intros He. rewrite He, size_empty in Hnz. now destruct Hnz. }
    split_and!.
    + assumption.
    + intros y Hy. rewrite Hfr by set_solver. rewrite Hr1.
      rewrite Hpr by set_solver. apply Hrefs. set_solver.
    + intros _. split; [assumption|]. rewrite Hrc1. lia.
    + intros He. contradiction.
    + intros _. split; [now rewrite Hcb1, Hcbv | now rewrite Hc1, Hpc].
    + intros He. contradiction.
Qed.

Lemma SetOnDestroyCallback_cb_at p h cb :
  pool_wf p -> valid_handle p h ->
  cb_at (SetOnDestroyCallback p h cb) (index h) = cb.
Proof.
  intros Hwf Hv. pose proof (valid_handle_in_range _ _ Hv) as Hr.
  apply IsValidHandle_true in Hv. unfold SetOnDestroyCallback. rewrite Hv.
  unfold cb_at. simpl. rewrite list_lookup_insert_eq; [reflexivity|].
  now rewrite (wf_callbacks _ Hwf).
Qed.

Lemma tracked_set_callback h cb cb' c0 S w x :
  tracked h cb c0 S w -> x ∈ S ->
  tracked h cb' c0 S (SetOnDestroy x cb' w).
Proof.
  intros ((Hwf & Hrefs & Hne & Hemp) & Hcb & Hcl) Hx.
  assert (HS : S <> ∅) by set_solver.
  destruct (Hne HS) as [Hv Hrc]. destruct (Hcb HS) as [_ Hcalls].
  unfold SetOnDestroy. rewrite (Hrefs _ Hx).
  assert (Hvb : SlotRef_IsValid (pool w) (mkRef h ThePool) = true)
    by (apply SlotRef_IsValid_true; now split).
  rewrite Hvb. simpl.
  destruct (SetOnDestroyCallback_frame (pool w) h cb') as [Hfv Hfr].
  unfold tracked, counted. simpl. split_and!.
  - now apply SetOnDestroyCallback_wf.
  - exact Hrefs.
  - intros _. split; [now apply Hfv | now rewrite Hfr].
  - intros He. contradiction.
  - intros _. split; [now apply SetOnDestroyCallback_cb_at | exact Hcalls].
  - intros He. contradiction.
Qed.

Lemma tracked_run gas h c0 ops : forall cb S w S',
  hooks_quiet invoke -> tracked h cb c0 S w ->
  holders_after S ops = Some S' ->
  N.of_nat (size S + copies ops) <= UINT32_MAX ->
  exists w',
    run invoke gas ops w = Done w' /\
    tracked h (callback_after cb ops) c0 S' w' /\
    (size S' + releases ops = size S + copies ops)%nat.
Proof.
  induction ops as [|op rest IH]; intros cb S w S' Hq Htr Hown Hbound.
  - injection Hown as <-. exists w. simpl. split_and!; auto.
  - destruct op; simpl in Hown; try discriminate.
    + (* copy construction *)
      destruct (decide _) as [[Hsrc Hdst]|]; [|discriminate].
      destruct Htr as ((Hwf & Hrefs & Hne & _) & Hcb & _).
      assert (HS : S <> ∅) by set_solver.
      destruct (Hne HS) as [Hv Hrc]. destruct (Hcb HS) as [Hcbv Hcalls].
      assert (Hsz : size ({[dst]} ∪ S) = Datatypes.S (size S)).
      { rewrite size_union by set_solver. now rewrite size_singleton. }
      simpl in Hbound.
      destruct (IH cb ({[dst]} ∪ S) (copy_construct dst src w) S' Hq)
        as (w' & Hrun & Htr' & Hsize); [| assumption | lia |].
      * rewrite (copy_construct_spec _ _ _ _ (Hrefs _ Hsrc)).
        rewrite acquire_valid
          by (apply SlotRef_IsValid_true; split; [reflexivity | exact Hv]).
        destruct (AddRef_frame (pool w) h) as (_ & _ & _ & Ec & _).
        unfold tracked, counted. simpl. split_and!.
        -- now apply AddRef_wf.
        -- intros y Hy. destruct (decide (y = dst)) as [->|Hyd].
           ++ apply lookup_insert_eq.
           ++ rewrite lookup_insert_ne by congruence. apply Hrefs. set_solver.
        -- intros _. split; [now apply AddRef_valid_handle|].
           rewrite AddRef_rc_at by assumption.
           destruct (decide _) as [_|Hn]; [| now destruct Hn].
           rewrite Hrc, Hsz. rewrite incr32_small; lia.
        -- intros He. set_solver.
        -- intros _. split; [|assumption]. unfold cb_at. now rewrite Ec.
        -- intros He. set_solver.
      * exists w'. simpl. split_and!; auto. simpl. lia.
    + (* move construction *)
      destruct (decide _) as [[Hsrc Hdst]|]; [|discriminate].
      destruct Htr as ((Hwf & Hrefs & Hne & _) & Hcb & _).
      assert (HS : S <> ∅) by set_solver.
      assert (Hds : dst <> src) by set_solver.
      assert (Hsz : size ({[dst]} ∪ S ∖ {[src]}) = size S).
      { rewrite size_union by set_solver.
        rewrite size_singleton, (size_remove S src Hsrc). lia. }
      simpl in Hbound.
      destruct (IH cb ({[dst]} ∪ S ∖ {[src]}) (move_construct dst src w) S' Hq)
        as (w' & Hrun & Htr' & Hsize); [| assumption | lia |].
      * unfold move_construct. rewrite (Hrefs _ Hsrc). simpl.
        unfold tracked, counted. simpl. split_and!.
        -- assumption.
        -- intros y Hy. destruct (decide (y = dst)) as [->|Hyd].
           ++ rewrite lookup_insert_ne by congruence. apply lookup_insert_eq.
           ++ rewrite !lookup_insert_ne by set_solver. apply Hrefs. set_solver.
        -- intros _. rewrite Hsz. now apply Hne.
        -- intros He. set_solver.
        -- intros _. now apply Hcb.
        -- intros He. set_solver.
      * exists w'. simpl. split_and!; auto. simpl. lia.
    + (* move to a temporary *)
      destruct (decide _) as [Hx|]; [|discriminate].
      simpl in Hbound.
      destruct (tracked_drop h cb c0 S w x
                  (fun w0 => with_ref w0 x SlotRef_empty) (fun w1 => w1)
                  Hq Htr Hx ltac:(lia))
        as (w1 & Hrun1 & Htr1); auto.
      { intros y Hy. simpl. now rewrite lookup_insert_ne by congruence. }
      pose proof (size_remove S x Hx) as Hsz.
      destruct (IH cb (S ∖ {[x]}) w1 S' Hq Htr1 Hown ltac:(lia))
        as (w' & Hrun & Htr' & Hsize).
      exists w'. simpl. unfold move_to_temporary.
      destruct Htr as ((_ & Hrefs & _) & _). rewrite (Hrefs _ Hx). simpl.
      destruct (Release invoke _ _) as [w2| |]; simpl in Hrun1; try discriminate.
      injection Hrun1 as ->. simpl. split_and!; auto. lia.
    + (* Reset *)
      destruct (decide _) as [Hx|]; [|discriminate].
      simpl in Hbound.
      destruct (tracked_drop h cb c0 S w x (fun w0 => w0)
                  (fun w1 => with_ref w1 x SlotRef_empty)
                  Hq Htr Hx ltac:(lia))
        as (w1 & Hrun1 & Htr1); auto.
      { intros w1 y Hy. simpl. now rewrite lookup_insert_ne by congruence. }
      pose proof (size_remove S x Hx) as Hsz.
      destruct (IH cb (S ∖ {[x]}) w1 S' Hq Htr1 Hown ltac:(lia))
        as (w' & Hrun & Htr' & Hsize).
      exists w'. simpl. unfold Reset.
      destruct Htr as ((_ & Hrefs & _) & _). rewrite (Hrefs _ Hx), Hrun1. simpl.
      split_and!; auto. lia.
    + (* destruction *)
      destruct (decide _) as [Hx|]; [|discriminate].
      simpl in Hbound.
      destruct (tracked_drop h cb c0 S w x (fun w0 => w0)
                  (fun w1 => without_ref w1 x)
                  Hq Htr Hx ltac:(lia))
        as (w1 & Hrun1 & Htr1); auto.
      { intros w1 y Hy. simpl. now rewrite lookup_delete_ne by congruence. }
      pose proof (size_remove S x Hx) as Hsz.
      destruct (IH cb (S ∖ {[x]}) w1 S' Hq Htr1 Hown ltac:(lia))
        as (w' & Hrun & Htr' & Hsize).
      exists w'. simpl. unfold destroy.
      destruct Htr as ((_ & Hrefs & _) & _). rewrite (Hrefs _ Hx), Hrun1. simpl.
      split_and!; auto. lia.
    + (* SetOnDestroy *)
      destruct (decide _) as [Hx|]; [|discriminate].
      simpl in Hbound.
      destruct (IH callback S (SetOnDestroy x callback w) S' Hq
                  (tracked_set_callback h cb callback c0 S w x Htr Hx) Hown
                  ltac:(lia))
        as (w' & Hrun & Htr' & Hsize).
      exists w'. simpl. split_and!; auto.
    + (* ClearOnDestroy *)
      destruct (decide _) as [Hx|]; [|discriminate].
      simpl in Hbound.
      destruct (IH None S (ClearOnDestroy x w) S' Hq
                  (tracked_set_callback h cb None c0 S w x Htr Hx) Hown
                  ltac:(lia))
        as (w' & Hrun & Htr' & Hsize).
      exists w'. simpl. split_and!; auto.
Qed.

End Lifetime.

Arguments holders_after {T Hook}.
Arguments callback_after {T Hook}.
Arguments releases {T Hook}.
Arguments fired {Hook}.

Section Lifetime_from_Create.

Context {T Hook : Type}.
Variable invoke : Hook -> World T Hook -> outcome (World T Hook).
Implicit Types (w : World T Hook) (p : Pool T Hook) (h : SlotHandle).
Implicit Types (S : gset nat) (ops : list (Op T Hook)).

Lemma tracked_after_Create w0 x0 obj cb :
  pool_wf (pool w0) -> data_size (pool w0) < 4294967296 ->
  CanCreate (pool w0) = true ->
  exists h, tracked h cb (calls w0) {[x0]}
              (SetOnDestroy x0 cb (create_at x0 obj w0)).
Proof.
  intros Hwf Hsz Hcan. unfold create_at.
  destruct (Create obj (pool w0)) as [r p1] eqn:Hcr.
  destruct (Create_ok _ _ _ _ Hwf Hsz Hcan Hcr)
    as (Hwf1 & Hslot & Hv & Huse & _).
  destruct r as [h sl]. simpl in Hslot. subst sl. exists h.
  unfold SetOnDestroy. simpl. rewrite lookup_insert_eq. rewrite Hv.
  destruct (SetOnDestroyCallback_frame p1 h cb) as [Hfv Hfr].
  pose proof Hv as Hvh. apply SlotRef_IsValid_true in Hvh as [_ Hvh].
  unfold tracked, counted. split_and!.
  - simpl. now apply SetOnDestroyCallback_wf.
  - intros y Hy. apply elem_of_singleton in Hy as ->. apply lookup_insert_eq.
  - intros _. rewrite size_singleton. simpl. split.
    + now apply Hfv.
    + rewrite Hfr.
      unfold UseCount, GetRefCount in Huse. rewrite Hv in Huse. simpl in Huse.
      unfold SlotRef_IsValid in Hv. simpl in Hv. rewrite Hv in Huse. exact Huse.
  - intros He. destruct (non_empty_singleton_L (C:=gset nat) x0 He).
  - intros _. simpl. split; [|reflexivity].
    unfold SetOnDestroyCallback. unfold SlotRef_IsValid in Hv. simpl in Hv.
    rewrite Hv. unfold cb_at. simpl. rewrite list_lookup_insert_eq; [reflexivity|].
    rewrite (wf_callbacks _ Hwf1). now apply valid_handle_in_range.
  - intros He. destruct (non_empty_singleton_L (C:=gset nat) x0 He).
Qed.

(** X13. Moving a reference does not count: after [Create] into the
    object at [x0], over any sequence of copy constructions, move
    constructions and drops (by [Reset], by destruction or by a move into
    a temporary) of objects that hold the reference, each holder reads
    [UseCount()] = copies made minus references released, the one from
    [Create] included; the holders are the objects copied or moved
    into and not since moved from or dropped.  Setting or clearing the
    callback through a holder does not count either. *)
Theorem moves_do_not_change_UseCount gas w0 x0 obj cb ops S' :
  hooks_quiet invoke ->
  pool_wf (pool w0) -> data_size (pool w0) < 4294967296 ->
  CanCreate (pool w0) = true ->
  holders_after {[x0]} ops = Some S' ->
  N.of_nat (1 + copies ops) <= UINT32_MAX ->
  let w1 := SetOnDestroy x0 cb (create_at x0 obj w0) in
  exists h w',
    refs w1 !! x0 = Some (mkRef h ThePool) /\
    run invoke gas ops w1 = Done w' /\
    (releases ops <= 1 + copies ops)%nat /\
    size S' = (1 + copies ops - releases ops)%nat /\
    (forall y, y ∈ S' ->
       refs w' !! y = Some (mkRef h ThePool) /\
       UseCount (pool w') (mkRef h ThePool) =
         N.of_nat (1 + copies ops - releases ops)).
Proof.
  intros Hq Hwf Hsz Hcan Hown Hbound w1.
  destruct (tracked_after_Create w0 x0 obj cb Hwf Hsz Hcan) as [h Htr].
  fold w1 in Htr.
  destruct (tracked_run invoke gas h (calls w0) ops cb {[x0]} w1 S' Hq Htr Hown)
    as (w' & Hrun & Htr' & Hsize).
  { rewrite size_singleton. exact Hbound. }
  rewrite size_singleton in Hsize.
  exists h, w'. split_and!.
  - destruct Htr as ((_ & Hrefs & _) & _). apply Hrefs. set_solver.
  - exact Hrun.
  - lia.
  - lia.
  - intros y Hy. destruct Htr' as ((_ & Hrefs & Hne & _) & _).
    split; [now apply Hrefs|].
    destruct (Hne ltac:(set_solver)) as [Hv Hrc].
    apply IsValidHandle_true in Hv.
    unfold UseCount, GetRefCount, SlotRef_IsValid. simpl. rewrite Hv. simpl.
    rewrite Hrc. f_equal. lia.
Qed.

(** X14. An element has one destroy callback, shared by the objects
    that hold it, and it runs when the last holder is dropped, and only
    then.  Over the same sequences, in which any holder may call
    [SetOnDestroy] or [ClearOnDestroy]: while a holder remains no
    invocation has been recorded, the callback stored is the one set
    last and the handle is valid; once the last holder is dropped the
    record has gained exactly one invocation, of the callback set last
    for that slot (none when none was set or it was cleared), and the
    handle is invalid. *)
Theorem callback_runs_once_at_last_drop gas w0 x0 obj cb ops S' :
  hooks_quiet invoke ->
  pool_wf (pool w0) -> data_size (pool w0) < 4294967296 ->
  CanCreate (pool w0) = true ->
  holders_after {[x0]} ops = Some S' ->
  N.of_nat (1 + copies ops) <= UINT32_MAX ->
  let w1 := SetOnDestroy x0 cb (create_at x0 obj w0) in
  exists h w',
    refs w1 !! x0 = Some (mkRef h ThePool) /\
    run invoke gas ops w1 = Done w' /\
    (S' <> ∅ ->
       calls w' = calls w0 /\
       cb_at (pool w') (index h) = callback_after cb ops /\
       IsValidHandle (pool w') h = true) /\
    (S' = ∅ ->
       calls w' = calls w0 ++ fired h (callback_after cb ops) /\
       IsValidHandle (pool w') h = false).
Proof.
  intros Hq Hwf Hsz Hcan Hown Hbound w1.
  destruct (tracked_after_Create w0 x0 obj cb Hwf Hsz Hcan) as [h Htr].
  fold w1 in Htr.
  destruct (tracked_run invoke gas h (calls w0) ops cb {[x0]} w1 S' Hq Htr Hown)
    as (w' & Hrun & Htr' & _).
  { rewrite size_singleton. exact Hbound. }
  exists h, w'. split_and!.
  - destruct Htr as ((_ & Hrefs & _) & _). apply Hrefs. set_solver.
  - exact Hrun.
  - intros HS. destruct Htr' as ((_ & _ & Hne & _) & Hcb & _).
    destruct (Hcb HS) as [Hc Hcalls]. destruct (Hne HS) as [Hv _].
    split_and!; auto. now apply IsValidHandle_true.
  - intros HS. destruct Htr' as ((_ & _ & _ & He) & _ & Hf).
    split; [now apply Hf|]. apply IsValidHandle_false. now apply He.
Qed.

End Lifetime_from_Create.

(** ** What a release leaves alone *)

Section Elsewhere.

Context {T Hook : Type}.
Variable invoke : Hook -> World T Hook -> outcome (World T Hook).
Implicit Types (w : World T Hook) (p : Pool T Hook) (h : SlotHandle) (r : SlotRef).

(** Callbacks that return and leave the pool, the client's objects and
    the record of invocations as they were. *)
Definition hooks_silent : Prop :=
  forall hk w, exists w',
    invoke hk w = Done w' /\ pool w' = pool w /\ calls w' = calls w /\
    refs w' = refs w.

Lemma hooks_silent_quiet : hooks_silent -> hooks_quiet invoke.
Proof.
  intros Hs hk w. destruct (Hs hk w) as (w' & H1 & H2 & H3 & _). eauto.
Qed.

(** [p'] is [p] but for slot [i]. *)
Definition same_elsewhere (i : N) p p' : Prop :=
  data_size p' = data_size p /\
  m_maxCapacity p' = m_maxCapacity p /\
  forall j, j <> i ->
    alive_at p' j = alive_at p j /\ gen_at p' j = gen_at p j /\
    rc_at p' j = rc_at p j /\ cb_at p' j = cb_at p j /\
    m_data p' !! N.to_nat j = m_data p !! N.to_nat j.

Lemma same_elsewhere_refl i p : same_elsewhere i p p.
Proof. split_and!; auto. Qed.

Lemma same_elsewhere_reads i p p' h :
  same_elsewhere i p p' -> index h <> i ->
  IsValidHandle p' h = IsValidHandle p h /\
  Get p' h = Get p h /\ GetRefCount p' h = GetRefCount p h /\
  cb_at p' (index h) = cb_at p (index h).
Proof.
  intros (Hs & _ & Hj) Hne. destruct (Hj _ Hne) as (Ha & Hg & Hr & Hc & Hd).
  assert (Hv : IsValidHandle p' h = IsValidHandle p h)
    by (unfold IsValidHandle; now rewrite Hs, Ha, Hg).
  unfold Get, GetRefCount. rewrite Hv, Hr, Hd. auto.
Qed.

Lemma retire_elsewhere i p (rcs : list N) (cbs : list (option Hook)) :
  (forall j : nat, j <> N.to_nat i -> rcs !! j = m_refCounts p !! j) ->
  (forall j : nat, j <> N.to_nat i -> cbs !! j = m_onDestroyCallbacks p !! j) ->
  same_elsewhere i p (retire_slot i (set_callbacks (set_refCounts p rcs) cbs)).
Proof.
  intros Hr Hc. split_and!; [reflexivity | reflexivity |].
  intros j Hne.
  assert (Hn : N.to_nat i <> N.to_nat j)
    by (intros He; apply N2Nat.inj in He; congruence).
  unfold alive_at, gen_at, rc_at, cb_at. simpl.
  rewrite !list_lookup_insert_ne by assumption.
  rewrite Hr, Hc by congruence. auto.
Qed.

Lemma ReleaseRef_elsewhere h w w' :
  hooks_quiet invoke -> ReleaseRef invoke h w = Done w' ->
  same_elsewhere (index h) (pool w) (pool w').
Proof.
  intros Hq. unfold ReleaseRef.
  destruct (IsValidHandle (pool w) h); [|intros [= <-]; apply same_elsewhere_refl].
  destruct (rc_at (pool w) (index h) =? 0); [discriminate|].
  set (rcs := <[N.to_nat (index h) := _]> (m_refCounts (pool w))).
  assert (Hrcs : forall j : nat, j <> N.to_nat (index h) ->
                   rcs !! j = m_refCounts (pool w) !! j)
    by (intros j Hj; unfold rcs; now apply list_lookup_insert_ne).
  change (pool (with_pool w (set_refCounts (pool w) rcs)))
    with (set_refCounts (pool w) rcs).
  destruct (rc_at (set_refCounts (pool w) rcs) (index h) =? 0).
  - destruct (RemoveInternal_quiet_pool invoke h
                (with_pool w (set_refCounts (pool w) rcs)) Hq)
      as (w1 & Hrun & Hp1).
    rewrite Hrun. intros [= <-]. rewrite Hp1. simpl.
    apply retire_elsewhere; [exact Hrcs|].
    intros j Hj. simpl. now apply list_lookup_insert_ne.
  - intros [= <-]. simpl. split_and!; [reflexivity | reflexivity |].
    intros j Hne. unfold alive_at, gen_at, rc_at, cb_at. simpl.
    rewrite Hrcs; [auto|]. intros He. apply N2Nat.inj in He. congruence.
Qed.

Lemma Release_elsewhere r w w' :
  hooks_quiet invoke -> Release invoke r w = Done w' ->
  same_elsewhere (index (m_handle r)) (pool w) (pool w').
Proof.
  intros Hq. unfold Release. destruct (SlotRef_IsValid (pool w) r).
  - now apply ReleaseRef_elsewhere.
  - intros [= <-]. apply same_elsewhere_refl.
Qed.

(** X15. Dropping a reference touches one slot: when the release of a
    [SlotRef], its [Reset] or its destruction returns, every handle
    with another index validates as before and has the same element,
    reference count and callback, and the capacity and the capacity
    bound are unchanged.  The callbacks are taken not to re-enter the
    pool. *)
Theorem release_leaves_other_elements w x r w' :
  hooks_quiet invoke ->
  refs w !! x = Some r ->
  Release invoke r w = Done w' \/ Reset invoke x w = Done w' \/
    destroy invoke x w = Done w' ->
  Capacity (pool w') = Capacity (pool w) /\
  GetMaxCapacity (pool w') = GetMaxCapacity (pool w) /\
  (forall h, index h <> index (m_handle r) ->
     IsValidHandle (pool w') h = IsValidHandle (pool w) h /\
     Get (pool w') h = Get (pool w) h /\
     GetRefCount (pool w') h = GetRefCount (pool w) h /\
     cb_at (pool w') (index h) = cb_at (pool w) (index h)).
Proof.
  intros Hq Hx Hrun.
  assert (Hse : same_elsewhere (index (m_handle r)) (pool w) (pool w')).
  { destruct Hrun as [Hr|[Hr|Hr]].
    - now apply Release_elsewhere.
    - unfold Reset in Hr. rewrite Hx in Hr.
      destruct (Release invoke r w) as [w1| |] eqn:Hrel; simpl in Hr;
        try discriminate.
      injection Hr as <-. simpl. now apply Release_elsewhere.
    - unfold destroy in Hr. rewrite Hx in Hr.
      destruct (Release invoke r w) as [w1| |] eqn:Hrel; simpl in Hr;
        try discriminate.
      injection Hr as <-. simpl. now apply Release_elsewhere. }
  split_and!.
  - apply Hse.
  - apply Hse.
  - intros h Hne. now apply (same_elsewhere_reads _ _ _ _ Hse).
Qed.

Lemma Release_refs r w w' :
  hooks_silent -> Release invoke r w = Done w' -> refs w' = refs w.
Proof.
  intros Hs. unfold Release, ReleaseRef.
  destruct (SlotRef_IsValid (pool w) r); [|now intros [= <-]].
  destruct (IsValidHandle (pool w) (m_handle r)); [|now intros [= <-]].
  destruct (_ =? 0); [discriminate|].
  set (w1 := with_pool w _).
  destruct (rc_at (pool w1) (index (m_handle r)) =? 0); [|now intros [= <-]].
  destruct (cb_at (pool w1) (index (m_handle r))) as [hk|] eqn:Hcb.
  - rewrite (RemoveInternal_with_hook _ _ _ _ Hcb).
    destruct (Hs hk (mkWorld (pool w1) (refs w1)
                       (calls w1 ++ [(index (m_handle r), hk)])))
      as (w2 & -> & _ & _ & Hr2). simpl. intros [= <-]. simpl. exact Hr2.
  - rewrite (RemoveInternal_without_hook _ _ _ Hcb). now intros [= <-].
Qed.

(** X16. Assignment between two objects that hold references to
    different elements: both operators release the element the target
    held (its count goes down by one, and with the last reference the
    element goes) and bind the target to the source's element.  Copy
    assignment adds one to that element's count and leaves the source
    bound; move assignment leaves the count as it is and the source
    empty.  The callbacks are taken to leave the program state alone. *)
Theorem assignment_releases_old_binds_new w dst src hd hs cd cs :
  hooks_silent -> pool_wf (pool w) -> dst <> src ->
  refs w !! dst = Some (mkRef hd ThePool) ->
  refs w !! src = Some (mkRef hs ThePool) ->
  valid_handle (pool w) hd -> valid_handle (pool w) hs ->
  index hd <> index hs ->
  rc_at (pool w) (index hd) = cd -> 0 < cd <= UINT32_MAX ->
  rc_at (pool w) (index hs) = cs -> cs < UINT32_MAX ->
  (exists w',
     copy_assign invoke dst src w = Done w' /\
     refs w' !! dst = Some (mkRef hs ThePool) /\
     refs w' !! src = Some (mkRef hs ThePool) /\
     GetRefCount (pool w') hs = cs + 1 /\
     (1 < cd -> GetRefCount (pool w') hd = cd - 1) /\
     (cd = 1 -> IsValidHandle (pool w') hd = false)) /\
  (exists w',
     move_assign invoke dst src w = Done w' /\
     refs w' !! dst = Some (mkRef hs ThePool) /\
     refs w' !! src = Some SlotRef_empty /\
     GetRefCount (pool w') hs = cs /\
     (1 < cd -> GetRefCount (pool w') hd = cd - 1) /\
     (cd = 1 -> IsValidHandle (pool w') hd = false)).
Proof.
  intros Hs Hwf Hne Hd Hsrc Hvd Hvs Hidx Hcd Hcdb Hcs Hcsb.
  pose proof (hooks_silent_quiet Hs) as Hq.
  destruct (Release_counted invoke hd w cd Hq Hwf Hvd Hcd Hcdb)
    as (w1 & Hrel & Hwf1 & Hmany & Hlast).
  pose proof (Release_refs _ _ _ Hs Hrel) as Hrefs1.
  pose proof (Release_elsewhere _ _ _ Hq Hrel) as Hse. simpl in Hse.
  destruct (same_elsewhere_reads _ _ _ hs Hse ltac:(congruence))
    as (Hvs1 & _ & Hrs1 & _).
  pose proof Hvs as Hvsb. apply IsValidHandle_true in Hvsb.
  rewrite Hvsb in Hvs1.
  assert (Hrc_s : GetRefCount (pool w1) hs = cs)
    by (rewrite Hrs1; unfold GetRefCount; rewrite Hvsb; exact Hcs).
  assert (Hrc_d : 1 < cd -> GetRefCount (pool w1) hd = cd - 1).
  { intros Hm. destruct (Hmany Hm) as (_ & _ & Hv & Hrc).
    apply IsValidHandle_true in Hv. unfold GetRefCount. now rewrite Hv. }
  assert (Hinv_d : cd = 1 -> IsValidHandle (pool w1) hd = false)
    by (intros H1; apply IsValidHandle_false; now apply Hlast).
  assert (Hsrc1 : refs w1 !! src = Some (mkRef hs ThePool)) by now rewrite Hrefs1.
  split.
  - exists (copy_construct dst src w1). split_and!.
    + unfold copy_assign. destruct (Nat.eqb_spec dst src); [contradiction|].
      rewrite Hd, Hrel. simpl. unfold copy_construct. now rewrite Hsrc1.
    + rewrite (copy_construct_spec _ _ _ _ Hsrc1). simpl. apply lookup_insert_eq.
    + rewrite (copy_construct_spec _ _ _ _ Hsrc1). simpl.
      now rewrite lookup_insert_ne.
    + rewrite (copy_construct_spec _ _ _ _ Hsrc1). simpl.
      rewrite acquire_valid by (unfold SlotRef_IsValid; simpl; exact Hvs1).
      simpl. unfold GetRefCount in *. rewrite AddRef_IsValidHandle.
      rewrite Hvs1 in *. simpl in *. rewrite AddRef_rc_at by assumption.
      destruct (decide _) as [_|Hn].
      * rewrite Hrc_s. apply incr32_small. exact Hcsb.
      * destruct Hn. split; [now apply IsValidHandle_true | reflexivity].
    + intros Hm. rewrite (copy_construct_spec _ _ _ _ Hsrc1). simpl.
      rewrite acquire_valid by (unfold SlotRef_IsValid; simpl; exact Hvs1).
      simpl. specialize (Hrc_d Hm). unfold GetRefCount in *.
      rewrite AddRef_IsValidHandle.
      destruct (IsValidHandle (pool w1) hd); simpl in *; [|exact Hrc_d].
      rewrite AddRef_rc_at by assumption.
      destruct (decide _) as [[_ ?]|_]; [contradiction | exact Hrc_d].
    + intros H1. rewrite (copy_construct_spec _ _ _ _ Hsrc1). simpl.
      rewrite acquire_valid by (unfold SlotRef_IsValid; simpl; exact Hvs1).
      simpl. rewrite AddRef_IsValidHandle. now apply Hinv_d.
  - eexists. split_and!.
    + unfold move_assign. destruct (Nat.eqb_spec dst src); [contradiction|].
      rewrite Hd, Hrel. simpl. rewrite Hsrc1. reflexivity.
    + simpl. rewrite lookup_insert_ne by congruence. apply lookup_insert_eq.
    + simpl. apply lookup_insert_eq.
    + exact Hrc_s.
    + exact Hrc_d.
    + exact Hinv_d.
Qed.

End Elsewhere.

Arguments hooks_silent {T Hook}.
Arguments same_elsewhere {T Hook}.

(** ** Reuse of a freed slot *)

Section Reuse.

Context {T Hook : Type}.
Variable invoke : Hook -> World T Hook -> outcome (World T Hook).
Implicit Types (w : World T Hook) (p : Pool T Hook) (h : SlotHandle) (r : SlotRef).

Lemma Release_last_pool h w :
  hooks_quiet invoke -> pool_wf (pool w) -> valid_handle (pool w) h ->
  rc_at (pool w) (index h) = 1 ->
  exists w1,
    Release invoke (mkRef h ThePool) w = Done w1 /\
    pool w1 =
      retire_slot (index h)
        (set_callbacks
           (set_refCounts (pool w)
              (<[N.to_nat (index h) := 0]> (m_refCounts (pool w))))
           (<[N.to_nat (index h) := None]> (m_onDestroyCallbacks (pool w)))).
Proof.
  intros Hq Hwf Hv Hrc. unfold Release, SlotRef_IsValid, ReleaseRef. simpl.
  pose proof (valid_handle_in_range _ _ Hv) as Hr.
  pose proof Hv as Hb. apply IsValidHandle_true in Hb. rewrite Hb, Hrc. simpl.
  change (decr32 1) with 0.
  set (p1 := set_refCounts (pool w) _).
  assert (Hrc1 : rc_at p1 (index h) = 0).
  { unfold rc_at, p1. simpl. rewrite list_lookup_insert_eq; [reflexivity|].
    rewrite (wf_refCounts _ Hwf). exact Hr. }
  rewrite Hrc1. simpl.
  destruct (RemoveInternal_quiet_pool invoke h (with_pool w p1) Hq)
    as (w1 & Hrun & Hp1).
  exists w1. split; [exact Hrun | exact Hp1].
Qed.

(** X17. A freed slot comes back with the next generation.  An element
    whose only reference is the object at [x] is dropped by [Reset]
    while the free list is empty; the next [Create] returns a valid
    reference of use count one to the new element at the same index,
    with the generation of the old handle plus one; the old handle does
    not validate and the capacity is as before.  The generation of the
    old handle is below [UINT32_MAX] and the capacity bound, if any, is
    respected at the start. *)
Theorem freed_slot_is_reused_with_next_generation w x y h obj :
  hooks_quiet invoke -> pool_inv (pool w) ->
  data_size (pool w) < 4294967296 ->
  refs w !! x = Some (mkRef h ThePool) ->
  valid_handle (pool w) h -> rc_at (pool w) (index h) = 1 ->
  generation h < UINT32_MAX ->
  m_freeList (pool w) = [] ->
  m_maxCapacity (pool w) = 0 \/ m_count (pool w) <= m_maxCapacity (pool w) ->
  exists w1,
    Reset invoke x w = Done w1 /\
    let w2 := create_at y obj w1 in
    let h' := mkHandle (index h) (generation h + 1) in
    refs w2 !! y = Some (mkRef h' ThePool) /\
    IsValidHandle (pool w2) h' = true /\
    Get (pool w2) h' = Some obj /\
    GetRefCount (pool w2) h' = 1 /\
    IsValidHandle (pool w2) h = false /\
    Capacity (pool w2) = Capacity (pool w).
Proof.
  intros Hq Hinv Hsz Hx Hv Hrc Hgen Hfl Hcap.
  pose proof (inv_wf _ Hinv) as Hwf.
  destruct (Release_last_pool h w Hq Hwf Hv Hrc) as (w1 & Hrel & Hp1).
  pose proof (valid_handle_in_range _ _ Hv) as Hr.
  exists (with_ref w1 x SlotRef_empty). split.
  { unfold Reset. now rewrite Hx, Hrel. }
  simpl. unfold create_at. simpl.
  (* the pool after the release *)
  assert (Hwf1 : pool_wf (pool w1)).
  { rewrite Hp1. apply retire_slot_wf; [|apply Hv].
    apply set_callbacks_wf; [|simpl; apply length_insert].
    apply set_refCounts_wf; [exact Hwf | apply length_insert]. }
  assert (Hfl1 : m_freeList (pool w1) = [index h])
    by (rewrite Hp1; simpl; now rewrite Hfl).
  assert (Hg1 : m_generations (pool w1) !! N.to_nat (index h)
                = Some (generation h + 1)).
  { rewrite Hp1. simpl.
    rewrite list_lookup_insert_eq by (rewrite (wf_generations _ Hwf); exact Hr).
    destruct Hv as (_ & _ & Hg).
    change (gen_at (set_callbacks _ _) (index h)) with (gen_at (pool w) (index h)).
    rewrite Hg. now rewrite incr32_small. }
  assert (Hsz1 : data_size (pool w1) = data_size (pool w)) by now rewrite Hp1.
  assert (Hcan : CanCreate (pool w1) = true).
  { apply CanCreate_true. rewrite Hp1. simpl.
    destruct Hcap as [H0|Hle]; [now left|right].
    assert (Hl1 : m_alive (pool w) !! N.to_nat (index h) = Some true)
      by (apply alive_at_lookup, Hv).
    pose proof (alive_count_insert (m_alive (pool w)) _ _ false Hl1) as Hins.
    simpl in Hins.
    pose proof (alive_count_le (m_alive (pool w))) as Hac.
    rewrite (wf_alive _ Hwf) in Hac. unfold data_size in Hsz.
    rewrite (inv_count _ Hinv) in *. rewrite decr64_pos by lia. lia. }
  destruct (Create obj (pool w1)) as [r p2] eqn:Hcr.
  destruct (Create_ok _ _ _ _ Hwf1 ltac:(now rewrite Hsz1) Hcan Hcr)
    as (Hwf2 & Hslot & Hvr & Huse & Hget & _).
  (* the handle returned *)
  assert (Hr' : r = mkRef (mkHandle (index h) (generation h + 1)) ThePool
                /\ m_generations p2 = m_generations (pool w1)
                /\ length (m_data p2) = length (m_data (pool w1))).
  { unfold Create in Hcr. rewrite Hcan in Hcr. simpl in Hcr.
    unfold AllocateSlot in Hcr. rewrite Hfl1 in Hcr.
    injection Hcr as <- <-.
    match goal with
    | |- context [AddRef ?P ?hh] =>
        destruct (AddRef_frame P hh) as (Ed & Eg & _)
    end.
    rewrite Ed, Eg. unfold gen_at. rewrite Hg1. simpl.
    split_and!; [reflexivity | reflexivity | apply length_insert]. }
  destruct Hr' as (-> & Hg2 & Hl2). simpl.
  unfold SlotRef_IsValid in Hvr. simpl in Hvr.
  unfold UseCount, SlotRef_IsValid in Huse. simpl in Huse. rewrite Hvr in Huse.
  simpl in Huse.
  split_and!.
  - apply lookup_insert_eq.
  - exact Hvr.
  - exact Hget.
  - exact Huse.
  - apply (generation_mismatch p2 h (generation h + 1)); [|lia].
    now rewrite Hg2.
  - unfold Capacity, data_size in *. rewrite Hl2. exact Hsz1.
Qed.

End Reuse.

(** ** SlotHandle.h: the sentinel index *)

Section Sentinel.

Context {T Hook : Type}.
Implicit Types (p : Pool T Hook) (h : SlotHandle) (r : SlotRef).

(** X18. [SlotHandle::IsValid] and the pool agree while the storage has
    fewer than 2^32 - 1 slots: every handle the pool accepts passes
    [IsValid()], the handle [Invalid()] is refused by the pool, and the
    reference returned by [Create] is valid, with a handle that passes
    [IsValid()], exactly when [CanCreate] allowed the creation. *)
Theorem pool_handles_are_not_the_sentinel obj p r p' :
  pool_wf p -> data_size p < UINT32_MAX ->
  Create obj p = (r, p') ->
  (forall h, IsValidHandle p h = true -> handle_IsValid h = true) /\
  IsValidHandle p Invalid = false /\
  handle_IsValid (m_handle r) = CanCreate p /\
  SlotRef_IsValid p' r = CanCreate p.
Proof.
  intros Hwf Hsz Hcr.
  assert (Hnot : forall (q : Pool T Hook) h, data_size q <= UINT32_MAX ->
            IsValidHandle q h = true -> handle_IsValid h = true).
  { intros q h Hq Hv. apply IsValidHandle_true, valid_handle_in_range in Hv.
    unfold handle_IsValid, INVALID_INDEX.
    destruct (N.eqb_spec (index h) UINT32_MAX) as [He|_]; [|reflexivity].
    unfold data_size in Hq. lia. }
  split_and!.
  - intros h. apply Hnot. lia.
  - destruct (IsValidHandle p Invalid) eqn:Hv; [|reflexivity].
    apply Hnot in Hv; [|lia]. discriminate Hv.
  - destruct (CanCreate p) eqn:Hcan.
    + assert (Hsz' : data_size p < 4294967296)
        by (unfold UINT32_MAX in Hsz; lia).
      destruct (Create_ok _ _ _ _ Hwf Hsz' Hcan Hcr)
        as (_ & Hs & Hv & _).
      pose proof (Create_size _ _ _ _ Hcr) as Hgrow.
      unfold SlotRef_IsValid in Hv. rewrite Hs in Hv. simpl in Hv.
      apply (Hnot p'); [lia | exact Hv].
    + rewrite (Create_refused _ _ Hcan) in Hcr. now injection Hcr as <- <-.
  - destruct (CanCreate p) eqn:Hcan.
    + assert (Hsz' : data_size p < 4294967296)
        by (unfold UINT32_MAX in Hsz; lia).
      now destruct (Create_ok _ _ _ _ Hwf Hsz' Hcan Hcr) as (_ & _ & Hv & _).
    + rewrite (Create_refused _ _ Hcan) in Hcr. now injection Hcr as <- <-.
Qed.

End Sentinel.

(** ** Concrete runs for the further properties *)

Lemma quiet_hooks_silent : hooks_silent quiet.
Proof. intros hk w. exists w. repeat split. Qed.

(** A state reached by a program from the freshly constructed pool
    satisfies the invariant. *)
Lemma reached_inv gas (ops : list (Op nat nat)) w' :
  N.of_nat (length ops) <= UINT32_MAX -> (length ops <= gas)%nat ->
  run quiet gas ops World_new = Done w' ->
  pool_inv (pool w') /\ bounded (length ops) (pool w').
Proof.
  intros Hb Hg Hrun.
  destruct (run_inv quiet gas ops 0 World_new quiet_hooks_quiet
              (proj1 Pool_new_inv) (proj2 Pool_new_inv) Hb Hg)
    as (w0 & Hr & Hi & Hbd & _).
  rewrite Hrun in Hr. injection Hr as <-. auto.
Qed.

Lemma one_element_inv : pool_inv (pool one_element).
Proof.
  apply (reached_inv 1 [OCreate 0 7%nat] one_element);
    [vm_compute; discriminate | simpl; lia | reflexivity].
Qed.

(** Two elements, held by the objects at addresses 0 and 1. *)
Definition two_elements : quiet_world :=
  create_at 1 8%nat (create_at 0 7%nat World_new).

Lemma Reset_is_idempotent_witness :
  exists w1,
    Reset quiet 0 one_element = Done w1 /\
    refs w1 !! 0%nat = Some SlotRef_empty /\
    Reset quiet 0 w1 = Done w1.
Proof.
  destruct (Reset quiet 0 one_element) as [w1| |] eqn:Hr;
    [| vm_compute in Hr; discriminate ..].
  destruct (Reset_is_idempotent quiet one_element 0%nat
              (mkRef (mkHandle 0 0) ThePool) w1 eq_refl Hr) as (H1 & H2 & _).
  exists w1. auto.
Defined.


Lemma Clear_leaves_nothing_valid_witness :
  exists w',
    Clear quiet 5 hooked_world = Done w' /\
    IsValidHandle (pool w') (mkHandle 0 0) = false /\
    Count (pool w') = 0 /\ Capacity (pool w') = 0 /\
    Clear quiet 1 w' = Done w'.
Proof.
  destruct (Clear quiet 5 hooked_world) as [w'| |] eqn:Hc;
    [| vm_compute in Hc; discriminate ..].
  destruct (Clear_leaves_nothing_valid quiet 5 hooked_world w' Hc)
    as (Hh & _ & Hcount & Hcap & _ & Hagain).
  exists w'. split_and!; auto.
Defined.

(** A callable that lists what it is handed. *)
Definition list_visit (h : SlotHandle) (x : nat) (acc : list (N * nat))
  : list (N * nat) := acc ++ [(index h, x)].

Lemma ForEach_visits_valid_handles_in_order_witness :
  ForEach_const list_visit five_slots_two_dead [] = [(0, 10%nat); (1, 11%nat); (2, 12%nat)] /\
  (mkHandle 1 0, 11%nat) ∈ visits five_slots_two_dead.
Proof.
  destruct (ForEach_visits_valid_handles_in_order list_visit five_slots_two_dead []
              ltac:(vm_compute; discriminate)) as (Hfold & Hin & _).
  split.
  - rewrite Hfold. reflexivity.
  - apply Hin. split; [repeat split | reflexivity].
Defined.

(** A callable that adds one to the element and sums what it saw. *)
Definition bump_and_sum (h : SlotHandle) (x : nat) (acc : nat) : nat * nat :=
  (S x, (acc + x)%nat).

Lemma ForEach_changes_only_live_elements_witness :
  m_data (fst (ForEach bump_and_sum five_slots_two_dead O)) = [11; 12; 13; 13; 14]%nat /\
  snd (ForEach bump_and_sum five_slots_two_dead O) = 33%nat /\
  IsValidHandle (fst (ForEach bump_and_sum five_slots_two_dead O)) (mkHandle 2 0) = true.
Proof.
  destruct (ForEach_changes_only_live_elements bump_and_sum five_slots_two_dead O
              ltac:(vm_compute; discriminate)) as (He & _ & _ & Hv & _).
  split_and!.
  - rewrite He. reflexivity.
  - rewrite He. reflexivity.
  - rewrite Hv. reflexivity.
Defined.

(** A program that uses every kind of operation. *)
Definition sample_program : list (Op nat nat) :=
  [OCreate 0 7%nat; OSetOnDestroy 0 (Some 5%nat); OCopyConstruct 1 0;
   OCreate 2 8%nat; OMoveAssign 1 2; OCopyAssign 2 0; OReset 0;
   OMoveToTemporary 2; OShrinkToFit; OCreate 3 9%nat; OMoveConstruct 4 3;
   OClearOnDestroy 4; OReserve 10; ODestroy 1; OClear; OCreate 5 1%nat].


Lemma client_program_keeps_invariant_witness :
  exists w',
    run quiet 16 sample_program World_new = Done w' /\
    Count (pool w') = N.of_nat (alive_count (m_alive (pool w'))) /\
    Count (pool w') <= Capacity (pool w') /\
    NoDup (m_freeList (pool w')).
Proof.
  destruct (run quiet 16 sample_program World_new) as [w'| |] eqn:Hr;
    [| vm_compute in Hr; discriminate ..].
  destruct (client_program_keeps_invariant quiet 16 sample_program 0 World_new w'
              quiet_hooks_quiet (proj1 Pool_new_inv) (proj2 Pool_new_inv)
              ltac:(vm_compute; discriminate) ltac:(simpl; lia) Hr)
    as (_ & Hc & Hle & Hnd & _).
  exists w'. auto.
Defined.

(** The freshly constructed pool with [SetMaxCapacity(2)]. *)
Definition bounded_world : quiet_world :=
  mkWorld (SetMaxCapacity Pool_new 2) ∅ [].

Lemma client_program_respects_capacity_witness :
  exists w',
    run quiet 4 [OCreate 0 7%nat; OCreate 1 8%nat; OCreate 2 9%nat; OReset 0]
        bounded_world = Done w' /\
    (m_maxCapacity (pool w') = 0 \/ Count (pool w') <= m_maxCapacity (pool w')).
Proof.
  destruct (run quiet 4 [OCreate 0 7%nat; OCreate 1 8%nat; OCreate 2 9%nat; OReset 0]
              bounded_world) as [w'| |] eqn:Hr;
    [| vm_compute in Hr; discriminate ..].
  exists w'. split; [reflexivity|].
  destruct (SetMaxCapacity_inv (T:=nat) (Hook:=nat) 0 Pool_new 2
              (proj1 Pool_new_inv) (proj2 Pool_new_inv)) as [Hi Hb].
  apply (client_program_respects_capacity quiet 4
           [OCreate 0 7%nat; OCreate 1 8%nat; OCreate 2 9%nat; OReset 0]
           0 bounded_world w' quiet_hooks_quiet Hi Hb).
  - vm_compute. discriminate.
  - simpl. lia.
  - reflexivity.
  - right. vm_compute. discriminate.
  - exact Hr.
Defined.


(** Copies, a move and drops of one element with callback 5. *)
Definition lifetime_program : list (Op nat nat) :=
  [OCopyConstruct 1 0; OMoveConstruct 2 0; OReset 1; OCopyConstruct 3 2;
   OMoveToTemporary 2].

Lemma moves_do_not_change_UseCount_witness :
  let w1 : quiet_world := SetOnDestroy 0 (Some 5%nat) (create_at 0 7%nat World_new) in
  exists h w',
    refs w1 !! 0%nat = Some (mkRef h ThePool) /\
    run quiet 2 lifetime_program w1 = Done w' /\
    (releases lifetime_program <= 1 + copies lifetime_program)%nat /\
    size ({[3%nat]} : gset nat) =
      (1 + copies lifetime_program - releases lifetime_program)%nat /\
    (forall y, y ∈ ({[3%nat]} : gset nat) ->
       refs w' !! y = Some (mkRef h ThePool) /\
       UseCount (pool w') (mkRef h ThePool) =
         N.of_nat (1 + copies lifetime_program - releases lifetime_program)).
Proof.
  intros w1.
  apply (moves_do_not_change_UseCount quiet 2 World_new 0%nat 7%nat
           (Some 5%nat) lifetime_program {[3%nat]}).
  - exact quiet_hooks_quiet.
  - apply Pool_new_wf.
  - reflexivity.
  - reflexivity.
  - vm_compute. reflexivity.
  - vm_compute. discriminate.
Defined.

Lemma callback_runs_once_at_last_drop_witness :
  let w1 : quiet_world := SetOnDestroy 0 (Some 5%nat) (create_at 0 7%nat World_new) in
  exists h w',
    refs w1 !! 0%nat = Some (mkRef h ThePool) /\
    run quiet 2 (lifetime_program ++ [OSetOnDestroy 3 (Some 6%nat); ODestroy 3]) w1
      = Done w' /\
    calls w' = fired h (Some 6%nat) /\
    IsValidHandle (pool w') h = false.
Proof.
  intros w1.
  destruct (callback_runs_once_at_last_drop quiet 2 World_new 0%nat 7%nat
              (Some 5%nat)
              (lifetime_program ++ [OSetOnDestroy 3 (Some 6%nat); ODestroy 3]) ∅
              quiet_hooks_quiet Pool_new_wf eq_refl eq_refl
              ltac:(vm_compute; reflexivity) ltac:(vm_compute; discriminate))
    as (h & w' & Hx & Hrun & _ & Hlast).
  destruct (Hlast eq_refl) as [Hcalls Hinv].
  exists h, w'. split_and!; auto.
Defined.

Lemma release_leaves_other_elements_witness :
  exists w',
    Reset quiet 0 two_elements = Done w' /\
    Capacity (pool w') = 2 /\
    IsValidHandle (pool w') (mkHandle 1 0) = true /\
    Get (pool w') (mkHandle 1 0) = Some 8%nat /\
    GetRefCount (pool w') (mkHandle 1 0) = 1.
Proof.
  destruct (Reset quiet 0 two_elements) as [w'| |] eqn:Hr;
    [| vm_compute in Hr; discriminate ..].
  destruct (release_leaves_other_elements quiet two_elements 0%nat
              (mkRef (mkHandle 0 0) ThePool) w' quiet_hooks_quiet eq_refl
              (or_intror (or_introl Hr))) as (Hcap & _ & Hother).
  destruct (Hother (mkHandle 1 0) ltac:(discriminate)) as (Hv & Hg & Hrc & _).
  exists w'. split_and!;
    [reflexivity | rewrite Hcap | rewrite Hv | rewrite Hg | rewrite Hrc];
    reflexivity.
Defined.

Lemma assignment_releases_old_binds_new_witness :
  (exists w',
     copy_assign quiet 0 1 two_elements = Done w' /\
     refs w' !! 0%nat = Some (mkRef (mkHandle 1 0) ThePool) /\
     GetRefCount (pool w') (mkHandle 1 0) = 2 /\
     IsValidHandle (pool w') (mkHandle 0 0) = false) /\
  (exists w',
     move_assign quiet 0 1 two_elements = Done w' /\
     refs w' !! 0%nat = Some (mkRef (mkHandle 1 0) ThePool) /\
     refs w' !! 1%nat = Some SlotRef_empty /\
     GetRefCount (pool w') (mkHandle 1 0) = 1 /\
     IsValidHandle (pool w') (mkHandle 0 0) = false).
Proof.
  assert (Hwf : pool_wf (pool two_elements)) by (split; simpl; auto).
  assert (Hvd : valid_handle (pool two_elements) (mkHandle 0 0)) by (repeat split).
  assert (Hvs : valid_handle (pool two_elements) (mkHandle 1 0)) by (repeat split).
  assert (Hb1 : 0 < 1 <= UINT32_MAX)
    by (split; [reflexivity | vm_compute; discriminate]).
  assert (Hb2 : 1 < UINT32_MAX) by reflexivity.
  destruct (assignment_releases_old_binds_new quiet two_elements 0%nat 1%nat
              (mkHandle 0 0) (mkHandle 1 0) 1 1 quiet_hooks_silent Hwf
              ltac:(discriminate) eq_refl eq_refl Hvd Hvs ltac:(discriminate)
              eq_refl Hb1 eq_refl Hb2)
    as [(wc & Hc & Hcd & _ & Hcrc & _ & Hcinv)
        (wm & Hm & Hmd & Hms & Hmrc & _ & Hminv)].
  split.
  - exists wc. split_and!; auto.
  - exists wm. split_and!; auto.
Defined.

Lemma freed_slot_is_reused_with_next_generation_witness :
  exists w1,
    Reset quiet 0 one_element = Done w1 /\
    refs (create_at 1 8%nat w1) !! 1%nat = Some (mkRef (mkHandle 0 1) ThePool) /\
    Get (pool (create_at 1 8%nat w1)) (mkHandle 0 1) = Some 8%nat /\
    IsValidHandle (pool (create_at 1 8%nat w1)) (mkHandle 0 0) = false /\
    Capacity (pool (create_at 1 8%nat w1)) = 1.
Proof.
  assert (Hv : valid_handle (pool one_element) (mkHandle 0 0)) by (repeat split).
  destruct (freed_slot_is_reused_with_next_generation quiet one_element
              0%nat 1%nat (mkHandle 0 0) 8%nat quiet_hooks_quiet one_element_inv
              ltac:(reflexivity) eq_refl Hv eq_refl ltac:(reflexivity) eq_refl
              (or_introl eq_refl))
    as (w1 & Hr & Hy & _ & Hg & _ & Hold & Hcap).
  exists w1. split_and!; auto.
Defined.

Lemma pool_handles_are_not_the_sentinel_witness :
  exists r p',
    Create 8%nat (pool one_element) = (r, p') /\
    handle_IsValid (m_handle r) = true /\
    SlotRef_IsValid p' r = true /\
    IsValidHandle (pool one_element) Invalid = false.
Proof.
  destruct (Create 8%nat (pool one_element)) as [r p'] eqn:Hc.
  destruct (pool_handles_are_not_the_sentinel 8%nat (pool one_element) r p'
              (inv_wf _ one_element_inv) ltac:(reflexivity) Hc)
    as (_ & Hi & Hh & Hv).
  exists r, p'. split_and!; auto.
Defined.
